(** * A shallow embedding of the site scripts [js/auto-index.js] and
      [js/auto-toc.js], with the properties of the index pipeline and of the
      table-of-contents generator proved over it.

    The model:
    - [Js]        the fragment of the JavaScript runtime the scripts rely on:
                  strings as sequences of UTF-16 code units, [trim], the
                  default sort order, number printing, thrown errors;
    - [AutoIndex] [buildCategoryList], [buildHeader], [buildFooter],
                  [buildPostMap], [createKnowledgeTable], [buildAutoIndex];
    - [AutoToc]   [generateSlug], [generateUniqueId], [getOrCreateContainer],
                  [generateTOC].

    The properties:
    - [JsFacts]       the sort order is total, [trim], [replace], printing;
    - [AutoIndexSpec] [Promise.all], grouping, extraction, rendering, the
                      composer;
    - [AutoTocSpec]   the run without headings, the loop of
                      [generateUniqueId];
    - [JsExtra]        more on [trim] and [replace];
    - [AutoIndexExtra] the keys, slugs and contents of the records, the
                       requests and the console, the ways [buildPostMap]
                       ends, the layout of the page;
    - [AutoTocExtra]   the shape of a slug, the id that [generateUniqueId]
                       picks, the one way [generateTOC] throws;
    - [AutoTocTree]    the tree under the table of contents: the container,
                       the entries of the list, the ids of the headings. *)

From Stdlib Require Import NArith Ascii String DecimalString DecimalN DecimalFacts Lia.
From stdpp Require Import gmap list sorting.

(* ===================================================================== *)
(** * The JavaScript runtime fragment                                      *)
(* ===================================================================== *)

Module Js.

Local Open Scope N_scope.

(** A JavaScript string is a finite sequence of UTF-16 code units. *)
Abbreviation jsstr := (list N).

(** An ASCII literal of the source, as code units. *)
Fixpoint lit (s : string) : jsstr :=
  match s with
  | EmptyString => []
  | String a s' => N_of_ascii a :: lit s'
  end.

(** The double quote, which the literals below splice in. *)
Definition dquote : jsstr := [34].

(** ** [String.prototype.trim]

    ECMAScript strips the code points of WhiteSpace and LineTerminator:
    TAB, VT, FF, SP, NBSP, ZWNBSP and the Unicode space separators; LF, CR,
    LS and PS. All of them are single code units. *)
Definition WhiteSpace : list N :=
  [9; 11; 12; 32; 160; 5760;
   8192; 8193; 8194; 8195; 8196; 8197; 8198; 8199; 8200; 8201; 8202;
   8239; 8287; 12288; 65279].

Definition LineTerminator : list N := [10; 13; 8232; 8233].

Definition is_ws (c : N) : bool :=
  existsb (N.eqb c) (WhiteSpace ++ LineTerminator).

Fixpoint trimStart (s : jsstr) : jsstr :=
  match s with
  | [] => []
  | c :: s' => if is_ws c then trimStart s' else s
  end.

Definition trimEnd (s : jsstr) : jsstr := rev (trimStart (rev s)).

Definition trim (s : jsstr) : jsstr := trimEnd (trimStart s).

(** ** Truthiness of a string: the empty string is the only falsy one. *)
Definition truthy_str (s : jsstr) : bool := negb (N.of_nat (length s) =? 0).

(** ** Printing a non-negative integer, as template literals do. *)
Definition Number_toString (n : N) : jsstr :=
  lit (NilZero.string_of_uint (N.to_uint n)).

(** ** The default order of [Array.prototype.sort]

    Without a comparator the elements are compared as strings, code unit
    by code unit; a proper prefix comes first. *)
Fixpoint str_compare (a b : jsstr) : comparison :=
  match a, b with
  | [], [] => Eq
  | [], _ :: _ => Lt
  | _ :: _, [] => Gt
  | x :: a', y :: b' =>
      match N.compare x y with
      | Eq => str_compare a' b'
      | c => c
      end
  end.

Definition str_le (a b : jsstr) : Prop := str_compare a b ≠ Gt.

#[export] Instance str_le_dec a b : Decision (str_le a b).
Proof. unfold str_le. apply _. Defined.

(** The sort itself. The language leaves the algorithm to the engine; on
    pairwise distinct strings every correct algorithm returns the same
    array ([sort_unique] below), so a merge sort stands for all of them. *)
Definition sort (l : list jsstr) : list jsstr := merge_sort str_le l.

(** ** Thrown values *)
Inductive error : Type :=
| NetworkError (message : jsstr)   (* [fetch] rejected *)
| TypeError (message : jsstr).

Definition message (e : error) : jsstr :=
  match e with NetworkError m | TypeError m => m end.

(** ** [String.prototype.replace] with the pattern [/\.html$/] and the
    empty replacement: a final [".html"] is dropped, anything else is kept. *)
Definition ends_with (suffix s : jsstr) : bool :=
  bool_decide (drop (length s - length suffix) s = suffix).

Definition strip_html (s : jsstr) : jsstr :=
  if ends_with (lit ".html") s then take (length s - 5) s else s.

End Js.

(* ===================================================================== *)
(** * [js/auto-index.js]                                                   *)
(* ===================================================================== *)

Module AutoIndex.
Import Js.

(** ** Data *)

(** The object returned by the callback of [htmlFiles.map]. *)
Record ArticleRecord : Type := mkArticle {
  filename : jsstr;
  category : jsstr;
  slug : jsstr;
  content : jsstr
}.

#[export] Instance ArticleRecord_eq_dec : EqDecision ArticleRecord.
Proof. solve_decision. Defined.

(** Modelled from the spec: the global [SITE_CONFIG], which is defined
    outside the two scripts. Its fields are the ones the code reads;
    [copyrightYear] stands for its rendering in a template literal. *)
Record SiteConfig : Type := mkConfig {
  postsDir : jsstr;
  postFiles : list jsstr;
  title : jsstr;
  subtitle : jsstr;
  description : jsstr;
  githubUrl : jsstr;
  copyrightYear : jsstr
}.

(** The nodes the script creates. *)
#[warnings="-register-all"]
Inductive node : Type :=
| Elem (tag : string) (attrs : list (string * jsstr)) (kids : list node)
| Text (data : jsstr).

Definition kids_of (n : node) : list node :=
  match n with Elem _ _ ks => ks | Text _ => [] end.

Definition attrs_of (n : node) : list (string * jsstr) :=
  match n with Elem _ a _ => a | Text _ => [] end.

Fixpoint textContent (n : node) : jsstr :=
  match n with
  | Elem _ _ ks => flat_map textContent ks
  | Text s => s
  end.

(** The children of an element whose [innerHTML] was assigned [parsed] and
    to which [appended] were appended since: the fragment the HTML parser
    makes of [parsed], then [appended]. *)
Record region : Type := mkRegion {
  parsed : jsstr;
  appended : list node
}.

(** [el.textContent = s] on a fresh element: one text node, none for the
    empty string. *)
Definition set_textContent (s : jsstr) : list node :=
  if truthy_str s then [Text s] else [].

(** What [tempDoc] answers to the two queries made on it:
    [querySelector('meta[name=category]')], as the [content] of the first
    such element, and the [textContent] of [querySelectorAll('p')] in
    document order. *)
Record Document : Type := mkDocument {
  metaCategory : option jsstr;
  paragraphs : list jsstr
}.

(** How the retrieval of one URL ends. *)
Inductive fetch_result : Type :=
| Rejects (e : error)
| Responds (status : N) (doc : Document).

(** [Response.ok]: a status in the range 200-299. *)
Definition Response_ok (status : N) : bool :=
  ((200 <=? status) && (status <=? 299))%N.

(** Console output. *)
Inductive entry : Type :=
| Warn (msg : jsstr)
| Log (msg : jsstr)
| LogList (msg : jsstr) (arg : list jsstr)
| Error (msg : jsstr)
| ErrorWith (msg : jsstr) (e : error).

(** How an awaited promise ends; [Pending] is a promise that never
    settles. *)
Inductive completion (A : Type) : Type :=
| Returned (v : A)
| Threw (e : error)
| Pending.
Arguments Returned {A} v.
Arguments Threw {A} e.
Arguments Pending {A}.

Inductive settlement (A : Type) : Type :=
| Fulfilled (v : A)
| Rejected (e : error).
Arguments Fulfilled {A} v.
Arguments Rejected {A} e.

(** The page as the script sees and changes it: the content of the first
    [<main>] element ([None] when the page has none), the console, and the
    requests issued so far. *)
Record world : Type := mkWorld {
  main : option region;
  console : list entry;
  requests : list jsstr
}.

Definition emit (e : entry) (w : world) : world :=
  mkWorld (main w) (console w ++ [e]) (requests w).

Definition emit_all (es : list entry) (w : world) : world :=
  mkWorld (main w) (console w ++ es) (requests w).

Definition request_all (urls : list jsstr) (w : world) : world :=
  mkWorld (main w) (console w) (requests w ++ urls).

(** [mainContainer.innerHTML = html]. *)
Definition set_innerHTML (html : jsstr) (w : world) : world :=
  mkWorld (Some (mkRegion html [])) (console w) (requests w).

(** [mainContainer.appendChild(child)]. *)
Definition appendChild (child : node) (w : world) : world :=
  mkWorld ((fun r => mkRegion (parsed r) (appended r ++ [child])) <$> main w)
          (console w) (requests w).

(** ** The category object

    [categories] is created by the literal [{}]: besides its own
    properties it answers for the names it inherits from
    [Object.prototype]. *)
Definition Object_prototype_keys : list jsstr :=
  map lit ["constructor"; "hasOwnProperty"; "isPrototypeOf";
           "propertyIsEnumerable"; "toLocaleString"; "toString"; "valueOf";
           "__proto__"; "__defineGetter__"; "__defineSetter__";
           "__lookupGetter__"; "__lookupSetter__"]%string.

Inductive property : Type :=
| Undefined
| Bucket (articles : list ArticleRecord)
| Inherited.   (* a function, or [Object.prototype] itself: truthy, no [push] *)

Definition get (categories : gmap jsstr (list ArticleRecord)) (k : jsstr)
  : property :=
  match categories !! k with
  | Some l => Bucket l
  | None =>
      if bool_decide (k ∈ Object_prototype_keys) then Inherited else Undefined
  end.

Definition truthy (p : property) : bool :=
  match p with Undefined => false | _ => true end.

(** The wording of the engine (V8) for a call of [undefined]. *)
Definition push_not_a_function : error :=
  TypeError (lit "categories[article.category].push is not a function").

(** [Object.keys]: the own property names. The script sorts them at once,
    and the sorted array does not depend on the enumeration order. *)
Definition Object_keys (o : gmap jsstr (list ArticleRecord)) : list jsstr :=
  (map_to_list o).*1.

(** ** [buildCategoryList] *)

Definition link (cfg : SiteConfig) (article : ArticleRecord) : node :=
  Elem "a" [("href"%string, postsDir cfg ++ filename article)]
       (set_textContent (slug article)).

Definition separator : node := Text (lit "; ").

(** [articles.forEach((article, index) => ...)], appending to [dd]. *)
Fixpoint append_links (cfg : SiteConfig) (len index : nat)
    (articles : list ArticleRecord) (dd : list node) : list node :=
  match articles with
  | [] => dd
  | article :: rest =>
      let dd := dd ++ [link cfg article] in
      let dd := if (index <? len - 1)%nat then dd ++ [separator] else dd in
      append_links cfg len (S index) rest dd
  end.

Definition term_node (category : jsstr) : node :=
  Elem "dt" [("class"%string, lit "postDt")]
       [Elem "strong" [] (set_textContent category)].

Definition description_node (cfg : SiteConfig)
    (articles : list ArticleRecord) : node :=
  Elem "dd" [("class"%string, lit "postDd")]
       (append_links cfg (length articles) 0 articles []).

(** [postMap[category]] for a name taken from [Object.keys(postMap)]. *)
Definition articles_of (postMap : gmap jsstr (list ArticleRecord))
    (category : jsstr) : list ArticleRecord :=
  default [] (postMap !! category).

Definition buildCategoryList (cfg : SiteConfig)
    (postMap : gmap jsstr (list ArticleRecord)) : node :=
  let sortedCategories := sort (Object_keys postMap) in
  Elem "dl" [("class"%string, lit "category-list")]
       (foldl (fun dl category =>
                 dl ++ [term_node category;
                        description_node cfg (articles_of postMap category)])
              [] sortedCategories).

(** The labels of the term nodes of a list, in the order of the list, and
    its description nodes. *)
Definition has_tag (t : string) (n : node) : bool :=
  match n with Elem t' _ _ => String.eqb t' t | Text _ => false end.

Definition term_labels (dl : node) : list jsstr :=
  map textContent (filter (fun n => has_tag "dt" n = true) (kids_of dl)).

Definition description_nodes (dl : node) : list node :=
  filter (fun n => has_tag "dd" n = true) (kids_of dl).

Definition is_separator (n : node) : bool :=
  match n with Text s => bool_decide (s = lit "; ") | Elem _ _ _ => false end.

Definition is_link (n : node) : bool := has_tag "a" n.

(** ** [buildHeader], [buildFooter], [createKnowledgeTable] *)

Definition buildHeader (config : SiteConfig) : node :=
  Elem "header" []
       [Elem "h1" [] (set_textContent (title config));
        Elem "p" [] (set_textContent (subtitle config));
        Elem "p" [] (set_textContent (description config))].

Definition buildFooter (config : SiteConfig) : node :=
  Elem "footer" []
       [Text ([169; 32]%N ++ copyrightYear config ++ lit " " ++ title config
              ++ lit ". All content is available under the ");
        Elem "a" [("href"%string,
                   lit "https://creativecommons.org/licenses/by-sa/4.0/")]
             [Text (lit "CC BY-SA 4.0")];
        Text (lit ". ");
        Elem "a" [("href"%string, githubUrl config)]
             [Text (lit "Source on GitHub")]].

Definition createKnowledgeTable (cfg : SiteConfig)
    (postMap : gmap jsstr (list ArticleRecord)) : node :=
  Elem "table" [("class"%string, lit "knowledge-table");
                ("rules"%string, lit "cols");
                ("cellpadding"%string, lit "10")]
       [Elem "tr" []
             [Elem "td" [("class"%string, lit "shortcuts")]
                   [Text (lit "shortcuts to do")];
              Elem "td" [("class"%string, lit "posts")]
                   [buildCategoryList cfg postMap];
              Elem "td" [("class"%string, lit "language")]
                   [Text (lit "language to do")]]].

(** ** [buildPostMap]: the callback of [htmlFiles.map] *)

Definition msg_failed (filename : jsstr) (status : N) : jsstr :=
  lit "Failed to fetch " ++ filename ++ lit ": " ++ Number_toString status.

Definition msg_auto_inject (filename category : jsstr) : jsstr :=
  lit "[Auto-inject] No <meta name=" ++ dquote ++ lit "category" ++ dquote
  ++ lit "> found in " ++ filename ++ lit ", setting category to '"
  ++ category ++ lit "'.".

(** Lines 140-147: the category and what is logged on the way. *)
Definition extract_category (filename : jsstr) (tempDoc : Document)
  : jsstr * list entry :=
  match metaCategory tempDoc with
  | Some metaContent =>
      if (0 <? length (trim metaContent))%nat
      then (trim metaContent, [])
      else (lit "others", [Log (msg_auto_inject filename (lit "others"))])
  | None => (lit "others", [Log (msg_auto_inject filename (lit "others"))])
  end.

(** Lines 152-158: [for (const p of paragraphs)] with its [break];
    [content] is the variable the loop assigns. *)
Fixpoint scan_paragraphs (paragraphs : list jsstr) (content : jsstr) : jsstr :=
  match paragraphs with
  | [] => content
  | p :: rest =>
      let text := trim p in
      if (0 <? length text)%nat then text else scan_paragraphs rest content
  end.

(** Lines 150-163. *)
Definition extract_content (filename : jsstr) (tempDoc : Document) : jsstr :=
  let content := scan_paragraphs (paragraphs tempDoc) [] in
  if negb (truthy_str content) then strip_html filename else content.

(** The record of a document that was retrieved (lines 138-167). *)
Definition parse_article (filename : jsstr) (tempDoc : Document)
  : ArticleRecord * list entry :=
  let '(category, logged) := extract_category filename tempDoc in
  let content := extract_content filename tempDoc in
  let slug := strip_html filename in
  (mkArticle filename category slug content, logged).

(** One callback, run from the moment its retrieval settles: what it
    prints and how its promise ends. [None] is the [null] of line 135. The
    two awaits of the callback ([fetch], then [res.text()]) are taken as one
    step. *)
Definition fetch_article (cfg : SiteConfig) (net : jsstr → fetch_result)
    (filename : jsstr) : list entry * settlement (option ArticleRecord) :=
  match net (postsDir cfg ++ filename) with
  | Rejects e => ([], Rejected e)
  | Responds status tempDoc =>
      if negb (Response_ok status)
      then ([Warn (msg_failed filename status)], Fulfilled None)
      else let '(article, logged) := parse_article filename tempDoc in
           (logged, Fulfilled (Some article))
  end.

(** ** [Promise.all]

    The promises settle in the order [sched] lists their indices. Each
    fulfilment is stored at the index of its promise; the first rejection
    rejects the whole; the result is delivered when every slot is filled
    (the count of remaining elements has reached zero). An index that is out
    of range or already settled is no event. A schedule that leaves a slot
    empty leaves the result pending. *)
Fixpoint settle_all {A : Type} (sched : list nat)
    (tasks : list (list entry * settlement A))
    (values : list (option A)) (printed : list entry)
  : list entry * completion (list A) :=
  match sched with
  | [] => (printed, Pending)
  | i :: sched' =>
      match tasks !! i, values !! i with
      | Some (out, s), Some None =>
          match s with
          | Rejected e => (printed ++ out, Threw e)
          | Fulfilled v =>
              let values := <[i := Some v]> values in
              match mapM id values with
              | Some vs => (printed ++ out, Returned vs)
              | None => settle_all sched' tasks values (printed ++ out)
              end
          end
      | _, _ => settle_all sched' tasks values printed
      end
  end.

Definition Promise_all {A : Type} (sched : list nat)
    (tasks : list (list entry * settlement A))
  : list entry * completion (list A) :=
  match tasks with
  | [] => ([], Returned [])
  | _ => settle_all sched tasks (replicate (length tasks) None) []
  end.

(** What the slots hold are fulfilments of the promises at their index. *)
Definition slots_ok {A : Type} (tasks : list (list entry * settlement A))
    (values : list (option A)) : Prop :=
  Forall2 (λ t ov, ∀ v, ov = Some v → t.2 = Fulfilled v) tasks values.

(** ** [buildPostMap]: grouping (lines 174-180) *)

(** The body of [validArticles.forEach]. *)
Definition group_step (categories : gmap jsstr (list ArticleRecord))
    (article : ArticleRecord) : error + gmap jsstr (list ArticleRecord) :=
  let categories :=
    if negb (truthy (get categories (category article)))
    then <[category article := []]> categories
    else categories in
  match get categories (category article) with
  | Bucket l => inr (<[category article := l ++ [article]]> categories)
  | _ => inl push_not_a_function
  end.

Fixpoint group_from (categories : gmap jsstr (list ArticleRecord))
    (validArticles : list ArticleRecord)
  : error + gmap jsstr (list ArticleRecord) :=
  match validArticles with
  | [] => inr categories
  | article :: rest =>
      match group_step categories article with
      | inl e => inl e
      | inr categories' => group_from categories' rest
      end
  end.

Definition group_by_category (validArticles : list ArticleRecord)
  : error + gmap jsstr (list ArticleRecord) :=
  group_from ∅ validArticles.

(** [articles.filter(article => article !== null)]. *)
Definition non_null (articles : list (option ArticleRecord))
  : list ArticleRecord :=
  omap id articles.

(** ** [buildPostMap] *)

Definition msg_found (n : nat) : jsstr :=
  lit "Found " ++ Number_toString (N.of_nat n) ++ lit " article(s):".

Definition buildPostMap (cfg : SiteConfig) (net : jsstr → fetch_result)
    (sched : list nat) (w : world)
  : world * completion (gmap jsstr (list ArticleRecord)) :=
  let htmlFiles := postFiles cfg in
  if (length htmlFiles =? 0)%nat
  then (emit (Warn (lit "No articles found in the posts/ directory.")) w,
        Returned ∅)
  else
    let w := emit (LogList (msg_found (length htmlFiles)) htmlFiles) w in
    let w := request_all (map (fun filename => postsDir cfg ++ filename)
                              htmlFiles) w in
    let '(printed, joined) :=
      Promise_all sched (map (fetch_article cfg net) htmlFiles) in
    let w := emit_all printed w in
    match joined with
    | Returned articles =>
        match group_by_category (non_null articles) with
        | inr categories => (w, Returned categories)
        | inl e => (w, Threw e)
        end
    | Threw e => (w, Threw e)
    | Pending => (w, Pending)
    end.

(** ** [buildAutoIndex] *)

Definition loading_markup : jsstr := lit "<p>Loading knowledge base...</p>".

Definition error_markup (e : error) : jsstr :=
  lit "<p style=" ++ dquote ++ lit "color: red;" ++ dquote
  ++ lit ">Error loading knowledge base: " ++ message e ++ lit "</p>".

(** The page when the promise of [buildAutoIndex] settles, or, when a
    retrieval hangs, the page as it stays. *)
Definition buildAutoIndex (cfg : SiteConfig) (net : jsstr → fetch_result)
    (sched : list nat) (w : world) : world :=
  match main w with
  | None => emit (Error (lit "Main container not found in index.html")) w
  | Some _ =>
      let w := set_innerHTML loading_markup w in
      match buildPostMap cfg net sched w with
      | (w, Returned postMap) =>
          let knowledgeTable := createKnowledgeTable cfg postMap in
          let w := set_innerHTML [] w in
          let header := buildHeader cfg in
          let w := appendChild header w in
          let w := appendChild knowledgeTable w in
          let footer := buildFooter cfg in
          let w := appendChild footer w in
          emit (Log (lit "Knowledge base index built successfully!")) w
      | (w, Threw e) =>
          let w := emit (ErrorWith (lit "Error building auto-index:") e) w in
          set_innerHTML (error_markup e) w
      | (w, Pending) => w
      end
  end.

(** ** Vocabulary of the statements *)

(** The record a callback delivers, if it delivers one. *)
Definition delivered (t : list entry * settlement (option ArticleRecord))
  : option ArticleRecord :=
  match t.2 with Fulfilled (Some article) => Some article | _ => None end.

(** The records of the files that were retrieved, in the order of
    [postFiles]. *)
Definition survivors (cfg : SiteConfig) (net : jsstr → fetch_result)
  : list ArticleRecord :=
  omap (fun filename => delivered (fetch_article cfg net filename))
       (postFiles cfg).

(** The same records in the order in which the retrievals settle. *)
Definition in_settlement_order (cfg : SiteConfig) (net : jsstr → fetch_result)
    (sched : list nat) : list ArticleRecord :=
  omap (fun i => postFiles cfg !! i
                 ≫= fun filename => delivered (fetch_article cfg net filename))
       sched.

(** Every retrieval settles under [sched]. *)
Definition settles_all (sched : list nat) (n : nat) : Prop :=
  ∀ i, (i < n)%nat → i ∈ sched.

(** The records of a bucket's category among [l], in the order of [l]. *)
Definition of_category (k : jsstr) (l : list ArticleRecord)
  : list ArticleRecord :=
  filter (fun article => category article = k) l.

(** [sep]-joined: [x1; sep; x2; ...; sep; xn]. *)
Fixpoint join_with {A : Type} (sep : A) (l : list A) : list A :=
  match l with
  | [] => []
  | [x] => [x]
  | x :: rest => x :: sep :: join_with sep rest
  end.

Definition links_of (ks : list node) : list node :=
  filter (fun n => is_link n = true) ks.

Definition separators_of (ks : list node) : list node :=
  filter (fun n => is_separator n = true) ks.

(** ** Sample sites *)

Definition site (files : list string) : SiteConfig :=
  mkConfig (lit "posts/") (map lit files) (lit "Notes") (lit "A knowledge base")
           (lit "Things worth keeping") (lit "https://github.com/example/site")
           (lit "2024").

Definition site_ab : SiteConfig := site ["a.html"; "b.html"]%string.
Definition site_a : SiteConfig := site ["a.html"]%string.
Definition site_c : SiteConfig := site ["c.html"]%string.
Definition site_empty : SiteConfig := site [].

Definition page_with_main : world := mkWorld (Some (mkRegion [] [])) [] [].
Definition page_without_main : world := mkWorld None [] [].

Definition doc_x_hello : Document :=
  mkDocument (Some (lit " x ")) [lit "  "; lit " Hello "; lit "World"].
Definition doc_x_bare : Document := mkDocument (Some (lit "x")) [].
Definition doc_plain : Document := mkDocument None [lit "   "].
Definition doc_constructor : Document :=
  mkDocument (Some (lit "constructor")) [lit "How objects are made"].

(** A network that answers each URL of the table with its entry and every
    other one with status 404. *)
Fixpoint serve (table : list (string * fetch_result)) (url : jsstr)
  : fetch_result :=
  match table with
  | [] => Responds 404 (mkDocument None [])
  | (u, r) :: rest => if bool_decide (url = lit u) then r else serve rest url
  end.

Definition net_both_x : jsstr → fetch_result :=
  serve [("posts/a.html", Responds 200 doc_x_hello);
         ("posts/b.html", Responds 200 doc_x_bare)]%string.

Definition net_b_missing : jsstr → fetch_result :=
  serve [("posts/a.html", Responds 200 doc_x_hello);
         ("posts/b.html", Responds 404 doc_plain)]%string.

Definition net_b_unreachable : jsstr → fetch_result :=
  serve [("posts/a.html", Responds 200 doc_x_hello);
         ("posts/b.html", Rejects (NetworkError (lit "Failed to fetch")))]%string.

Definition net_constructor : jsstr → fetch_result :=
  serve [("posts/a.html", Responds 200 doc_constructor)]%string.

Definition net_plain : jsstr → fetch_result :=
  serve [("posts/c.html", Responds 200 doc_plain)]%string.

Definition article_a : ArticleRecord :=
  mkArticle (lit "a.html") (lit "x") (lit "a") (lit "Hello").
Definition article_b : ArticleRecord :=
  mkArticle (lit "b.html") (lit "x") (lit "b") (lit "b").
Definition article_constructor : ArticleRecord :=
  mkArticle (lit "a.html") (lit "constructor") (lit "a")
            (lit "How objects are made").

Definition in_category (c f : string) : ArticleRecord :=
  mkArticle (lit f ++ lit ".html") (lit c) (lit f) (lit f).

Definition map_x : gmap jsstr (list ArticleRecord) :=
  {[ lit "x" := [article_a; article_b] ]}.

Definition map_zoo : gmap jsstr (list ArticleRecord) :=
  list_to_map [(lit "zebra", [in_category "zebra" "stripes"]);
               (lit "Alpha", [in_category "Alpha" "one"; in_category "Alpha" "two";
                              in_category "Alpha" "three"]);
               (lit "beta", [in_category "beta" "b"])].

(** The reading of the spec for a retrieval that fails: the batch goes on
    and the records of the other files reach the map. *)
Definition batch_survives (cfg : SiteConfig) (net : jsstr → fetch_result)
    (sched : list nat) (w : world) : Prop :=
  ∃ m, (buildPostMap cfg net sched w).2 = Returned m ∧
       ∀ article, article ∈ survivors cfg net →
                  article ∈ default [] (m !! category article).

(** Every bucket of [m] lists its records in the order they have in
    [order]. *)
Definition buckets_follow (order : list ArticleRecord)
    (m : gmap jsstr (list ArticleRecord)) : Prop :=
  ∀ k bucket, m !! k = Some bucket → bucket = of_category k order.

(** ** Further vocabulary *)

(** All records of a map, bucket after bucket. *)
Definition all_records (m : gmap jsstr (list ArticleRecord))
  : list ArticleRecord :=
  concat (map_to_list m).*2.

(** The strings of [l] with [sep] between them, as [Array.prototype.join]
    builds them. *)
Fixpoint join_str (sep : jsstr) (l : list jsstr) : jsstr :=
  match l with
  | [] => []
  | [x] => x
  | x :: rest => x ++ sep ++ join_str sep rest
  end.

(** What the callbacks whose slot is still empty are going to print. *)
Definition unprinted {A : Type} (tasks : list (list entry * settlement A))
    (values : list (option A)) : list entry :=
  concat (zip_with (fun t ov => match ov with None => t.1 | Some _ => [] end)
                   tasks values).

Definition net_slow : jsstr → fetch_result :=
  serve [("posts/a.html", Responds 200 doc_x_hello);
         ("posts/b.html", Responds 200 doc_plain)]%string.

End AutoIndex.

(* ===================================================================== *)
(** * [js/auto-toc.js]                                                     *)
(* ===================================================================== *)

Module AutoToc.
Import Js.

(** ** The document

    An element carries the identity [nid] of its JavaScript object, by
    which the script keeps hold of it while the tree changes around it. *)
#[warnings="-register-all"]
Inductive node : Type :=
| El (nid : nat) (tag : string) (attrs : list (string * jsstr))
     (kids : list node)
| Tx (data : jsstr).

Inductive ready : Type := loading | interactive | complete.

Inductive handler : Type := GenerateTOC.

(** [root] is the [<html>] element; [detached] holds what was removed from
    the tree and may still be referred to; [fresh] is the identity the next
    created element gets. *)
Record document : Type := mkDocument {
  readyState : ready;
  listeners : list handler;        (* of DOMContentLoaded *)
  root : node;
  detached : list node;
  fresh : nat
}.

Inductive outcome : Type :=
| Done (d : document)
| Throws (e : error)
| Exhausted.   (* the loop of [generateUniqueId] outran its bound *)

Definition CONFIG_selectors : string := "h1".
Definition CONFIG_containerId : jsstr := lit "toc-container".
Definition CONFIG_title : jsstr := lit "Table of Content".
Definition CONFIG_clearContainer : bool := true.

(** *** Reading the tree *)

Definition node_id (n : node) : option nat :=
  match n with El i _ _ _ => Some i | Tx _ => None end.

Definition node_tag (n : node) : string :=
  match n with El _ t _ _ => t | Tx _ => EmptyString end.

Definition node_kids (n : node) : list node :=
  match n with El _ _ _ ks => ks | Tx _ => [] end.

(** An attribute as its reflecting property reads it: the empty string when
    it is not set. *)
Fixpoint assoc (name : string) (attrs : list (string * jsstr)) : jsstr :=
  match attrs with
  | [] => []
  | (k, v) :: rest => if String.eqb k name then v else assoc name rest
  end.

Definition attr (name : string) (n : node) : jsstr :=
  match n with El _ _ a _ => assoc name a | Tx _ => [] end.

Fixpoint set_assoc (name : string) (v : jsstr) (attrs : list (string * jsstr))
  : list (string * jsstr) :=
  match attrs with
  | [] => [(name, v)]
  | (k, v0) :: rest =>
      if String.eqb k name then (k, v) :: rest
      else (k, v0) :: set_assoc name v rest
  end.

(** The elements below and including [n], in document order. *)
Fixpoint elements (n : node) : list node :=
  match n with
  | El _ _ _ ks => n :: flat_map elements ks
  | Tx _ => []
  end.

Fixpoint textContent (n : node) : jsstr :=
  match n with
  | El _ _ _ ks => flat_map textContent ks
  | Tx s => s
  end.

Definition is_node (i : nat) (n : node) : bool :=
  match n with El j _ _ _ => (i =? j)%nat | Tx _ => false end.

(** [document.querySelectorAll(tag)], as references. *)
Definition querySelectorAll (d : document) (sel : string) : list nat :=
  omap node_id
       (filter (fun n => String.eqb (node_tag n) sel = true) (elements (root d))).

(** [document.getElementById(id)], as a reference; [id] is not empty where
    the script calls it. *)
Definition getElementById (d : document) (id : jsstr) : option nat :=
  find (fun n => bool_decide (attr "id" n = id)) (elements (root d))
  ≫= node_id.

(** The object behind a reference, in the tree or detached from it. *)
Definition deref (d : document) (i : nat) : option node :=
  find (is_node i) (elements (root d) ++ flat_map elements (detached d)).

(** [document.body]: the first [<body>] child of the root. *)
Definition body (d : document) : option node :=
  find (fun n => String.eqb (node_tag n) "body") (node_kids (root d)).

(** *** Changing the tree *)

Fixpoint update (target : nat) (g : node → node) (n : node) : node :=
  match n with
  | El i t a ks =>
      if (i =? target)%nat then g n else El i t a (map (update target g) ks)
  | Tx s => Tx s
  end.

Definition update_doc (target : nat) (g : node → node) (d : document)
  : document :=
  mkDocument (readyState d) (listeners d) (update target g (root d))
             (map (update target g) (detached d)) (fresh d).

Definition set_attr (name : string) (v : jsstr) (n : node) : node :=
  match n with El i t a ks => El i t (set_assoc name v a) ks | Tx s => Tx s end.

Definition push_kid (k : node) (n : node) : node :=
  match n with El i t a ks => El i t a (ks ++ [k]) | Tx s => Tx s end.

Definition unshift_kid (k : node) (n : node) : node :=
  match n with El i t a ks => El i t a (k :: ks) | Tx s => Tx s end.

Definition clear_kids (n : node) : node :=
  match n with El i t a _ => El i t a [] | Tx s => Tx s end.

(** [document.createElement]: the identity of the new element and the
    document with the next identity. *)
Definition createElement (d : document) : nat * document :=
  (fresh d,
   mkDocument (readyState d) (listeners d) (root d) (detached d) (S (fresh d))).

(** [parent.appendChild(child)]. *)
Definition appendChild (parent : nat) (child : node) (d : document)
  : document :=
  update_doc parent (push_kid child) d.

(** [el.innerHTML = '']: the children leave the tree. *)
Definition clear (target : nat) (d : document) : document :=
  let removed := from_option node_kids [] (deref d target) in
  let d := update_doc target clear_kids d in
  mkDocument (readyState d) (listeners d) (root d) (detached d ++ removed)
             (fresh d).

(** ** [generateSlug] *)

Section Slug.

(** [String.prototype.toLowerCase], the case folding of the engine, is a
    parameter. *)
Variable toLowerCase : jsstr → jsstr.

(** [\w]: a letter, a digit or the underscore. *)
Definition is_word (c : N) : bool :=
  ((48 <=? c) && (c <=? 57) || (65 <=? c) && (c <=? 90)
   || (97 <=? c) && (c <=? 122) || (c =? 95))%N.

Definition hyphen : N := 45%N.

(** [replace(/[\s_]+/g, '-')]; [in_run] tells that the previous code unit
    belonged to the run being replaced. *)
Fixpoint collapse_runs (in_run : bool) (s : jsstr) : jsstr :=
  match s with
  | [] => []
  | c :: s' =>
      if is_ws c || (c =? 95)%N
      then (if in_run then collapse_runs true s'
            else hyphen :: collapse_runs true s')
      else c :: collapse_runs false s'
  end.

Fixpoint drop_hyphens (s : jsstr) : jsstr :=
  match s with
  | [] => []
  | c :: s' => if (c =? hyphen)%N then drop_hyphens s' else s
  end.

Definition generateSlug (text : jsstr) : jsstr :=
  let s := toLowerCase (trim text) in
  let s := filter (fun c => is_word c || is_ws c || (c =? hyphen)%N = true) s in
  let s := collapse_runs false s in
  rev (drop_hyphens (rev (drop_hyphens s))).

(** ** [generateUniqueId] *)

(** The template literal of line 47. *)
Definition candidate (baseSlug : jsstr) (counter : N) : jsstr :=
  baseSlug ++ lit "-" ++ Number_toString counter.

(** [fuel] bounds the iterations of the [while]. *)
Fixpoint generateUniqueId_loop (fuel : nat) (d : document) (heading : nat)
    (baseSlug id : jsstr) (counter : N) : option jsstr :=
  match fuel with
  | O => None
  | S fuel' =>
      match getElementById d id with
      | Some other =>
          if negb (other =? heading)%nat
          then generateUniqueId_loop fuel' d heading baseSlug
                 (candidate baseSlug counter) (counter + 1)%N
          else Some id
      | None => Some id
      end
  end.

Definition generateUniqueId (d : document) (heading : nat) (baseSlug : jsstr)
  : option jsstr :=
  generateUniqueId_loop (S (length (elements (root d)))) d heading baseSlug
                        baseSlug 1%N.

(** ** [getOrCreateContainer] *)

Definition null_firstChild : error :=
  TypeError (lit "Cannot read properties of null (reading 'firstChild')").

Definition getOrCreateContainer (d : document) : error + nat * document :=
  let found :=
    match getElementById d CONFIG_containerId with
    | Some container => inr (container, d)
    | None =>
        let '(container, d) := createElement d in
        let div := El container "div"
                      [("id"%string, CONFIG_containerId);
                       ("class"%string, lit "auto-toc")] [] in
        match body d with
        | Some (El b _ _ _) =>
            (* [insertBefore(container, firstChild)] on a body with
               children, [appendChild(container)] on one without *)
            inr (container, update_doc b (unshift_kid div) d)
        | _ => inl null_firstChild
        end
    end in
  match found with
  | inr (container, d) =>
      inr (container, if CONFIG_clearContainer then clear container d else d)
  | inl e => inl e
  end.

(** ** [generateTOC] *)

(** [parseInt(heading.tagName.charAt(1), 10)] inside the template literal:
    the digit, or [NaN]. *)
Definition level_text (tag : string) : jsstr :=
  match String.get 1 tag with
  | Some c =>
      let n := N_of_ascii c in
      if ((48 <=? n) && (n <=? 57))%N then [n] else lit "NaN"
  | None => lit "NaN"
  end.

(** The body of [headings.forEach]. *)
Definition toc_entry (ul : nat) (d : document) (heading : nat) : outcome :=
  match deref d heading with
  | None => Done d
  | Some h =>
      let assigned :=
        if negb (truthy_str (attr "id" h)) then
          let baseSlug := generateSlug (textContent h) in
          let baseSlug := if truthy_str baseSlug then baseSlug
                          else lit "section" in
          match generateUniqueId d heading baseSlug with
          | Some id => Some (update_doc heading (set_attr "id" id) d)
          | None => None
          end
        else Some d in
      match assigned with
      | None => Exhausted
      | Some d =>
          match deref d heading with
          | None => Done d
          | Some h =>
              let '(li, d) := createElement d in
              let '(a, d) := createElement d in
              let link :=
                El a "a" [("href"%string, lit "#" ++ attr "id" h)]
                   (let t := trim (textContent h) in
                    if truthy_str t then [Tx t] else []) in
              let item :=
                El li "li"
                   [("class"%string, lit "toc-level-" ++ level_text (node_tag h))]
                   [link] in
              Done (appendChild ul item d)
          end
      end
  end.

Fixpoint toc_entries (ul : nat) (d : document) (headings : list nat)
  : outcome :=
  match headings with
  | [] => Done d
  | heading :: rest =>
      match toc_entry ul d heading with
      | Done d => toc_entries ul d rest
      | stop => stop
      end
  end.

Definition add_listener (h : handler) (d : document) : document :=
  mkDocument (readyState d) (listeners d ++ [h]) (root d) (detached d) (fresh d).

Definition generateTOC (d : document) : outcome :=
  match readyState d with
  | loading => Done (add_listener GenerateTOC d)
  | _ =>
      let headings := querySelectorAll d CONFIG_selectors in
      if (length headings =? 0)%nat then Done d
      else
        match getOrCreateContainer d with
        | inl e => Throws e
        | inr (container, d) =>
            let '(titleEl, d) := createElement d in
            let d := appendChild container
                       (El titleEl "h2" [("class"%string, lit "toc-title")]
                           [Tx CONFIG_title]) d in
            let '(ul, d) := createElement d in
            let d := appendChild container (El ul "ul" [] []) d in
            toc_entries ul d headings
        end
  end.

(** The event [DOMContentLoaded]: the parser is done, the document is
    [interactive], and the listeners run in the order they were added. *)
Definition run_handler (h : handler) (d : document) : outcome :=
  match h with GenerateTOC => generateTOC d end.

Fixpoint run_handlers (hs : list handler) (d : document) : outcome :=
  match hs with
  | [] => Done d
  | h :: rest =>
      match run_handler h d with
      | Done d => run_handlers rest d
      | stop => stop
      end
  end.

Definition DOMContentLoaded (d : document) : outcome :=
  run_handlers (listeners d)
    (mkDocument interactive (listeners d) (root d) (detached d) (fresh d)).

End Slug.

(** What a run leaves of the tree: the elements, what was detached and the
    identities handed out. *)
Definition same_tree (d d' : document) : Prop :=
  root d' = root d ∧ detached d' = detached d ∧ fresh d' = fresh d.

(** ** Sample pages *)

(** Case folding of the ASCII letters, for the samples. *)
Definition ascii_lower (s : jsstr) : jsstr :=
  map (fun c => if ((65 <=? c) && (c <=? 90))%N then (c + 32)%N else c) s.

Definition page (state : ready) (content : list node) : document :=
  mkDocument state []
    (El 0 "html" [] [El 1 "head" [] []; El 2 "body" [] content]) [] 100.

Definition prose : list node :=
  [El 3 "p" [] [Tx (lit "No headings here.")];
   El 4 "h2" [] [Tx (lit "Not a top-level heading")]].

Definition chapters : list node :=
  [El 3 "h1" [] [Tx (lit "  Getting Started! ")];
   El 4 "p" [("id"%string, lit "getting-started")] [Tx (lit "text")];
   El 5 "h1" [("id"%string, lit "own")] [Tx (lit "Named")];
   El 6 "h1" [] [Tx (lit "***")]].

(** ** Further vocabulary *)

(** An ASCII letter or digit: [\w] without the underscore. *)
Definition is_alnum (c : N) : bool := is_word c && negb (c =? 95)%N.

(** [id] is held by an element other than [heading]. *)
Definition taken (d : document) (heading : nat) (id : jsstr) : Prop :=
  ∃ other, getElementById d id = Some other ∧ other ≠ heading.

(** The identities of the elements of a tree, in document order. *)
Fixpoint ids (n : node) : list nat :=
  match n with
  | El i _ _ ks => i :: flat_map ids ks
  | Tx _ => []
  end.

Definition all_ids (d : document) : list nat :=
  flat_map ids (root d :: detached d).

(** What is true of the documents of a browser: an object is one element,
    and [createElement] makes a new one. *)
Definition well_formed (d : document) : Prop :=
  NoDup (all_ids d) ∧ Forall (fun i => (i < fresh d)%nat) (all_ids d).

(** The three changes the script makes to an element it holds, in one
    form: the attributes become [ga attrs], the children gain [pre] in
    front and [post] behind. *)
Definition grow (ga : list (string * jsstr) → list (string * jsstr))
    (pre post : list node) (n : node) : node :=
  match n with
  | El i t a ks => El i t (ga a) (pre ++ ks ++ post)
  | Tx s => Tx s
  end.

(** The element that [getOrCreateContainer] creates. *)
Definition container_div (c : nat) : node :=
  El c "div" [("id"%string, CONFIG_containerId);
              ("class"%string, lit "auto-toc")] [].

(** The entry that [generateTOC] makes for a heading (lines 173-183). *)
Definition toc_item (li a : nat) (h : node) : node :=
  El li "li" [("class"%string, lit "toc-level-" ++ level_text (node_tag h))]
     [El a "a" [("href"%string, lit "#" ++ attr "id" h)]
         (let t := trim (textContent h) in
          if truthy_str t then [Tx t] else [])].

(** Two objects that agree in what a change of their descendants leaves
    alone: identity, tag and id. *)
Definition same_shell (y y' : node) : Prop :=
  node_id y' = node_id y ∧ node_tag y' = node_tag y ∧
  attr "id" y' = attr "id" y.

(** What the run keeps of an object: identity and tag, and the id once it
    is not empty. *)
Definition kept (y y' : node) : Prop :=
  node_id y' = node_id y ∧ node_tag y' = node_tag y ∧
  (attr "id" y ≠ [] → attr "id" y' = attr "id" y).

(** The test of [getElementById]. *)
Definition has_id (name : jsstr) (n : node) : bool :=
  bool_decide (attr "id" n = name).

(** The title that [generateTOC] puts into the container (lines 151-154). *)
Definition toc_title (t : nat) : node :=
  El t "h2" [("class"%string, lit "toc-title")] [Tx CONFIG_title].

(** Every object of [d] is an object of [d'], as [kept] has it. *)
Definition keeps (d d' : document) : Prop :=
  ∀ x y, deref d x = Some y → ∃ y', deref d' x = Some y' ∧ kept y y'.

(** [item] is the entry made for the heading [h] on the way from [d] to
    [d']: it was made from a state [n] of the heading that has the tag and
    the id the heading has in [d'], and the text it had in [d] unless the
    heading holds the list [ul]. *)
Definition entry_of (d d' : document) (ul h : nat) (item : node) : Prop :=
  ∃ li a n hn, item = toc_item li a n ∧ deref d' h = Some hn ∧
               node_tag n = node_tag hn ∧ attr "id" n = attr "id" hn ∧
               attr "id" hn ≠ [] ∧
               (∀ h0, deref d h = Some h0 → ul ∉ ids h0 →
                      textContent n = textContent h0).

(** The entry of a top-level heading [h] as the page shows it after the
    run from [d] to [d'] with the container [c]. *)
Definition listed (d d' : document) (c h : nat) (item : node) : Prop :=
  ∃ li a hn text,
    item = El li "li" [("class"%string, lit "toc-level-1")]
              [El a "a" [("href"%string, lit "#" ++ attr "id" hn)] text] ∧
    deref d' h = Some hn ∧ attr "id" hn ≠ [] ∧
    (∀ h0, deref d h = Some h0 → c ∉ ids h0 →
           (∀ b t a' ks, body d = Some (El b t a' ks) → b ∉ ids h0) →
           textContent item = trim (textContent h0)).

(** The object [x] went from [y], without an id, to [y'], with one: it is
    one of the headings, and in the tree of [d'] it is what its id leads
    to. *)
Definition id_set (d' : document) (headings : list nat) (x : nat)
    (y y' : node) : Prop :=
  x ∈ headings ∧ attr "id" y = [] ∧ attr "id" y' ≠ [] ∧
  (x ∈ ids (root d') → getElementById d' (attr "id" y') = Some x).

End AutoToc.

(* ===================================================================== *)
(** * Facts about the runtime fragment                                     *)
(* ===================================================================== *)

Module JsFacts.
Import Js.

(** ** The default sort order is a total order on strings *)

Lemma str_compare_refl a : str_compare a a = Eq.
Proof.
  induction a as [|x a IH]; simpl; [done|].
  by rewrite N.compare_refl.
Qed.

Lemma str_compare_eq a b : str_compare a b = Eq → a = b.
Proof.
  revert b; induction a as [|x a IH]; intros [|y b]; simpl; try done.
  destruct (N.compare x y) eqn:E; try done.
  apply N.compare_eq in E as ->. intros H. by rewrite (IH _ H).
Qed.

Lemma str_compare_antisym a b : str_compare b a = CompOpp (str_compare a b).
Proof.
  revert b; induction a as [|x a IH]; intros [|y b]; simpl; try done.
  rewrite (N.compare_antisym x y).
  destruct (N.compare x y); simpl; auto.
Qed.

Lemma str_compare_lt_trans a b c :
  str_compare a b = Lt → str_compare b c = Lt → str_compare a c = Lt.
Proof.
  revert b c; induction a as [|x a IH]; intros [|y b] [|z c]; simpl; try done.
  destruct (N.compare x y) eqn:Exy; try done;
    destruct (N.compare y z) eqn:Eyz; try done; intros H1 H2.
  - apply N.compare_eq in Exy as ->. apply N.compare_eq in Eyz as ->.
    rewrite N.compare_refl. eauto.
  - apply N.compare_eq in Exy as ->. by rewrite Eyz.
  - apply N.compare_eq in Eyz as <-. by rewrite Exy.
  - rewrite N.compare_lt_iff in Exy, Eyz.
    assert (x < z)%N as Hxz by lia.
    apply N.compare_lt_iff in Hxz. by rewrite Hxz.
Qed.

#[export] Instance str_le_total : Total str_le.
Proof.
  intros a b. unfold str_le. rewrite (str_compare_antisym a b).
  destruct (str_compare a b); simpl; auto.
Qed.

#[export] Instance str_le_trans : Transitive str_le.
Proof.
  intros a b c. unfold str_le. intros Hab Hbc.
  destruct (str_compare a b) eqn:Eab; [| |done].
  - apply str_compare_eq in Eab as ->. done.
  - destruct (str_compare b c) eqn:Ebc; [| |done].
    + apply str_compare_eq in Ebc as <-. by rewrite Eab.
    + by rewrite (str_compare_lt_trans a b c).
Qed.

#[export] Instance str_le_antisym : AntiSymm (=) str_le.
Proof.
  intros a b. unfold str_le. rewrite (str_compare_antisym a b).
  destruct (str_compare a b) eqn:E; simpl; try done.
  intros _ _. by apply str_compare_eq.
Qed.

(** The sorted array is sorted and holds the same strings. *)
Lemma sort_sorted l : StronglySorted str_le (sort l).
Proof. apply (StronglySorted_merge_sort str_le). Qed.

Lemma sort_permutation l : sort l ≡ₚ l.
Proof. apply (merge_sort_Permutation str_le). Qed.

(** Whatever the algorithm and the order of the input: a sorted arrangement
    of the same strings is the one [sort] returns. *)
Lemma sort_unique l l' : l' ≡ₚ l → Sorted str_le l' → l' = sort l.
Proof.
  intros Hp Hs. apply (Sorted_unique str_le); [done| |].
  - apply (Sorted_merge_sort str_le).
  - by rewrite Hp, sort_permutation.
Qed.

(** An upper-case ASCII letter comes before a lower-case one. *)
Lemma upper_before_lower (c1 c2 : N) (r1 r2 : jsstr) :
  (65 ≤ c1 ≤ 90)%N → (97 ≤ c2 ≤ 122)%N →
  str_compare (c1 :: r1) (c2 :: r2) = Lt.
Proof.
  intros H1 H2. simpl.
  assert (c1 < c2)%N as H by lia.
  apply N.compare_lt_iff in H. by rewrite H.
Qed.

(** ** [trim] *)

Lemma trimStart_nil_iff s : trimStart s = [] ↔ Forall (λ c, is_ws c = true) s.
Proof.
  induction s as [|c s IH]; simpl.
  - split; [constructor | done].
  - destruct (is_ws c) eqn:E.
    + rewrite IH. split; [by constructor | by inversion 1].
    + split; [done | inversion 1; congruence].
Qed.

Lemma trimStart_head s c s' : trimStart s = c :: s' → is_ws c = false.
Proof.
  induction s as [|x s IH]; simpl; [done|].
  destruct (is_ws x) eqn:E; [done|]. by intros [= <- <-].
Qed.

(** A string is trimmed to the empty string exactly when it consists of
    white space. *)
Lemma trim_nil_iff s : trim s = [] ↔ Forall (λ c, is_ws c = true) s.
Proof.
  unfold trim, trimEnd. rewrite <- trimStart_nil_iff. split.
  - intros H. apply (f_equal (@rev N)) in H. rewrite rev_involutive in H.
    simpl in H. apply trimStart_nil_iff in H.
    destruct (trimStart s) as [|c t] eqn:E; [done|].
    exfalso. pose proof (trimStart_head _ _ _ E) as Hc.
    rewrite Forall_forall in H. specialize (H c).
    rewrite Hc in H. apply Bool.diff_false_true, H.
    apply list_elem_of_In. apply -> in_rev. simpl. by left.
  - intros ->. done.
Qed.

(** ** [replace(/\.html$/, '')] *)

Lemma strip_html_suffix s : strip_html (s ++ lit ".html") = s.
Proof.
  unfold strip_html, ends_with.
  rewrite length_app. simpl length.
  replace (length s + 5 - 5)%nat with (length s) by lia.
  rewrite drop_app_length, take_app_length.
  by rewrite bool_decide_eq_true_2.
Qed.

Lemma strip_html_other s :
  (∀ s', s ≠ s' ++ lit ".html") → strip_html s = s.
Proof.
  intros H. unfold strip_html, ends_with.
  case_bool_decide as E; [|done].
  exfalso. apply (H (take (length s - 5) s)).
  simpl length in E. rewrite <- E. by rewrite take_drop.
Qed.

(** ** Printing numbers *)

Lemma lit_inj s1 s2 : lit s1 = lit s2 → s1 = s2.
Proof.
  revert s2. induction s1 as [|a s1 IH]; intros [|b s2]; simpl; try done.
  intros [= Hab Hs]. f_equal; [|by apply IH].
  by rewrite <- (ascii_N_embedding a), <- (ascii_N_embedding b), Hab.
Qed.

Lemma to_uint_nonnil n : N.to_uint n ≠ Decimal.Nil.
Proof.
  rewrite <- (DecimalN.Unsigned.of_to n), DecimalN.Unsigned.to_of.
  apply unorm_nonnil.
Qed.

(** Different numbers print differently. *)
Lemma Number_toString_inj n n' :
  Number_toString n = Number_toString n' → n = n'.
Proof.
  unfold Number_toString. intros H%lit_inj.
  apply DecimalN.Unsigned.to_uint_inj.
  pose proof (NilZero.usu _ (to_uint_nonnil n)) as E.
  rewrite H, (NilZero.usu _ (to_uint_nonnil n')) in E. by injection E.
Qed.

End JsFacts.

(* ===================================================================== *)
(** * Properties of [js/auto-index.js]                                     *)
(* ===================================================================== *)

Module AutoIndexSpec.
Import Js JsFacts AutoIndex.

(** ** [Promise.all] delivers the values in the order of the promises *)

Section PromiseAll.
Context {A : Type}.
Implicit Types (tasks : list (list entry * settlement A)).
Implicit Types (values : list (option A)).

Lemma slots_ok_init tasks : slots_ok tasks (replicate (length tasks) None).
Proof.
  unfold slots_ok. induction tasks as [|t tasks IH]; simpl; constructor; auto.
  intros v [=].
Qed.

Lemma slots_ok_insert tasks values i out v :
  slots_ok tasks values → tasks !! i = Some (out, Fulfilled v) →
  slots_ok tasks (<[i := Some v]> values).
Proof.
  unfold slots_ok. intros H Ht.
  rewrite <- (list_insert_id tasks i _ Ht).
  apply Forall2_insert; [done|]. by intros v' [= ->].
Qed.

Lemma slots_ok_full tasks values vs :
  slots_ok tasks values → mapM id values = Some vs →
  Forall2 (λ t v, t.2 = Fulfilled v) tasks vs.
Proof.
  intros H Hm. apply mapM_Some_1 in Hm.
  revert vs Hm. induction H as [|t ov tasks values Ht _ IH]; intros vs Hm.
  - inversion Hm. constructor.
  - inversion Hm as [|? v ? vs' Hv Hvs]; subst. constructor; auto.
Qed.

Lemma settle_all_returned sched tasks values printed out vs :
  slots_ok tasks values →
  settle_all sched tasks values printed = (out, Returned vs) →
  Forall2 (λ t v, t.2 = Fulfilled v) tasks vs.
Proof.
  revert values printed.
  induction sched as [|i sched IH]; intros values printed Hok; simpl; [done|].
  destruct (tasks !! i) as [[o s]|] eqn:Et; [|by apply IH].
  destruct (values !! i) as [[v0|]|] eqn:Ev; [by apply IH| |by apply IH].
  destruct s as [v|e]; [|done].
  destruct (mapM id (<[i:=Some v]> values)) as [vs'|] eqn:Em.
  - intros [= <- <-]. eapply slots_ok_full; [|done].
    by eapply slots_ok_insert.
  - apply IH. by eapply slots_ok_insert.
Qed.

(** Under a schedule that settles every promise, and without a rejection,
    the result is delivered. *)
Lemma settle_all_delivers sched tasks values printed :
  length values = length tasks →
  Forall (λ t, ∀ e, t.2 ≠ Rejected e) tasks →
  (∀ i, values !! i = Some None → i ∈ sched) →
  (∃ i, values !! i = Some None) →
  ∃ out vs, settle_all sched tasks values printed = (out, Returned vs).
Proof.
  intros Hlen Hrej. revert values printed Hlen.
  induction sched as [|i sched IH]; intros values printed Hlen Hin Hex.
  { destruct Hex as [i Hi]. specialize (Hin i Hi). by apply elem_of_nil in Hin. }
  simpl.
  destruct (values !! i) as [[v0|]|] eqn:Ev.
  - assert (∀ j, values !! j = Some None → j ∈ sched) as Hin'.
    { intros j Hj. specialize (Hin j Hj).
      apply elem_of_cons in Hin as [->|]; [congruence|done]. }
    destruct (tasks !! i) as [[o s]|]; by apply IH.
  - destruct (tasks !! i) as [[o s]|] eqn:Et.
    2:{ apply lookup_ge_None in Et. apply lookup_lt_Some in Ev. lia. }
    destruct s as [v|e].
    2:{ rewrite Forall_forall in Hrej.
        exfalso. apply (Hrej (o, Rejected e)) with e; [|done].
        by eapply list_elem_of_lookup_2. }
    destruct (mapM id (<[i:=Some v]> values)) as [vs|] eqn:Em; [by eauto|].
    apply IH.
    + by rewrite length_insert.
    + intros j Hj. destruct (decide (i = j)) as [->|Hne].
      * rewrite list_lookup_insert_eq in Hj; [done|].
        by eapply lookup_lt_Some.
      * rewrite list_lookup_insert_ne in Hj by done.
        specialize (Hin j Hj). apply elem_of_cons in Hin as [->|]; done.
    + destruct (decide (Forall (λ ov : option A, is_Some (id ov))
                               (<[i:=Some v]> values))) as [Hall|Hnot].
      * apply mapM_is_Some in Hall. rewrite Em in Hall. by destruct Hall.
      * apply not_Forall_Exists in Hnot; [|apply _].
        apply Exists_exists in Hnot as (ov & Hel & Hov).
        apply list_elem_of_lookup in Hel as [j Hj].
        exists j. rewrite Hj. f_equal.
        destruct ov; [|done]. exfalso. apply Hov. by eexists.
  - assert (∀ j, values !! j = Some None → j ∈ sched) as Hin'.
    { intros j Hj. specialize (Hin j Hj).
      apply elem_of_cons in Hin as [->|]; [congruence|done]. }
    destruct (tasks !! i) as [[o s]|]; by apply IH.
Qed.

(** What was printed stays printed. *)
Lemma settle_all_keeps sched tasks values printed out r x :
  settle_all sched tasks values printed = (out, r) → x ∈ printed → x ∈ out.
Proof.
  revert values printed.
  induction sched as [|i sched IH]; intros values printed; simpl.
  { by intros [= <- <-]. }
  destruct (tasks !! i) as [[o s]|] eqn:Et; [|by apply IH].
  destruct (values !! i) as [[v0|]|] eqn:Ev; [by apply IH| |by apply IH].
  destruct s as [v|e].
  - destruct (mapM id (<[i:=Some v]> values)) as [vs'|] eqn:Em.
    + intros [= <- <-] Hx. apply elem_of_app; auto.
    + intros H Hx. eapply IH; [done|]. apply elem_of_app; auto.
  - intros [= <- <-] Hx. apply elem_of_app; auto.
Qed.

(** When the result is delivered, every callback that had not run before
    has printed what it prints. *)
Lemma settle_all_prints sched tasks values printed out vs i o s x :
  settle_all sched tasks values printed = (out, Returned vs) →
  tasks !! i = Some (o, s) → values !! i = Some None → x ∈ o → x ∈ out.
Proof.
  revert values printed.
  induction sched as [|j sched IH]; intros values printed; simpl; [done|].
  destruct (tasks !! j) as [[o' s']|] eqn:Et; [|by apply IH].
  destruct (values !! j) as [[v0|]|] eqn:Ev; [by apply IH| |by apply IH].
  destruct s' as [v|e]; [|done].
  destruct (decide (j = i)) as [->|Hne].
  - intros H Hi _ Hx. rewrite Et in Hi. simplify_eq.
    destruct (mapM id (<[i:=Some v]> values)) as [vs'|] eqn:Em.
    + injection H as <- <-. apply elem_of_app; auto.
    + eapply settle_all_keeps; [done|]. apply elem_of_app; auto.
  - destruct (mapM id (<[j:=Some v]> values)) as [vs'|] eqn:Em.
    + intros _ _ Hi _. exfalso.
      apply mapM_Some_1 in Em.
      assert (<[j:=Some v]> values !! i = Some None) as Hi'
        by by rewrite list_lookup_insert_ne.
      destruct (Forall2_lookup_l _ _ _ _ _ Em Hi') as (y & _ & Hy).
      discriminate Hy.
    + intros H Hi Hv Hx. eapply IH; [done..| |done].
      by rewrite list_lookup_insert_ne.
Qed.

(** The first rejection, in the order of settlement, rejects the whole. *)
Lemma settle_all_rejects sched tasks values printed i o e :
  tasks !! i = Some (o, Rejected e) → slots_ok tasks values →
  (∀ j, values !! j = Some None → j ∈ sched) →
  ∃ out e', settle_all sched tasks values printed = (out, Threw e').
Proof.
  intros Hi.
  assert (∀ vals, slots_ok tasks vals → vals !! i = Some None) as Hopen.
  { intros vals Hok.
    destruct (Forall2_lookup_l _ _ _ _ _ Hok Hi) as (ov & Hov & Hv).
    destruct ov as [v|]; [|done]. by specialize (Hv v eq_refl). }
  revert values printed.
  induction sched as [|j sched IH]; intros values printed Hok Hin.
  { specialize (Hin i (Hopen _ Hok)). by apply elem_of_nil in Hin. }
  assert (values !! j ≠ Some None →
          ∀ k, values !! k = Some None → k ∈ sched) as Hin'.
  { intros Hj k Hk. specialize (Hin k Hk).
    apply elem_of_cons in Hin as [->|]; [congruence|done]. }
  simpl.
  destruct (tasks !! j) as [[o' s']|] eqn:Et.
  2:{ apply IH; [done|]. apply Hin'. intros Hj.
      apply lookup_ge_None in Et. apply lookup_lt_Some in Hj.
      apply Forall2_length in Hok. lia. }
  destruct (values !! j) as [[v0|]|] eqn:Ev; [apply IH; auto; by apply Hin'| |
                                             apply IH; auto; by apply Hin'].
  destruct s' as [v|e']; [|by eauto].
  assert (slots_ok tasks (<[j:=Some v]> values)) as Hok'
    by by eapply slots_ok_insert.
  destruct (mapM id (<[j:=Some v]> values)) as [vs|] eqn:Em.
  - exfalso. apply mapM_Some_1 in Em.
    destruct (Forall2_lookup_l _ _ _ _ _ Em (Hopen _ Hok')) as (y & _ & Hy).
    discriminate Hy.
  - apply IH; [done|]. intros k Hk.
    destruct (decide (j = k)) as [->|Hne].
    + rewrite list_lookup_insert_eq in Hk; [done|]. by eapply lookup_lt_Some.
    + rewrite list_lookup_insert_ne in Hk by done.
      specialize (Hin k Hk). apply elem_of_cons in Hin as [->|]; done.
Qed.

Lemma Promise_all_returned sched tasks out vs :
  Promise_all sched tasks = (out, Returned vs) →
  Forall2 (λ t v, t.2 = Fulfilled v) tasks vs.
Proof.
  unfold Promise_all. destruct tasks as [|t tasks].
  - intros [= <- <-]. constructor.
  - apply settle_all_returned, slots_ok_init.
Qed.

Lemma open_slot (n i : nat) :
  replicate n (@None A) !! i = Some None ↔ (i < n)%nat.
Proof. rewrite lookup_replicate. tauto. Qed.

Lemma Promise_all_delivers sched tasks :
  settles_all sched (length tasks) →
  Forall (λ t, ∀ e, t.2 ≠ Rejected e) tasks →
  ∃ out vs, Promise_all sched tasks = (out, Returned vs).
Proof.
  intros Hs Hrej. unfold Promise_all. destruct tasks as [|t tasks]; [by eauto|].
  apply settle_all_delivers; [by rewrite length_replicate|done| |].
  - intros i Hi. apply Hs. by apply open_slot.
  - exists 0%nat. done.
Qed.

Lemma Promise_all_prints sched tasks out vs t x :
  Promise_all sched tasks = (out, Returned vs) → t ∈ tasks → x ∈ t.1 → x ∈ out.
Proof.
  unfold Promise_all. intros H Ht Hx.
  destruct tasks as [|t0 tasks]; [by apply elem_of_nil in Ht|].
  apply list_elem_of_lookup in Ht as [i Hi].
  destruct t as [o s]. eapply settle_all_prints; [done..| |done].
  apply open_slot. by eapply lookup_lt_Some.
Qed.

Lemma Promise_all_rejects sched tasks o e :
  settles_all sched (length tasks) → (o, Rejected e) ∈ tasks →
  ∃ out e', Promise_all sched tasks = (out, Threw e').
Proof.
  intros Hs Ht. unfold Promise_all.
  destruct tasks as [|t0 tasks]; [by apply elem_of_nil in Ht|].
  apply list_elem_of_lookup in Ht as [i Hi].
  eapply settle_all_rejects; [done|apply slots_ok_init|].
  intros j Hj. apply Hs. by apply open_slot.
Qed.

End PromiseAll.

(** ** Grouping *)

Lemma group_step_inr m article m' :
  group_step m article = inr m' →
  m' = <[category article := default [] (m !! category article) ++ [article]]> m.
Proof.
  unfold group_step, get.
  destruct (m !! category article) as [l|] eqn:E; simpl.
  - rewrite E. by intros [= <-].
  - case_bool_decide; simpl.
    + by rewrite E.
    + rewrite lookup_insert_eq. intros [= <-]. by rewrite insert_insert_eq.
Qed.

Lemma group_step_ok m article :
  category article ∉ Object_prototype_keys →
  group_step m article
  = inr (<[category article := default [] (m !! category article) ++ [article]]> m).
Proof.
  intros Hk. unfold group_step, get.
  destruct (m !! category article) as [l|] eqn:E; simpl.
  - by rewrite E.
  - case_bool_decide; [done|]. simpl.
    rewrite lookup_insert_eq. by rewrite insert_insert_eq.
Qed.

(** A category that names an inherited property and has no bucket yet: no
    bucket is made, and the call of [push] throws. *)
Lemma group_step_inherited m article :
  m !! category article = None → category article ∈ Object_prototype_keys →
  group_step m article = inl push_not_a_function.
Proof.
  intros E Hk. unfold group_step, get. rewrite E.
  case_bool_decide; [|done]. simpl. by rewrite E.
Qed.

Lemma of_category_cons k article l :
  of_category k (article :: l)
  = if decide (category article = k) then article :: of_category k l
    else of_category k l.
Proof. unfold of_category. by rewrite filter_cons. Qed.

Lemma group_from_inr m0 l m :
  group_from m0 l = inr m →
  ∀ k, m !! k = if decide (of_category k l = []) then m0 !! k
               else Some (default [] (m0 !! k) ++ of_category k l).
Proof.
  revert m0. induction l as [|article l IH]; intros m0; simpl.
  - intros [= <-] k. done.
  - destruct (group_step m0 article) as [e|m1] eqn:Es; [done|].
    apply group_step_inr in Es as ->. intros H k.
    rewrite (IH _ H k), of_category_cons.
    destruct (decide (category article = k)) as [<-|Hne].
    + rewrite lookup_insert_eq. simpl.
      destruct (decide (of_category (category article) l = [])) as [->|_].
      * done.
      * by rewrite <- app_assoc.
    + by rewrite lookup_insert_ne.
Qed.

Lemma group_from_ok m0 l :
  Forall (λ article, category article ∉ Object_prototype_keys) l →
  ∃ m, group_from m0 l = inr m.
Proof.
  intros H. revert m0.
  induction H as [|article l Hk _ IH]; intros m0; simpl; [by eauto|].
  rewrite group_step_ok by done. apply IH.
Qed.

(** The buckets of the returned object: one for each category that occurs,
    holding the records of that category in the order of the input. *)
Lemma group_by_category_lookup l m k bucket :
  group_by_category l = inr m →
  m !! k = Some bucket ↔ bucket = of_category k l ∧ bucket ≠ [].
Proof.
  intros H. rewrite (group_from_inr _ _ _ H k), lookup_empty. simpl.
  destruct (decide (of_category k l = [])) as [E|E].
  - split; [done|]. intros [-> ?]. done.
  - split; [by intros [= <-]|]. by intros [-> _].
Qed.

(** ** What [buildPostMap] returns *)

Lemma non_null_delivered (f : jsstr → list entry * settlement (option ArticleRecord))
    files vs :
  Forall2 (λ t v, t.2 = Fulfilled v) (map f files) vs →
  non_null vs = omap (λ filename, delivered (f filename)) files.
Proof.
  revert vs. induction files as [|x files IH]; intros vs H; simpl in *.
  - by inversion H.
  - inversion H as [|? v ? vs' Hv Hvs]; subst.
    pose proof (IH _ Hvs) as E.
    unfold non_null in *. simpl. unfold delivered at 1. rewrite Hv.
    destruct v as [article|]; simpl; [f_equal|]; exact E.
Qed.

(** Whenever [buildPostMap] returns, it returns the grouping of the
    retrieved records taken in the order of [postFiles]. *)
Lemma buildPostMap_returned cfg net sched w m :
  (buildPostMap cfg net sched w).2 = Returned m →
  group_by_category (survivors cfg net) = inr m.
Proof.
  unfold buildPostMap, survivors.
  destruct (postFiles cfg) as [|f files] eqn:Ef.
  { simpl. by intros [= <-]. }
  cbn [length Nat.eqb].
  destruct (Promise_all sched _) as [out joined] eqn:Ep.
  destruct joined as [articles|e|]; [|done..].
  apply Promise_all_returned in Ep.
  rewrite (non_null_delivered _ _ _ Ep).
  destruct (group_by_category _) as [e|m']; simpl; [done|]. by intros [= <-].
Qed.

Lemma fetch_article_rejected cfg net filename out e :
  fetch_article cfg net filename = (out, Rejected e) →
  net (postsDir cfg ++ filename) = Rejects e.
Proof.
  unfold fetch_article.
  destruct (net _) as [e'|status doc]; [by intros [= _ <-]|].
  destruct (negb _); [done|]. by destruct (parse_article _ _).
Qed.

(** Under a schedule that settles every retrieval, and when no retrieval
    is rejected, [buildPostMap] ends as the grouping does. *)
Lemma buildPostMap_settled cfg net sched w :
  settles_all sched (length (postFiles cfg)) →
  (∀ f e, f ∈ postFiles cfg → net (postsDir cfg ++ f) ≠ Rejects e) →
  (buildPostMap cfg net sched w).2
  = match group_by_category (survivors cfg net) with
    | inr m => Returned m
    | inl e => Threw e
    end.
Proof.
  intros Hs Hnet. unfold buildPostMap, survivors.
  destruct (postFiles cfg) as [|f files] eqn:Ef; [done|].
  cbn [length Nat.eqb].
  destruct (Promise_all_delivers (A:=option ArticleRecord) sched
              (map (fetch_article cfg net) (f :: files))) as (out & vs & Ep).
  - by rewrite length_map.
  - apply Forall_forall. intros [o s] Ht e He. simpl in He. subst s.
    apply list_elem_of_fmap in Ht as (f' & Hf' & Hin).
    symmetry in Hf'. apply fetch_article_rejected in Hf'.
    by apply (Hnet f' e).
  - rewrite Ep. apply Promise_all_returned in Ep.
    rewrite (non_null_delivered _ _ _ Ep).
    by destruct (group_by_category _).
Qed.

(** Whenever [buildPostMap] returns, every callback has printed its
    lines. *)
Lemma buildPostMap_printed cfg net sched w m filename x :
  (buildPostMap cfg net sched w).2 = Returned m →
  filename ∈ postFiles cfg → x ∈ (fetch_article cfg net filename).1 →
  x ∈ console (buildPostMap cfg net sched w).1.
Proof.
  unfold buildPostMap.
  destruct (postFiles cfg) as [|f files] eqn:Ef.
  { intros _ H. by apply elem_of_nil in H. }
  cbn [length Nat.eqb].
  destruct (Promise_all sched _) as [out joined] eqn:Ep.
  destruct joined as [articles|e|]; [|done..].
  intros _ Hf Hx.
  assert (x ∈ out) as Hout.
  { eapply Promise_all_prints; [done| |done].
    apply list_elem_of_fmap. eauto. }
  destruct (group_by_category _); simpl; apply elem_of_app; auto.
Qed.

(** The records that were retrieved, one by one. *)
Lemma elem_of_survivors cfg net article :
  article ∈ survivors cfg net ↔
  ∃ filename status doc,
    filename ∈ postFiles cfg ∧
    net (postsDir cfg ++ filename) = Responds status doc ∧
    Response_ok status = true ∧
    article = (parse_article filename doc).1.
Proof.
  unfold survivors. rewrite list_elem_of_omap. split.
  - intros (f & Hf & Hd). unfold delivered, fetch_article in Hd.
    destruct (net (postsDir cfg ++ f)) as [e|status doc] eqn:En; [done|].
    destruct (Response_ok status) eqn:Eok; simpl in Hd; [|done].
    destruct (parse_article f doc) as [a logged] eqn:Ea. simpl in Hd.
    injection Hd as <-. exists f, status, doc. by rewrite Ea.
  - intros (f & status & doc & Hf & En & Eok & ->).
    exists f. split; [done|]. unfold delivered, fetch_article.
    rewrite En, Eok. simpl. by destruct (parse_article f doc).
Qed.

Lemma parse_article_filename filename doc :
  AutoIndex.filename (parse_article filename doc).1 = filename.
Proof. unfold parse_article. by destruct (extract_category _ _). Qed.

(** ** Extraction (lines 140-167) *)

Lemma truthy_str_false s : truthy_str s = false ↔ s = [].
Proof. unfold truthy_str. destruct s; simpl; split; done. Qed.

Lemma nonempty_test (s : jsstr) : (0 <? length s)%nat = false ↔ s = [].
Proof. destruct s; simpl; split; done. Qed.

(** The loop stops at the first paragraph with text, or runs through and
    leaves [content] as it was. *)
Lemma scan_paragraphs_spec ps content :
  (∃ before p after,
     ps = before ++ p :: after ∧ Forall (λ q, trim q = []) before ∧
     trim p ≠ [] ∧ scan_paragraphs ps content = trim p)
  ∨ (Forall (λ q, trim q = []) ps ∧ scan_paragraphs ps content = content).
Proof.
  induction ps as [|p ps IH]; simpl.
  - right. split; [constructor|done].
  - destruct (0 <? length (trim p))%nat eqn:E.
    + left. exists [], p, ps. repeat split; [constructor|].
      intros Hn. apply nonempty_test in Hn. congruence.
    + apply nonempty_test in E.
      destruct IH as [(before & q & after & -> & Hb & Hq & Hs)|[Hall Hs]].
      * left. exists (p :: before), q, after. repeat split; auto.
      * right. split; [by constructor|done].
Qed.

Lemma fetch_article_ok cfg net filename status doc :
  net (postsDir cfg ++ filename) = Responds status doc →
  Response_ok status = true →
  fetch_article cfg net filename
  = ((parse_article filename doc).2, Fulfilled (Some (parse_article filename doc).1)).
Proof.
  intros En Eok. unfold fetch_article. rewrite En, Eok. simpl.
  by destruct (parse_article filename doc).
Qed.

Lemma parse_article_fields filename doc :
  (parse_article filename doc).1
  = mkArticle filename (extract_category filename doc).1
              (strip_html filename) (extract_content filename doc).
Proof. unfold parse_article. by destruct (extract_category _ _). Qed.

(** C4. For every document that was retrieved, the content of the record
    is the trimmed text of the first paragraph, in document order, whose
    trimmed text is not empty; when no paragraph has text it is the filename
    without its final [.html], which is the slug. *)
Theorem content_is_first_paragraph_with_text cfg net filename status doc :
  net (postsDir cfg ++ filename) = Responds status doc →
  Response_ok status = true →
  ∃ article logged,
    fetch_article cfg net filename = (logged, Fulfilled (Some article)) ∧
    ((∃ before p after,
        paragraphs doc = before ++ p :: after ∧
        Forall (λ q, trim q = []) before ∧ trim p ≠ [] ∧
        content article = trim p)
     ∨ (Forall (λ q, trim q = []) (paragraphs doc) ∧
        content article = strip_html filename ∧
        content article = slug article)).
Proof.
  intros En Eok. eexists _, _. split; [by eapply fetch_article_ok|].
  rewrite parse_article_fields. simpl. unfold extract_content.
  destruct (scan_paragraphs_spec (paragraphs doc) [])
    as [(before & p & after & Hps & Hb & Hp & Hs)|[Hall Hs]].
  - left. exists before, p, after. repeat split; [done..|].
    rewrite Hs. destruct (truthy_str (trim p)) eqn:E; [done|].
    by apply truthy_str_false in E.
  - right. rewrite Hs. done.
Qed.

(** C5. For every document that was retrieved, the category of the record
    is ["others"] when the category tag is absent or its value is empty
    after trimming, as it is for a value of white space only; otherwise it
    is the trimmed value. *)
Theorem category_defaults_to_others cfg net filename status doc :
  net (postsDir cfg ++ filename) = Responds status doc →
  Response_ok status = true →
  ∃ article logged,
    fetch_article cfg net filename = (logged, Fulfilled (Some article)) ∧
    match metaCategory doc with
    | None => category article = lit "others"
    | Some value =>
        (trim value = [] → category article = lit "others") ∧
        (Forall (λ c, is_ws c = true) value → category article = lit "others") ∧
        (trim value ≠ [] → category article = trim value)
    end.
Proof.
  intros En Eok. eexists _, _. split; [by eapply fetch_article_ok|].
  rewrite parse_article_fields. simpl. unfold extract_category.
  destruct (metaCategory doc) as [value|]; [|done].
  destruct (0 <? length (trim value))%nat eqn:E; simpl.
  - assert (trim value ≠ []) as Hne.
    { intros Hn. apply nonempty_test in Hn. congruence. }
    split; [done|]. split; [|done].
    intros Hws. by apply trim_nil_iff in Hws.
  - apply nonempty_test in E. done.
Qed.

(** ** Rendering *)

Lemma foldl_append {A B : Type} (f : A → list B) (l : list A) (acc : list B) :
  foldl (λ acc x, acc ++ f x) acc l = acc ++ flat_map f l.
Proof.
  revert acc. induction l as [|x l IH]; intros acc; simpl.
  - by rewrite app_nil_r.
  - by rewrite IH, app_assoc.
Qed.

Lemma buildCategoryList_kids cfg postMap :
  kids_of (buildCategoryList cfg postMap)
  = flat_map (λ c, [term_node c; description_node cfg (articles_of postMap c)])
             (sort (Object_keys postMap)).
Proof. unfold buildCategoryList. simpl. by rewrite foldl_append. Qed.

Lemma textContent_set s : flat_map textContent (set_textContent s) = s.
Proof.
  unfold set_textContent. destruct (truthy_str s) eqn:E; simpl.
  - by rewrite app_nil_r.
  - by apply truthy_str_false in E.
Qed.

Lemma term_node_label c : textContent (term_node c) = c.
Proof. simpl. by rewrite textContent_set, app_nil_r. Qed.

Lemma term_labels_sorted_keys cfg postMap :
  term_labels (buildCategoryList cfg postMap) = sort (Object_keys postMap).
Proof.
  unfold term_labels. rewrite buildCategoryList_kids.
  induction (sort (Object_keys postMap)) as [|c l IH]; [done|].
  cbn [flat_map app].
  rewrite filter_cons_True by done. rewrite filter_cons_False by done.
  cbn [map]. rewrite term_node_label. by f_equal.
Qed.

Lemma description_nodes_sorted_keys cfg postMap :
  description_nodes (buildCategoryList cfg postMap)
  = map (λ c, description_node cfg (articles_of postMap c))
        (sort (Object_keys postMap)).
Proof.
  unfold description_nodes. rewrite buildCategoryList_kids.
  induction (sort (Object_keys postMap)) as [|c l IH]; [done|].
  cbn [flat_map app].
  rewrite filter_cons_False by done. rewrite filter_cons_True by done.
  cbn [map]. by f_equal.
Qed.

Lemma Object_keys_spec (postMap : gmap jsstr (list ArticleRecord)) k :
  k ∈ Object_keys postMap ↔ is_Some (postMap !! k).
Proof.
  unfold Object_keys. rewrite list_elem_of_fmap. split.
  - intros ([k' v] & -> & H). apply elem_of_map_to_list in H. by eexists.
  - intros [v H]. exists (k, v). split; [done|]. by apply elem_of_map_to_list.
Qed.

Lemma Object_keys_NoDup (postMap : gmap jsstr (list ArticleRecord)) :
  NoDup (Object_keys postMap).
Proof. apply NoDup_fst_map_to_list. Qed.

Lemma sorted_lookup {A : Type} (R : relation A) (l : list A) i j a b :
  StronglySorted R l → l !! i = Some a → l !! j = Some b → (i < j)%nat → R a b.
Proof.
  intros Hs. revert i j. induction Hs as [|x l Hs IH Hx]; intros i j Hi Hj Hij.
  - done.
  - destruct j as [|j]; [lia|]. simpl in Hj. destruct i as [|i].
    + injection Hi as <-. rewrite Forall_forall in Hx. apply Hx.
      by eapply list_elem_of_lookup_2.
    + simpl in Hi. apply (IH i j); [done..|lia].
Qed.

(** C6. For every CategoryMap the sections are rendered in ascending order
    of the category keys under the default string order: the labels of the
    term nodes are the sorted keys, each key once, and a label that begins
    with a capital ASCII letter stands before every label that begins with
    a lower-case one. *)
Theorem categories_rendered_in_default_sort_order (cfg : SiteConfig)
    (postMap : gmap jsstr (list ArticleRecord)) :
  let labels := term_labels (buildCategoryList cfg postMap) in
  labels = sort (Object_keys postMap) ∧
  StronglySorted str_le labels ∧
  NoDup labels ∧
  (∀ k, k ∈ labels ↔ is_Some (postMap !! k)) ∧
  (∀ i j a b, labels !! i = Some a → labels !! j = Some b →
              (i < j)%nat → str_compare a b = Lt) ∧
  (∀ i j c1 r1 c2 r2,
     labels !! i = Some (c1 :: r1) → labels !! j = Some (c2 :: r2) →
     (65 ≤ c1 ≤ 90)%N → (97 ≤ c2 ≤ 122)%N → (i < j)%nat).
Proof.
  intros labels.
  assert (labels = sort (Object_keys postMap)) as Hl
    by apply term_labels_sorted_keys.
  assert (StronglySorted str_le labels) as Hs by (rewrite Hl; apply sort_sorted).
  assert (NoDup labels) as Hn.
  { rewrite Hl, sort_permutation. apply Object_keys_NoDup. }
  assert (∀ i j a b, labels !! i = Some a → labels !! j = Some b →
                     (i < j)%nat → str_compare a b = Lt) as Hlt.
  { intros i j a b Hi Hj Hij.
    assert (str_le a b) as Hle by by eapply sorted_lookup.
    unfold str_le in Hle. destruct (str_compare a b) eqn:E; [|done|done].
    apply str_compare_eq in E as ->.
    pose proof (NoDup_lookup _ _ _ _ Hn Hi Hj). lia. }
  repeat split; auto.
  - rewrite Hl, sort_permutation. apply Object_keys_spec.
  - rewrite Hl, sort_permutation. apply Object_keys_spec.
  - intros i j c1 r1 c2 r2 Hi Hj H1 H2.
    pose proof (upper_before_lower c1 c2 r1 r2 H1 H2) as Hc.
    destruct (Nat.lt_trichotomy i j) as [?|[->|Hji]]; [done| |].
    + rewrite Hi in Hj. injection Hj as -> ->. lia.
    + pose proof (Hlt _ _ _ _ Hj Hi Hji) as Hc'.
      rewrite str_compare_antisym, Hc in Hc'. done.
Qed.

(** *** The description node *)

Lemma append_links_spec cfg len index articles dd :
  len = (index + length articles)%nat →
  append_links cfg len index articles dd
  = dd ++ join_with separator (map (link cfg) articles).
Proof.
  revert index dd. induction articles as [|article rest IH]; intros index dd Hlen.
  - simpl. by rewrite app_nil_r.
  - cbn [append_links]. rewrite IH by (simpl in Hlen; lia).
    destruct rest as [|next rest].
    + replace (index <? len - 1)%nat with false.
      2:{ symmetry. apply Nat.ltb_ge. simpl in Hlen. lia. }
      simpl. by rewrite app_nil_r.
    + replace (index <? len - 1)%nat with true.
      2:{ symmetry. apply Nat.ltb_lt. simpl in Hlen. lia. }
      change (join_with separator (map (link cfg) (article :: next :: rest)))
        with (link cfg article :: separator
                :: join_with separator (map (link cfg) (next :: rest))).
      by rewrite <- !app_assoc.
Qed.

Lemma description_node_kids cfg articles :
  kids_of (description_node cfg articles)
  = join_with separator (map (link cfg) articles).
Proof. simpl. by rewrite append_links_spec. Qed.

Lemma join_links cfg articles :
  links_of (join_with separator (map (link cfg) articles))
  = map (link cfg) articles.
Proof.
  unfold links_of. induction articles as [|a [|b rest] IH]; [done..|].
  change (join_with separator (map (link cfg) (a :: b :: rest)))
    with (link cfg a :: separator
            :: join_with separator (map (link cfg) (b :: rest))).
  rewrite filter_cons_True by done. rewrite filter_cons_False by done.
  by rewrite IH.
Qed.

Lemma join_separators cfg articles :
  length (separators_of (join_with separator (map (link cfg) articles)))
  = (length articles - 1)%nat.
Proof.
  unfold separators_of. induction articles as [|a [|b rest] IH]; [done..|].
  change (join_with separator (map (link cfg) (a :: b :: rest)))
    with (link cfg a :: separator
            :: join_with separator (map (link cfg) (b :: rest))).
  rewrite filter_cons_False by done. rewrite filter_cons_True by done.
  simpl length in *. rewrite IH. lia.
Qed.

Lemma join_last {A : Type} (sep : A) (l : list A) :
  last (join_with sep l) = last l.
Proof.
  induction l as [|a [|b rest] IH]; [done..|].
  change (join_with sep (a :: b :: rest))
    with (a :: sep :: join_with sep (b :: rest)).
  rewrite !last_cons. rewrite IH.
  rewrite last_cons. by destruct (last rest).
Qed.

(** C7. For every bucket of [n >= 1] articles, the description node
    rendered for it holds the [n] links in the order of the bucket, joined
    by [n - 1] separators ["; "], none after the last link; the label of
    each link is the slug of its article and its target is
    [postsDir + filename]. *)
Theorem links_joined_by_separator (cfg : SiteConfig)
    (postMap : gmap jsstr (list ArticleRecord)) k articles :
  postMap !! k = Some articles → articles ≠ [] →
  let dl := buildCategoryList cfg postMap in
  let dd := description_node cfg articles in
  (∃ i, term_labels dl !! i = Some k ∧ description_nodes dl !! i = Some dd) ∧
  kids_of dd = join_with separator (map (link cfg) articles) ∧
  links_of (kids_of dd) = map (link cfg) articles ∧
  length (separators_of (kids_of dd)) = (length articles - 1)%nat ∧
  (∃ article, last articles = Some article ∧
              last (kids_of dd) = Some (link cfg article)) ∧
  Forall (λ article,
            textContent (link cfg article) = slug article ∧
            attrs_of (link cfg article)
            = [("href"%string, postsDir cfg ++ filename article)]) articles.
Proof.
  intros Hk Hne dl dd. subst dl dd. repeat split.
  - assert (k ∈ sort (Object_keys postMap)) as Hin.
    { rewrite sort_permutation. apply Object_keys_spec. by eexists. }
    apply list_elem_of_lookup in Hin as [i Hi]. exists i. split.
    + by rewrite term_labels_sorted_keys.
    + rewrite description_nodes_sorted_keys, list_lookup_fmap, Hi.
      simpl. unfold articles_of. by rewrite Hk.
  - apply description_node_kids.
  - rewrite description_node_kids. apply join_links.
  - rewrite description_node_kids. apply join_separators.
  - destruct (last articles) as [article|] eqn:El.
    + exists article. split; [done|].
      rewrite description_node_kids, join_last, fmap_last, El. done.
    + apply last_None in El. done.
  - apply Forall_forall. intros article _. split; [|done].
    simpl. apply textContent_set.
Qed.

(** ** The composer *)

(** C8. When the page has no main region, the composer reports the error
    and does nothing else: no loading message is set, no retrieval is
    requested, the page stays as it is. *)
Theorem missing_main_halts cfg net sched w :
  main w = None →
  let w' := buildAutoIndex cfg net sched w in
  w' = emit (Error (lit "Main container not found in index.html")) w ∧
  main w' = None ∧
  requests w' = requests w ∧
  console w' = console w ++ [Error (lit "Main container not found in index.html")].
Proof.
  intros H w'.
  assert (w' = emit (Error (lit "Main container not found in index.html")) w)
    as -> by (unfold w', buildAutoIndex; by rewrite H).
  by simpl.
Qed.

(** With a main region the loading message is set and the retrievals are
    requested, in the order of [postFiles], before anything settles. *)
Lemma main_present_starts_loading cfg net w content :
  main w = Some content → postFiles cfg ≠ [] →
  let w' := buildAutoIndex cfg net [] w in
  main w' = Some (mkRegion loading_markup []) ∧
  requests w' = requests w ++ map (λ f, postsDir cfg ++ f) (postFiles cfg).
Proof.
  intros H Hf w'. unfold w', buildAutoIndex, buildPostMap. rewrite H.
  destruct (postFiles cfg) as [|f files]; [done|]. by simpl.
Qed.

(** What [buildPostMap] prints and requests does not depend on the region,
    and its result does not depend on the page at all. *)
Lemma buildPostMap_result cfg net sched w w0 :
  (buildPostMap cfg net sched w).2 = (buildPostMap cfg net sched w0).2.
Proof.
  unfold buildPostMap. destruct (length _ =? 0)%nat; [done|].
  destruct (Promise_all _ _) as [out [articles|e|]]; [|done..].
  by destruct (group_by_category _).
Qed.

Lemma buildPostMap_main cfg net sched w :
  main (buildPostMap cfg net sched w).1 = main w.
Proof.
  unfold buildPostMap. destruct (length _ =? 0)%nat; [done|].
  destruct (Promise_all _ _) as [out [articles|e|]]; [|done..].
  by destruct (group_by_category _).
Qed.

(** When [buildPostMap] returns, the region ends as header, table and
    footer, and nothing of the loading message is left. *)
Lemma returned_map_is_rendered cfg net sched w content m :
  main w = Some content →
  (buildPostMap cfg net sched w).2 = Returned m →
  main (buildAutoIndex cfg net sched w)
  = Some (mkRegion [] [buildHeader cfg; createKnowledgeTable cfg m;
                       buildFooter cfg]).
Proof.
  intros Hmain Hm. unfold buildAutoIndex. rewrite Hmain.
  rewrite (buildPostMap_result _ _ _ w (set_innerHTML loading_markup w)) in Hm.
  destruct (buildPostMap cfg net sched (set_innerHTML loading_markup w))
    as [w1 r] eqn:E.
  simpl in Hm. subst r. done.
Qed.


(** ** The buckets *)

(** C9. Every key of the CategoryMap that [buildPostMap] returns maps to a
    sequence that is not empty, so every description node rendered from it
    holds at least one link. *)
Theorem no_empty_bucket cfg net sched w m :
  (buildPostMap cfg net sched w).2 = Returned m →
  (∀ k bucket, m !! k = Some bucket → bucket ≠ []) ∧
  Forall (λ dd, links_of (kids_of dd) ≠ [])
         (description_nodes (buildCategoryList cfg m)).
Proof.
  intros H. apply buildPostMap_returned in H.
  assert (∀ k bucket, m !! k = Some bucket → bucket ≠ []) as Hb.
  { intros k bucket Hk. by apply (group_by_category_lookup _ _ _ _ H) in Hk as [_ ?]. }
  split; [done|].
  rewrite description_nodes_sorted_keys. apply Forall_fmap, Forall_forall.
  intros k Hk. rewrite sort_permutation in Hk.
  apply Object_keys_spec in Hk as [bucket Hk].
  unfold articles_of, compose. rewrite Hk. simpl default.
  rewrite description_node_kids, join_links.
  specialize (Hb _ _ Hk). by destruct bucket.
Qed.

(** Records whose categories are no inherited names are grouped by the
    exact string: each record lies in the bucket of its own category and in
    no other. *)
Lemma grouping_is_exact l :
  Forall (λ article, category article ∉ Object_prototype_keys) l →
  ∃ m, group_by_category l = inr m ∧
       ∀ article, article ∈ l →
                  ∀ k, article ∈ default [] (m !! k) ↔ k = category article.
Proof.
  intros Hl. destruct (group_from_ok ∅ l Hl) as [m Hm]. exists m.
  split; [done|]. intros article Hin k.
  destruct (m !! k) as [bucket|] eqn:Ek; simpl.
  - apply (group_by_category_lookup l m k bucket Hm) in Ek as [-> _].
    unfold of_category. rewrite list_elem_of_filter.
    split; [by intros [<- _]|by intros ->].
  - split; [by intros ?%elem_of_nil|]. intros ->. exfalso.
    assert (of_category (category article) l ≠ []) as Hne.
    { intros Hnil. assert (article ∈ of_category (category article) l) as Hx
        by by apply list_elem_of_filter.
      rewrite Hnil in Hx. by apply elem_of_nil in Hx. }
    assert (m !! category article = Some (of_category (category article) l))
      as Hsome by by apply (group_by_category_lookup l m _ _ Hm).
    congruence.
Qed.

(** C2, as the code has it. Whenever [buildPostMap] returns, whatever the
    order in which the retrievals settled, every bucket lists its records in
    the order their files have in [postFiles]: [Promise.all] delivers the
    results by position. *)
Theorem buckets_in_input_order cfg net sched w m :
  (buildPostMap cfg net sched w).2 = Returned m →
  buckets_follow (survivors cfg net) m.
Proof.
  intros H k bucket Hk. apply buildPostMap_returned in H.
  by apply (group_by_category_lookup _ _ _ _ H) in Hk as [-> _].
Qed.

(** The order of settlement does not show in the result at all. *)
Lemma schedule_is_irrelevant cfg net sched sched' w m m' :
  (buildPostMap cfg net sched w).2 = Returned m →
  (buildPostMap cfg net sched' w).2 = Returned m' →
  m = m'.
Proof.
  intros H H'. apply buildPostMap_returned in H, H'. congruence.
Qed.

(** C1, as the code has it. When every retrieval answers, with whatever
    status, and no retrieved category names an inherited property,
    [buildPostMap] returns a map: a file answered with a status outside
    200-299 gets a warning and has no record in the map, and the record of
    every other file is in the bucket of its category. *)
Theorem failed_status_is_handled_per_item cfg net sched w :
  settles_all sched (length (postFiles cfg)) →
  (∀ f e, f ∈ postFiles cfg → net (postsDir cfg ++ f) ≠ Rejects e) →
  Forall (λ article, category article ∉ Object_prototype_keys)
         (survivors cfg net) →
  ∃ m, (buildPostMap cfg net sched w).2 = Returned m ∧
    ∀ f status doc,
      f ∈ postFiles cfg → net (postsDir cfg ++ f) = Responds status doc →
      if Response_ok status
      then (parse_article f doc).1
             ∈ default [] (m !! category (parse_article f doc).1)
      else Warn (msg_failed f status)
             ∈ console (buildPostMap cfg net sched w).1 ∧
           ∀ k bucket article,
             m !! k = Some bucket → article ∈ bucket → filename article ≠ f.
Proof.
  intros Hs Hnet Hcat.
  destruct (grouping_is_exact _ Hcat) as (m & Hm & Hex).
  pose proof (buildPostMap_settled cfg net sched w Hs Hnet) as Hr.
  rewrite Hm in Hr. exists m. split; [done|].
  intros f status doc Hf En. destruct (Response_ok status) eqn:Eok.
  - apply Hex; [|done]. apply elem_of_survivors. by exists f, status, doc.
  - split.
    + apply (buildPostMap_printed cfg net sched w m f); [done..|].
      unfold fetch_article. rewrite En, Eok. simpl. by left.
    + intros k bucket article Hk Hin Hname.
      apply (group_by_category_lookup _ _ _ _ Hm) in Hk as [-> _].
      apply list_elem_of_filter in Hin as [_ Hin].
      apply elem_of_survivors in Hin as (f' & status' & doc' & _ & En' & Eok' & ->).
      rewrite parse_article_filename in Hname. subst f'.
      rewrite En in En'. injection En' as <- <-. congruence.
Qed.

(** A rejected retrieval, whichever the file, rejects the whole batch under
    every schedule that settles all. *)
Lemma rejection_aborts_the_batch cfg net sched w f e :
  settles_all sched (length (postFiles cfg)) →
  f ∈ postFiles cfg → net (postsDir cfg ++ f) = Rejects e →
  ∃ e', (buildPostMap cfg net sched w).2 = Threw e'.
Proof.
  intros Hs Hf En. unfold buildPostMap.
  destruct (postFiles cfg) as [|f0 files] eqn:Ef; [by apply elem_of_nil in Hf|].
  cbn [length Nat.eqb].
  destruct (Promise_all_rejects (A:=option ArticleRecord) sched
              (map (fetch_article cfg net) (f0 :: files)) [] e)
    as (out & e' & Ep).
  - by rewrite length_map.
  - apply list_elem_of_fmap. exists f. split; [|done].
    unfold fetch_article. by rewrite En.
  - rewrite Ep. by exists e'.
Qed.

(** ** The claims on sample sites *)

Ltac each_index :=
  let i := fresh "i" in
  let Hi := fresh "Hi" in
  intros i Hi;
  repeat (destruct i as [|i]; [set_solver|]); simpl in Hi; lia.

Ltac by_decide := apply (bool_decide_unpack _); vm_compute; exact I.

Ltac each_file H :=
  simpl in H;
  repeat (apply elem_of_cons in H as [->|H]; [vm_compute; discriminate|]);
  by apply elem_of_nil in H.

Lemma content_is_first_paragraph_with_text_witness :
  ∃ article logged,
    fetch_article site_a net_both_x (lit "a.html")
    = (logged, Fulfilled (Some article)) ∧
    ((∃ before p after,
        paragraphs doc_x_hello = before ++ p :: after ∧
        Forall (λ q, trim q = []) before ∧ trim p ≠ [] ∧
        content article = trim p)
     ∨ (Forall (λ q, trim q = []) (paragraphs doc_x_hello) ∧
        content article = strip_html (lit "a.html") ∧
        content article = slug article)).
Proof.
  apply (content_is_first_paragraph_with_text
           site_a net_both_x (lit "a.html") 200 doc_x_hello);
    reflexivity.
Defined.

Lemma category_defaults_to_others_witness :
  ∃ article logged,
    fetch_article site_c net_plain (lit "c.html")
    = (logged, Fulfilled (Some article)) ∧
    category article = lit "others".
Proof.
  apply (category_defaults_to_others
           site_c net_plain (lit "c.html") 200 doc_plain);
    reflexivity.
Defined.

(** The sample of the spec: ["zebra"; "Alpha"; "beta"] is rendered as
    Alpha, beta, zebra. *)
Lemma categories_rendered_in_default_sort_order_witness :
  term_labels (buildCategoryList site_empty map_zoo)
  = [lit "Alpha"; lit "beta"; lit "zebra"].
Proof.
  destruct (categories_rendered_in_default_sort_order site_empty map_zoo)
    as [Hlabels _].
  rewrite Hlabels. vm_compute. reflexivity.
Defined.

(** Three articles, two separators. *)
Lemma links_joined_by_separator_witness :
  let articles := [in_category "Alpha" "one"; in_category "Alpha" "two";
                   in_category "Alpha" "three"] in
  let dd := description_node site_empty articles in
  kids_of dd = join_with separator (map (link site_empty) articles) ∧
  length (separators_of (kids_of dd)) = 2%nat ∧
  last (kids_of dd) = Some (link site_empty (in_category "Alpha" "three")).
Proof.
  intros articles dd.
  destruct (links_joined_by_separator site_empty map_zoo (lit "Alpha") articles)
    as (_ & Hkids & _ & Hsep & (article & Hlast & Hlink) & _).
  - vm_compute. reflexivity.
  - discriminate.
  - split; [exact Hkids|]. split; [exact Hsep|].
    injection Hlast as <-. exact Hlink.
Defined.

Lemma missing_main_halts_witness :
  let w' := buildAutoIndex site_ab net_both_x [0; 1]%nat
                           page_without_main in
  w' = emit (Error (lit "Main container not found in index.html"))
            page_without_main ∧
  main w' = None ∧ requests w' = [] ∧
  console w' = [Error (lit "Main container not found in index.html")].
Proof.
  apply (missing_main_halts site_ab net_both_x [0; 1]%nat
                            page_without_main).
  reflexivity.
Defined.

Lemma no_empty_bucket_witness :
  (∀ k bucket, map_x !! k = Some bucket → bucket ≠ []) ∧
  Forall (λ dd, links_of (kids_of dd) ≠ [])
         (description_nodes
            (buildCategoryList site_ab map_x)).
Proof.
  apply (no_empty_bucket site_ab net_both_x [1; 0]%nat
                         page_with_main map_x).
  vm_compute. reflexivity.
Defined.

(** C2, as the spec has it, fails: [b.html] settles first, and the bucket
    still lists the record of [a.html] first. *)
Lemma buckets_not_in_settlement_order :
  let cfg := site_ab in
  let sched := [1; 0]%nat in
  in_settlement_order cfg net_both_x sched = [article_b; article_a] ∧
  (buildPostMap cfg net_both_x sched page_with_main).2 = Returned map_x ∧
  map_x !! lit "x" = Some [article_a; article_b] ∧
  ¬ (∀ m, (buildPostMap cfg net_both_x sched page_with_main).2 = Returned m →
          buckets_follow (in_settlement_order cfg net_both_x sched) m).
Proof.
  intros cfg sched.
  assert ((buildPostMap cfg net_both_x sched page_with_main).2 = Returned map_x)
    as Hr by (vm_compute; reflexivity).
  split; [vm_compute; reflexivity|]. split; [exact Hr|].
  split; [vm_compute; reflexivity|].
  intros H. specialize (H map_x Hr (lit "x") [article_a; article_b]).
  assert ([article_a; article_b]
          = of_category (lit "x") (in_settlement_order cfg net_both_x sched))
    as Habs by (apply H; vm_compute; reflexivity).
  vm_compute in Habs. discriminate Habs.
Qed.

Lemma buckets_in_input_order_witness :
  buckets_follow (survivors site_ab net_both_x) map_x.
Proof.
  apply (buckets_in_input_order site_ab net_both_x
                                [1; 0]%nat page_with_main map_x).
  vm_compute. reflexivity.
Defined.

(** C1, as the spec has it, fails for a network error: the rejected
    retrieval of [b.html] rejects the batch, the record of [a.html] reaches
    no map, no warning is printed, and the page shows the error. *)
Lemma network_error_is_not_handled_per_item :
  let cfg := site_ab in
  let e := NetworkError (lit "Failed to fetch") in
  let w' := buildAutoIndex cfg net_b_unreachable [0; 1]%nat page_with_main in
  ¬ batch_survives cfg net_b_unreachable [0; 1]%nat page_with_main ∧
  (buildPostMap cfg net_b_unreachable [0; 1]%nat page_with_main).2 = Threw e ∧
  main w' = Some (mkRegion (error_markup e) []) ∧
  Forall (λ x, ∀ msg, x ≠ Warn msg) (console w').
Proof.
  intros cfg e w'. split; [|split; [|split]].
  - intros (m & H & _). vm_compute in H. discriminate H.
  - vm_compute. reflexivity.
  - vm_compute. reflexivity.
  - vm_compute. repeat constructor; discriminate.
Qed.

Lemma failed_status_is_handled_per_item_witness :
  let cfg := site_ab in
  ∃ m, (buildPostMap cfg net_b_missing [1; 0]%nat page_with_main).2 = Returned m ∧
    ∀ f status doc,
      f ∈ postFiles cfg → net_b_missing (postsDir cfg ++ f) = Responds status doc →
      if Response_ok status
      then (parse_article f doc).1
             ∈ default [] (m !! category (parse_article f doc).1)
      else Warn (msg_failed f status)
             ∈ console (buildPostMap cfg net_b_missing [1; 0]%nat page_with_main).1 ∧
           ∀ k bucket article,
             m !! k = Some bucket → article ∈ bucket → filename article ≠ f.
Proof.
  intros cfg.
  apply (failed_status_is_handled_per_item cfg net_b_missing [1; 0]%nat
                                           page_with_main).
  - each_index.
  - intros f e Hf. each_file Hf.
  - by_decide.
Defined.

(** C3 fails on the code. A record whose category names a property that
    [{}] inherits finds that property where its bucket should be: no bucket
    is made, [push] is not a function, and the page shows the error. *)
Theorem inherited_category_breaks_grouping :
  let cfg := site_a in
  survivors cfg net_constructor = [article_constructor] ∧
  group_by_category [article_constructor] = inl push_not_a_function ∧
  (buildPostMap cfg net_constructor [0]%nat page_with_main).2
  = Threw push_not_a_function ∧
  main (buildAutoIndex cfg net_constructor [0]%nat page_with_main)
  = Some (mkRegion (error_markup push_not_a_function) []).
Proof. intros cfg. repeat split; vm_compute; reflexivity. Qed.

(** Categories that differ in case only have buckets of their own. *)
Lemma Lang_and_lang_apart :
  ∃ m, group_by_category [in_category "Lang" "a"; in_category "lang" "b"] = inr m ∧
       m !! lit "Lang" = Some [in_category "Lang" "a"] ∧
       m !! lit "lang" = Some [in_category "lang" "b"].
Proof.
  destruct (grouping_is_exact [in_category "Lang" "a"; in_category "lang" "b"])
    as (m & Hm & _).
  { by_decide. }
  exists m. split; [done|].
  split; apply (group_by_category_lookup _ _ _ _ Hm); split; try done;
    vm_compute; reflexivity.
Qed.

End AutoIndexSpec.

(* ===================================================================== *)
(** * Properties of [js/auto-toc.js]                                       *)
(* ===================================================================== *)

Module AutoTocSpec.
Import Js JsFacts AutoToc.

Section WithCaseFolding.
Variable toLowerCase : jsstr → jsstr.

(** C10. On a page without a heading that matches the selector,
    [generateTOC] returns and leaves the document as it is: no container is
    made, no id is set, no list is rendered. While the page is loading the
    run is put off to [DOMContentLoaded], and then leaves the tree alone
    as well. *)
Theorem no_headings_no_change d :
  querySelectorAll d CONFIG_selectors = [] →
  (∃ d', generateTOC toLowerCase d = Done d' ∧ same_tree d d') ∧
  (readyState d ≠ loading → generateTOC toLowerCase d = Done d) ∧
  (readyState d = loading →
   ∃ d' d'', generateTOC toLowerCase d = Done d' ∧
             DOMContentLoaded toLowerCase d' = Done d'' ∧ same_tree d d'').
Proof.
  intros Hq.
  assert (∀ d0, root d0 = root d → readyState d0 ≠ loading →
                generateTOC toLowerCase d0 = Done d0) as Hrun.
  { intros d0 Hroot Hready. unfold generateTOC.
    replace (querySelectorAll d0 CONFIG_selectors) with (@nil nat)
      by (unfold querySelectorAll in *; by rewrite Hroot).
    by destruct (readyState d0). }
  split; [|split].
  - destruct (readyState d) eqn:E.
    + exists (add_listener GenerateTOC d). split; [|done].
      unfold generateTOC. by rewrite E.
    + exists d. split; [|done]. apply Hrun; [done|]. by rewrite E.
    + exists d. split; [|done]. apply Hrun; [done|]. by rewrite E.
  - by apply Hrun.
  - intros E. eexists _, _. split; [unfold generateTOC; by rewrite E|].
    assert (∀ hs d0, root d0 = root d → readyState d0 ≠ loading →
                     run_handlers toLowerCase hs d0 = Done d0) as Hall.
    { induction hs as [|[] hs IH]; intros d0 Hroot Hready; simpl; [done|].
      rewrite Hrun by done. by apply IH. }
    unfold DOMContentLoaded. split; [by apply Hall|done].
Qed.

(** ** [generateUniqueId] ends, with an id no other element has *)

Lemma candidate_inj baseSlug j k :
  candidate baseSlug j = candidate baseSlug k → j = k.
Proof.
  unfold candidate. intros H. apply app_inv_head in H.
  apply app_inv_head in H. by apply Number_toString_inj.
Qed.

Lemma candidate_not_base baseSlug j : candidate baseSlug j ≠ baseSlug.
Proof.
  unfold candidate. intros H. apply (f_equal length) in H.
  rewrite !length_app in H. simpl in H. lia.
Qed.

Lemma getElementById_taken d id other :
  getElementById d id = Some other →
  id ∈ map (attr "id") (elements (root d)).
Proof.
  unfold getElementById.
  destruct (find _ _) as [n|] eqn:E; [|done]. intros _.
  apply find_some in E as [Hin Hid]. apply bool_decide_eq_true in Hid as <-.
  apply list_elem_of_fmap. exists n. split; [done|]. by apply list_elem_of_In.
Qed.

(** Each turn of the loop finds one more id of the document among the
    candidates, which are pairwise different: the loop ends before its
    bound. *)
Lemma generateUniqueId_loop_ends d heading baseSlug fuel tried id counter :
  NoDup (id :: tried) →
  (∀ x, x ∈ tried → x ∈ map (attr "id") (elements (root d))) →
  (∀ j, (counter ≤ j)%N → candidate baseSlug j ∉ id :: tried) →
  (length (elements (root d)) < fuel + length tried)%nat →
  is_Some (generateUniqueId_loop fuel d heading baseSlug id counter).
Proof.
  revert tried id counter.
  induction fuel as [|fuel IH]; intros tried id counter Hnd Hsub Hnew Hlen.
  - exfalso. apply NoDup_cons in Hnd as [_ Hnd].
    assert (tried ⊆+ map (attr "id") (elements (root d))) as Hle
      by by apply NoDup_submseteq.
    apply submseteq_length in Hle. rewrite length_map in Hle.
    simpl in Hlen. lia.
  - simpl. destruct (getElementById d id) as [other|] eqn:E; [|by eexists].
    destruct (negb (other =? heading)%nat); [|by eexists].
    apply (IH (id :: tried)).
    + apply NoDup_cons. split; [|done]. apply Hnew. lia.
    + intros x [->|Hx]%elem_of_cons; [|by apply Hsub].
      by eapply getElementById_taken.
    + intros j Hj [Hc|Hin]%elem_of_cons.
      * apply candidate_inj in Hc. lia.
      * apply (Hnew j); [lia|done].
    + simpl. lia.
Qed.

Lemma generateUniqueId_total d heading baseSlug :
  is_Some (generateUniqueId d heading baseSlug).
Proof.
  unfold generateUniqueId.
  apply (generateUniqueId_loop_ends d heading baseSlug _ []).
  - apply NoDup_singleton.
  - by intros x ?%elem_of_nil.
  - intros j _ [Hc|Hin]%elem_of_cons.
    + by apply candidate_not_base in Hc.
    + by apply elem_of_nil in Hin.
  - simpl. lia.
Qed.

Lemma generateUniqueId_loop_free d heading baseSlug fuel id counter id' :
  generateUniqueId_loop fuel d heading baseSlug id counter = Some id' →
  getElementById d id' = None ∨ getElementById d id' = Some heading.
Proof.
  revert id counter. induction fuel as [|fuel IH]; intros id counter; [done|].
  simpl. destruct (getElementById d id) as [other|] eqn:E.
  - destruct (other =? heading)%nat eqn:Eo; simpl.
    + intros [= <-]. apply Nat.eqb_eq in Eo as ->. by right.
    + apply IH.
  - intros [= <-]. by left.
Qed.

(** The id that is returned is held by no element of the document but,
    possibly, the heading itself. *)
Lemma generateUniqueId_free d heading baseSlug id :
  generateUniqueId d heading baseSlug = Some id →
  getElementById d id = None ∨ getElementById d id = Some heading.
Proof. apply generateUniqueId_loop_free. Qed.

(** So the bound of the loop is never what ends a run. *)
Lemma toc_entry_not_exhausted ul d heading :
  toc_entry toLowerCase ul d heading ≠ Exhausted.
Proof.
  unfold toc_entry. destruct (deref d heading) as [h|]; [|done].
  destruct (negb (truthy_str (attr "id" h))).
  - destruct (generateUniqueId_total d heading
                (if truthy_str (generateSlug toLowerCase (textContent h))
                 then generateSlug toLowerCase (textContent h)
                 else lit "section")) as [id ->].
    by destruct (deref _ heading).
  - by destruct (deref d heading).
Qed.

Lemma toc_entries_not_exhausted ul d headings :
  toc_entries toLowerCase ul d headings ≠ Exhausted.
Proof.
  revert d. induction headings as [|h hs IH]; intros d; simpl; [done|].
  pose proof (toc_entry_not_exhausted ul d h).
  by destruct (toc_entry toLowerCase ul d h).
Qed.

Lemma generateTOC_not_exhausted d : generateTOC toLowerCase d ≠ Exhausted.
Proof.
  unfold generateTOC. destruct (readyState d); [done|..];
    (destruct (length _ =? 0)%nat; [done|];
     destruct (getOrCreateContainer d) as [e|[container d1]]; [done|];
     apply toc_entries_not_exhausted).
Qed.

End WithCaseFolding.

Lemma no_headings_no_change_witness :
  (∃ d', generateTOC ascii_lower (page complete prose) = Done d' ∧
         same_tree (page complete prose) d') ∧
  (readyState (page complete prose) ≠ loading →
   generateTOC ascii_lower (page complete prose) = Done (page complete prose)) ∧
  (readyState (page complete prose) = loading →
   ∃ d' d'', generateTOC ascii_lower (page complete prose) = Done d' ∧
             DOMContentLoaded ascii_lower d' = Done d'' ∧
             same_tree (page complete prose) d'').
Proof.
  apply (no_headings_no_change ascii_lower (page complete prose)).
  vm_compute. reflexivity.
Defined.

(** A page that is still loading: the run is put off, and nothing but the
    listener is added. *)
Lemma no_headings_while_loading :
  generateTOC ascii_lower (page loading prose)
  = Done (add_listener GenerateTOC (page loading prose)).
Proof. reflexivity. Qed.

(** A page with three top-level headings, for contrast: the container is
    put in front of the body, the headings without an id get one that no
    other element has, and the list has an entry for each heading. *)
Lemma chapters_get_a_table :
  ∃ d', generateTOC ascii_lower (page complete chapters) = Done d' ∧
        getElementById d' CONFIG_containerId = Some 100%nat ∧
        (attr "id" <$> deref d' 3) = Some (lit "getting-started-1") ∧
        (attr "id" <$> deref d' 5) = Some (lit "own") ∧
        (attr "id" <$> deref d' 6) = Some (lit "section") ∧
        (textContent <$> deref d' 102)
        = Some (lit "Getting Started!" ++ lit "Named" ++ lit "***").
Proof. eexists. split; [vm_compute; reflexivity|]. repeat split. Qed.

End AutoTocSpec.

(* ===================================================================== *)
(** * More about the runtime fragment                                      *)
(* ===================================================================== *)

Module JsExtra.
Import Js JsFacts.

(** [trimStart] drops a prefix of white space and nothing else. *)
Lemma trimStart_split s :
  ∃ pre, s = pre ++ trimStart s ∧ Forall (λ c, is_ws c = true) pre.
Proof.
  induction s as [|c s (pre & Hs & Hpre)]; simpl.
  - exists []. by split.
  - destruct (is_ws c) eqn:E.
    + exists (c :: pre). split; [by rewrite Hs at 1|by constructor].
    + exists []. by split.
Qed.

Lemma trimStart_id s :
  (∀ c r, s = c :: r → is_ws c = false) → trimStart s = s.
Proof.
  destruct s as [|c r]; [done|]. intros H. simpl. by rewrite (H c r).
Qed.

(** What [trim] returns begins with no white space ... *)
Lemma trim_head s c r : trim s = c :: r → is_ws c = false.
Proof.
  unfold trim, trimEnd.
  destruct (trimStart_split (rev (trimStart s))) as (pre & Hs & _).
  intros H. apply (f_equal (@rev N)) in Hs.
  rewrite rev_involutive, rev_app_distr, H in Hs.
  by apply (trimStart_head s c (r ++ rev pre)).
Qed.

(** ... and ends with none. *)
Lemma trim_last s c : last (trim s) = Some c → is_ws c = false.
Proof.
  unfold trim, trimEnd.
  destruct (trimStart (rev (trimStart s))) as [|c' u] eqn:E; [done|].
  simpl. rewrite last_snoc. intros [= <-]. by eapply trimStart_head.
Qed.

Lemma trim_idempotent s : trim (trim s) = trim s.
Proof.
  assert (trimStart (trim s) = trim s) as H1
    by (apply trimStart_id; intros c r; apply trim_head).
  unfold trim at 1. rewrite H1. unfold trimEnd.
  rewrite trimStart_id; [apply rev_involutive|].
  intros c r Hr. apply (trim_last s).
  apply (f_equal (@rev N)) in Hr. rewrite rev_involutive in Hr.
  rewrite Hr. simpl. apply last_snoc.
Qed.

(** The strings that [replace(/\.html$/, '')] empties. *)
Lemma strip_html_nil s : strip_html s = [] → s = [] ∨ s = lit ".html".
Proof.
  unfold strip_html, ends_with. case_bool_decide as E; [|by left].
  intros H. right. rewrite <- (take_drop (length s - 5) s), H. exact E.
Qed.

Lemma strip_html_cases s :
  if ends_with (lit ".html") s then s = strip_html s ++ lit ".html"
  else strip_html s = s.
Proof.
  unfold strip_html. destruct (ends_with (lit ".html") s) eqn:E; [|done].
  unfold ends_with in E. apply bool_decide_eq_true in E.
  simpl length in E. rewrite <- E. by rewrite take_drop.
Qed.

End JsExtra.

(* ===================================================================== *)
(** * More about [js/auto-index.js]                                        *)
(* ===================================================================== *)

Module AutoIndexExtra.
Import Js JsFacts JsExtra AutoIndex AutoIndexSpec.

(** ** What the extraction leaves in a record *)

Lemma extract_category_trimmed filename doc :
  (extract_category filename doc).1 ≠ [] ∧
  trim (extract_category filename doc).1 = (extract_category filename doc).1.
Proof.
  unfold extract_category. destruct (metaCategory doc) as [v|]; [|by split].
  destruct (0 <? length (trim v))%nat eqn:E; simpl; [|by split].
  split; [|apply trim_idempotent].
  intros Hn. apply nonempty_test in Hn. congruence.
Qed.

(** X1. The key of every bucket of a returned map is a category as the
    extraction leaves it: not empty, and without white space at either
    end. *)
Theorem keys_are_trimmed_categories cfg net sched w m k :
  (buildPostMap cfg net sched w).2 = Returned m →
  is_Some (m !! k) →
  k ≠ [] ∧ trim k = k ∧
  (∀ c r, k = c :: r → is_ws c = false) ∧
  (∀ c, last k = Some c → is_ws c = false).
Proof.
  intros Hm [bucket Hk]. apply buildPostMap_returned in Hm.
  apply (group_by_category_lookup _ _ _ _ Hm) in Hk as [-> Hne].
  destruct (of_category k (survivors cfg net)) as [|a rest] eqn:E; [done|].
  assert (a ∈ of_category k (survivors cfg net)) as Ha by (rewrite E; by left).
  apply list_elem_of_filter in Ha as [<- Ha].
  apply elem_of_survivors in Ha as (f & status & doc & _ & _ & _ & ->).
  rewrite parse_article_fields. simpl.
  destruct (extract_category_trimmed f doc) as [H1 H2].
  repeat split; [done|done| |].
  - intros c r Hc. apply (trim_head (extract_category f doc).1 c r).
    by rewrite H2.
  - intros c Hc. apply (trim_last (extract_category f doc).1 c).
    by rewrite H2.
Qed.

Lemma keys_are_trimmed_categories_witness :
  lit "x" ≠ [] ∧ trim (lit "x") = lit "x" ∧
  (∀ c r, lit "x" = c :: r → is_ws c = false) ∧
  (∀ c, last (lit "x") = Some c → is_ws c = false).
Proof.
  apply (keys_are_trimmed_categories site_ab net_both_x [1; 0]%nat
                                     page_with_main map_x (lit "x")).
  - vm_compute. reflexivity.
  - vm_compute. by eexists.
Defined.

(** X2. The slug of a record is its filename without one final [.html]:
    a filename that ends in [.html] is the slug followed by [.html], any
    other filename is the slug itself; the link of the record leads to
    [postsDir + filename] and shows the slug. *)
Theorem slug_and_filename cfg net article :
  article ∈ survivors cfg net →
  (if ends_with (lit ".html") (filename article)
   then filename article = slug article ++ lit ".html"
   else slug article = filename article) ∧
  slug article `prefix_of` filename article ∧
  attrs_of (link cfg article)
  = [("href"%string, postsDir cfg ++ filename article)] ∧
  textContent (link cfg article) = slug article.
Proof.
  intros Ha.
  apply elem_of_survivors in Ha as (f & status & doc & _ & _ & _ & ->).
  rewrite parse_article_fields. simpl.
  pose proof (strip_html_cases f) as Hc.
  split; [done|]. split; [|split; [done|apply textContent_set]].
  destruct (ends_with (lit ".html") f).
  - by exists (lit ".html").
  - rewrite Hc. done.
Qed.

Lemma slug_and_filename_witness :
  filename article_a = slug article_a ++ lit ".html" ∧
  slug article_a `prefix_of` filename article_a ∧
  attrs_of (link site_ab article_a)
  = [("href"%string, postsDir site_ab ++ filename article_a)] ∧
  textContent (link site_ab article_a) = slug article_a.
Proof.
  apply (slug_and_filename site_ab net_both_x article_a).
  by_decide.
Defined.

(** X3. The content of a record is empty only when no paragraph of the
    document has text and the filename is empty or is [.html] itself; a
    content taken from a paragraph has no white space at either end. *)
Theorem content_is_rarely_empty cfg net filename status doc :
  net (postsDir cfg ++ filename) = Responds status doc →
  Response_ok status = true →
  let article := (parse_article filename doc).1 in
  (fetch_article cfg net filename).2 = Fulfilled (Some article) ∧
  (content article = [] →
   Forall (λ p, trim p = []) (paragraphs doc) ∧
   (filename = [] ∨ filename = lit ".html")) ∧
  (Exists (λ p, trim p ≠ []) (paragraphs doc) →
   content article ≠ [] ∧ trim (content article) = content article).
Proof.
  intros En Eok article. split; [|split].
  - by rewrite (fetch_article_ok _ _ _ _ _ En Eok).
  - unfold article. rewrite parse_article_fields. simpl. unfold extract_content.
    destruct (scan_paragraphs_spec (paragraphs doc) [])
      as [(before & p & after & Hps & Hb & Hp & Hs)|[Hall Hs]]; rewrite Hs.
    + destruct (truthy_str (trim p)) eqn:E; simpl; [done|].
      by apply truthy_str_false in E.
    + simpl. intros Hn. split; [done|]. by apply strip_html_nil.
  - unfold article. rewrite parse_article_fields. simpl. unfold extract_content.
    intros Hex.
    destruct (scan_paragraphs_spec (paragraphs doc) [])
      as [(before & p & after & Hps & Hb & Hp & Hs)|[Hall Hs]]; rewrite Hs.
    + destruct (truthy_str (trim p)) eqn:E; simpl.
      * split; [done|apply trim_idempotent].
      * by apply truthy_str_false in E.
    + exfalso. apply Exists_exists in Hex as (p & Hin & Hp).
      rewrite Forall_forall in Hall. by apply Hp, Hall.
Qed.

Lemma content_is_rarely_empty_witness :
  let article := (parse_article (lit "a.html") doc_x_hello).1 in
  (fetch_article site_ab net_both_x (lit "a.html")).2
  = Fulfilled (Some article) ∧
  (content article = [] →
   Forall (λ p, trim p = []) (paragraphs doc_x_hello) ∧
   (lit "a.html" = [] ∨ lit "a.html" = lit ".html")) ∧
  (Exists (λ p, trim p ≠ []) (paragraphs doc_x_hello) →
   content article ≠ [] ∧ trim (content article) = content article).
Proof.
  apply (content_is_rarely_empty site_ab net_both_x (lit "a.html") 200
                                 doc_x_hello); reflexivity.
Defined.

(** ** Requests *)

Lemma buildPostMap_requests cfg net sched w :
  requests (buildPostMap cfg net sched w).1
  = requests w ++ map (λ f, postsDir cfg ++ f) (postFiles cfg).
Proof.
  unfold buildPostMap. destruct (postFiles cfg) as [|f files].
  - simpl. by rewrite app_nil_r.
  - cbn [length Nat.eqb].
    destruct (Promise_all _ _) as [out [articles|e|]]; [|done..].
    by destruct (group_by_category _).
Qed.

(** X4. On a page with a main region the composer requests every file of
    [postFiles] once, at [postsDir + filename] and in the order of the list,
    however the retrievals end and in whatever order they settle; it
    requests nothing else. *)
Theorem one_request_per_file cfg net sched w content :
  main w = Some content →
  requests (buildAutoIndex cfg net sched w)
  = requests w ++ map (λ f, postsDir cfg ++ f) (postFiles cfg).
Proof.
  intros Hmain. unfold buildAutoIndex. rewrite Hmain.
  pose proof (buildPostMap_requests cfg net sched
                (set_innerHTML loading_markup w)) as Hr.
  destruct (buildPostMap cfg net sched (set_innerHTML loading_markup w))
    as [w1 [m|e|]]; simpl in *; exact Hr.
Qed.

Lemma one_request_per_file_witness :
  requests (buildAutoIndex site_ab net_b_unreachable [1; 0]%nat page_with_main)
  = [lit "posts/a.html"; lit "posts/b.html"].
Proof.
  apply (one_request_per_file site_ab net_b_unreachable [1; 0]%nat
                              page_with_main (mkRegion [] [])).
  reflexivity.
Defined.

(** ** How a run can fail *)

Lemma settle_all_threw {A : Type} sched
    (tasks : list (list entry * settlement A)) values printed out e :
  settle_all sched tasks values printed = (out, Threw e) →
  ∃ i o, tasks !! i = Some (o, Rejected e).
Proof.
  revert values printed.
  induction sched as [|i sched IH]; intros values printed; simpl; [done|].
  destruct (tasks !! i) as [[o s]|] eqn:Et; [|by apply IH].
  destruct (values !! i) as [[v0|]|] eqn:Ev; [by apply IH| |by apply IH].
  destruct s as [v|e'].
  - destruct (mapM id (<[i:=Some v]> values)); [done|]. by apply IH.
  - intros [= <- <-]. by exists i, o.
Qed.

Lemma group_from_inl m0 l e :
  group_from m0 l = inl e →
  e = push_not_a_function ∧
  ∃ article, article ∈ l ∧ category article ∈ Object_prototype_keys.
Proof.
  revert m0. induction l as [|article l IH]; intros m0; simpl; [done|].
  destruct (group_step m0 article) as [e'|m1] eqn:Es.
  - intros [= <-]. split.
    + unfold group_step in Es. by repeat case_match; simplify_eq.
    + exists article. split; [by left|].
      destruct (decide (category article ∈ Object_prototype_keys)); [done|].
      by rewrite group_step_ok in Es.
  - intros H. destruct (IH _ H) as (-> & a & Ha & Hk).
    split; [done|]. exists a. split; [by right|done].
Qed.

(** X5. [buildPostMap] throws for two reasons only: the retrieval of one
    of the files was rejected, and then the error is that rejection; or a
    retrieved category names a property that the category object inherits,
    and then the error is the failed call of [push]. *)
Theorem what_buildPostMap_throws cfg net sched w e :
  (buildPostMap cfg net sched w).2 = Threw e →
  (∃ f, f ∈ postFiles cfg ∧ net (postsDir cfg ++ f) = Rejects e) ∨
  (e = push_not_a_function ∧
   ∃ article, article ∈ survivors cfg net ∧
              category article ∈ Object_prototype_keys).
Proof.
  unfold buildPostMap, survivors.
  destruct (postFiles cfg) as [|f files] eqn:Ef; [done|].
  cbn [length Nat.eqb].
  destruct (Promise_all sched _) as [out joined] eqn:Ep.
  destruct joined as [articles|e'|]; [| |done].
  - apply Promise_all_returned in Ep.
    rewrite (non_null_delivered _ _ _ Ep).
    destruct (group_by_category _) as [e'|m] eqn:Eg; simpl; [|done].
    intros [= <-]. right. by apply group_from_inl in Eg.
  - simpl. intros [= <-]. left. unfold Promise_all in Ep. simpl map in Ep.
    cbv iota in Ep. apply settle_all_threw in Ep as (i & o & Hi).
    rewrite <- fmap_cons in Hi. rewrite list_lookup_fmap in Hi.
    destruct ((f :: files) !! i) as [f'|] eqn:Ei; [|done].
    simpl in Hi. injection Hi as Hi.
    exists f'. split; [by eapply list_elem_of_lookup_2|].
    by eapply fetch_article_rejected.
Qed.

Lemma what_buildPostMap_throws_witness :
  (∃ f, f ∈ postFiles site_a ∧
        net_constructor (postsDir site_a ++ f) = Rejects push_not_a_function) ∨
  (push_not_a_function = push_not_a_function ∧
   ∃ article, article ∈ survivors site_a net_constructor ∧
              category article ∈ Object_prototype_keys).
Proof.
  apply (what_buildPostMap_throws site_a net_constructor [0]%nat page_with_main).
  vm_compute. reflexivity.
Defined.



(** ** A retrieval that never settles *)

Lemma settle_all_pending {A : Type} sched
    (tasks : list (list entry * settlement A)) values printed i :
  values !! i = Some None → i ∉ sched →
  Forall (λ t, ∀ e, t.2 ≠ Rejected e) tasks →
  ∃ out, settle_all sched tasks values printed = (out, Pending).
Proof.
  intros Hi Hni Hrej. revert values printed Hi.
  induction sched as [|j sched IH]; intros values printed Hi; simpl.
  { by eexists. }
  apply not_elem_of_cons in Hni as [Hne Hni].
  destruct (tasks !! j) as [[o s]|] eqn:Et; [|by apply IH].
  destruct (values !! j) as [[v0|]|] eqn:Ev; [by apply IH| |by apply IH].
  destruct s as [v|e].
  - assert (<[j:=Some v]> values !! i = Some None) as Hi'
      by by rewrite list_lookup_insert_ne.
    destruct (mapM id (<[j:=Some v]> values)) as [vs|] eqn:Em; [|by apply IH].
    exfalso. apply mapM_Some_1 in Em.
    destruct (Forall2_lookup_l _ _ _ _ _ Em Hi') as (y & _ & Hy).
    discriminate Hy.
  - exfalso. rewrite Forall_forall in Hrej.
    apply (Hrej (o, Rejected e)) with e; [|done].
    by eapply list_elem_of_lookup_2.
Qed.

(** X7. There is no timeout: when the retrieval of one file never
    settles and none is rejected, [buildPostMap] never returns, whatever
    the other retrievals do, and the page stays on the loading text. *)
Theorem unsettled_retrieval_stalls cfg net sched w content i :
  main w = Some content →
  (i < length (postFiles cfg))%nat → i ∉ sched →
  (∀ f e, f ∈ postFiles cfg → net (postsDir cfg ++ f) ≠ Rejects e) →
  (buildPostMap cfg net sched w).2 = Pending ∧
  main (buildAutoIndex cfg net sched w) = Some (mkRegion loading_markup []).
Proof.
  intros Hmain Hi Hni Hnet.
  assert (∀ w0, (buildPostMap cfg net sched w0).2 = Pending ∧
                main (buildPostMap cfg net sched w0).1 = main w0) as Hp.
  { intros w0. unfold buildPostMap.
    destruct (postFiles cfg) as [|f files] eqn:Ef; [simpl in Hi; lia|].
    cbn [length Nat.eqb]. unfold Promise_all. simpl map. cbv iota.
    destruct (settle_all_pending (A:=option ArticleRecord) sched
                (fetch_article cfg net f :: map (fetch_article cfg net) files)
                (replicate (length (fetch_article cfg net f
                                    :: map (fetch_article cfg net) files)) None)
                [] i) as [out Hout].
    - apply open_slot. simpl. rewrite length_map. simpl in Hi. lia.
    - done.
    - apply Forall_forall. intros [o s] Ht e He. simpl in He. subst s.
      rewrite <- fmap_cons in Ht.
      apply list_elem_of_fmap in Ht as (f' & Hf' & Hin).
      symmetry in Hf'. apply fetch_article_rejected in Hf'.
      by apply (Hnet f' e).
    - rewrite Hout. done. }
  split; [apply Hp|].
  unfold buildAutoIndex. rewrite Hmain.
  destruct (Hp (set_innerHTML loading_markup w)) as [H1 H2].
  destruct (buildPostMap cfg net sched (set_innerHTML loading_markup w))
    as [w1 r]. simpl in *. subst r. exact H2.
Qed.

Lemma unsettled_retrieval_stalls_witness :
  (buildPostMap site_ab net_slow [0]%nat page_with_main).2 = Pending ∧
  main (buildAutoIndex site_ab net_slow [0]%nat page_with_main)
  = Some (mkRegion loading_markup []).
Proof.
  apply (unsettled_retrieval_stalls site_ab net_slow [0]%nat page_with_main
                                    (mkRegion [] []) 1%nat).
  - reflexivity.
  - simpl. lia.
  - by_decide.
  - intros f e Hf. each_file Hf.
Defined.

(** ** The order of settlement *)

(** X8. When every retrieval settles and none is rejected, the result of
    [buildPostMap], a map or the error of the grouping, is the same under
    every order of settlement. *)
Theorem result_independent_of_schedule cfg net sched sched' w w' :
  settles_all sched (length (postFiles cfg)) →
  settles_all sched' (length (postFiles cfg)) →
  (∀ f e, f ∈ postFiles cfg → net (postsDir cfg ++ f) ≠ Rejects e) →
  (buildPostMap cfg net sched w).2 = (buildPostMap cfg net sched' w').2 ∧
  (buildPostMap cfg net sched w).2 ≠ Pending.
Proof.
  intros Hs Hs' Hnet.
  rewrite (buildPostMap_settled cfg net sched w Hs Hnet).
  rewrite (buildPostMap_settled cfg net sched' w' Hs' Hnet).
  split; [done|]. by destruct (group_by_category _).
Qed.

Lemma result_independent_of_schedule_witness :
  (buildPostMap site_ab net_b_missing [0; 1]%nat page_with_main).2
  = (buildPostMap site_ab net_b_missing [1; 1; 0]%nat page_without_main).2 ∧
  (buildPostMap site_ab net_b_missing [0; 1]%nat page_with_main).2 ≠ Pending.
Proof.
  apply (result_independent_of_schedule site_ab net_b_missing [0; 1]%nat
           [1; 1; 0]%nat page_with_main page_without_main).
  - each_index.
  - each_index.
  - intros f e Hf. each_file Hf.
Defined.

(** ** What is printed *)

Lemma unprinted_settled {A : Type}
    (tasks : list (list entry * settlement A)) values vs :
  mapM id values = Some vs → unprinted tasks values = [].
Proof.
  intros Hm. apply mapM_Some_1 in Hm. unfold unprinted.
  revert tasks. induction Hm as [|ov v values vs Hv _ IH]; intros tasks.
  - by destruct tasks.
  - destruct tasks as [|t tasks]; [done|]. simpl in *. subst ov. apply IH.
Qed.

Lemma unprinted_insert {A : Type}
    (tasks : list (list entry * settlement A)) values i o s v :
  tasks !! i = Some (o, s) → values !! i = Some None →
  unprinted tasks values ≡ₚ o ++ unprinted tasks (<[i:=Some v]> values).
Proof.
  unfold unprinted. revert values i.
  induction tasks as [|t tasks IH]; intros values i Ht Hv; [done|].
  destruct values as [|ov values]; [done|]. destruct i as [|i]; simpl in *.
  - simplify_eq. done.
  - rewrite (IH values i Ht Hv).
    rewrite !app_assoc. apply Permutation_app_tail, Permutation_app_comm.
Qed.

Lemma settle_all_printed {A : Type} sched
    (tasks : list (list entry * settlement A)) values printed out vs :
  settle_all sched tasks values printed = (out, Returned vs) →
  out ≡ₚ printed ++ unprinted tasks values.
Proof.
  revert values printed.
  induction sched as [|i sched IH]; intros values printed; simpl; [done|].
  destruct (tasks !! i) as [[o s]|] eqn:Et; [|by apply IH].
  destruct (values !! i) as [[v0|]|] eqn:Ev; [by apply IH| |by apply IH].
  destruct s as [v|e]; [|done].
  rewrite (unprinted_insert tasks values i o _ v Et Ev), app_assoc.
  destruct (mapM id (<[i:=Some v]> values)) as [vs'|] eqn:Em; [|by apply IH].
  intros [= <- <-]. by rewrite (unprinted_settled tasks _ _ Em), app_nil_r.
Qed.

Lemma unprinted_init {A : Type} (tasks : list (list entry * settlement A)) :
  unprinted tasks (replicate (length tasks) None) = concat (tasks.*1).
Proof.
  unfold unprinted. induction tasks as [|t tasks IH]; [done|].
  simpl. by rewrite IH.
Qed.

(** X9. When [buildPostMap] returns, the console holds, after what it held
    and the line that counts the files, the lines of the callbacks and no
    others, those of each callback once: one warning for each file answered
    with a failure status, one note for each file without a category. *)
Theorem each_callback_prints_once cfg net sched w m :
  postFiles cfg ≠ [] →
  (buildPostMap cfg net sched w).2 = Returned m →
  ∃ printed,
    console (buildPostMap cfg net sched w).1
    = console w
      ++ LogList (msg_found (length (postFiles cfg))) (postFiles cfg) :: printed ∧
    printed ≡ₚ concat (map (λ f, (fetch_article cfg net f).1) (postFiles cfg)).
Proof.
  intros Hne. unfold buildPostMap.
  destruct (postFiles cfg) as [|f files] eqn:Ef; [done|].
  cbn [length Nat.eqb].
  destruct (Promise_all sched _) as [out joined] eqn:Ep.
  destruct joined as [articles|e|]; [|done..].
  intros _. exists out. split.
  - destruct (group_by_category _); simpl; by rewrite <- app_assoc.
  - unfold Promise_all in Ep. simpl map in Ep. cbv iota in Ep.
    apply settle_all_printed in Ep. rewrite Ep, app_nil_l, unprinted_init.
    apply reflexive_eq. f_equal. simpl. f_equal.
    clear. induction files as [|f' files IH]; [done|]. simpl. by f_equal.
Qed.

Lemma each_callback_prints_once_witness :
  ∃ printed,
    console (buildPostMap site_ab net_b_missing [1; 0]%nat page_with_main).1
    = console page_with_main
      ++ LogList (msg_found (length (postFiles site_ab))) (postFiles site_ab)
         :: printed ∧
    printed ≡ₚ concat (map (λ f, (fetch_article site_ab net_b_missing f).1)
                           (postFiles site_ab)).
Proof.
  apply (each_callback_prints_once site_ab net_b_missing [1; 0]%nat
                                   page_with_main {[ lit "x" := [article_a] ]}).
  - discriminate.
  - vm_compute. reflexivity.
Defined.

(** ** Nothing is lost between retrieval and page *)

Lemma all_records_step m article m' :
  group_step m article = inr m' →
  all_records m' ≡ₚ article :: all_records m.
Proof.
  intros ->%group_step_inr. unfold all_records.
  destruct (m !! category article) as [l|] eqn:E; simpl.
  - rewrite <- insert_delete_eq.
    rewrite map_to_list_insert by apply lookup_delete_eq.
    rewrite <- (map_to_list_delete m _ _ E). simpl.
    rewrite <- !app_assoc. simpl. by rewrite <- Permutation_middle.
  - by rewrite map_to_list_insert.
Qed.

Lemma all_records_group m0 l m :
  group_from m0 l = inr m → all_records m ≡ₚ l ++ all_records m0.
Proof.
  revert m0. induction l as [|article l IH]; intros m0; simpl.
  - by intros [= <-].
  - destruct (group_step m0 article) as [e|m1] eqn:Es; [done|].
    intros H. rewrite (IH _ H), (all_records_step _ _ _ Es).
    by rewrite <- Permutation_middle.
Qed.

Lemma flat_map_keys (m : gmap jsstr (list ArticleRecord)) :
  flat_map (articles_of m) (Object_keys m) = all_records m.
Proof.
  unfold Object_keys, all_records.
  assert (∀ kv, kv ∈ map_to_list m → articles_of m kv.1 = kv.2) as H.
  { intros [k v] Hin. apply elem_of_map_to_list in Hin.
    unfold articles_of. simpl. by rewrite Hin. }
  induction (map_to_list m) as [|kv l IH]; [done|].
  simpl. rewrite (H kv) by by left. f_equal. apply IH.
  intros kv' Hin. apply H. by right.
Qed.

Lemma flat_map_perm {A B : Type} (f : A → list B) l l' :
  l ≡ₚ l' → flat_map f l ≡ₚ flat_map f l'.
Proof.
  induction 1 as [|x l l' _ IH|x y l|l l' l'' _ IH1 _ IH2]; simpl.
  - done.
  - by rewrite IH.
  - rewrite !app_assoc. apply Permutation_app_tail, Permutation_app_comm.
  - by rewrite IH1.
Qed.

Lemma rendered_links (cfg : SiteConfig) (m : gmap jsstr (list ArticleRecord)) :
  flat_map (λ dd, links_of (kids_of dd))
           (description_nodes (buildCategoryList cfg m))
  = map (link cfg) (flat_map (articles_of m) (sort (Object_keys m))).
Proof.
  rewrite description_nodes_sorted_keys.
  induction (sort (Object_keys m)) as [|k ks IH]; [done|].
  cbn [map flat_map]. rewrite IH, description_node_kids, join_links.
  by rewrite map_app.
Qed.

(** X10. Every retrieved article is linked from the rendered list once:
    the links of all description nodes together are the links of the
    retrieved records, none missing, none twice, none besides. *)
Theorem every_article_is_linked_once cfg net sched w m :
  (buildPostMap cfg net sched w).2 = Returned m →
  flat_map (λ dd, links_of (kids_of dd))
           (description_nodes (buildCategoryList cfg m))
  ≡ₚ map (link cfg) (survivors cfg net).
Proof.
  intros Hm. apply buildPostMap_returned in Hm.
  rewrite rendered_links. apply Permutation_map.
  rewrite (flat_map_perm _ _ _ (sort_permutation (Object_keys m))).
  rewrite flat_map_keys. rewrite (all_records_group _ _ _ Hm).
  unfold all_records. rewrite map_to_list_empty. simpl. by rewrite app_nil_r.
Qed.

Lemma every_article_is_linked_once_witness :
  flat_map (λ dd, links_of (kids_of dd))
           (description_nodes (buildCategoryList site_ab map_x))
  ≡ₚ map (link site_ab) (survivors site_ab net_both_x).
Proof.
  apply (every_article_is_linked_once site_ab net_both_x [1; 0]%nat
                                      page_with_main map_x).
  vm_compute. reflexivity.
Defined.

(** ** What the reader sees *)

Lemma textContent_joined cfg articles :
  flat_map textContent (join_with separator (map (link cfg) articles))
  = join_str (lit "; ") (map slug articles).
Proof.
  induction articles as [|a [|b rest] IH]; [done| |].
  - simpl. rewrite textContent_set. by rewrite !app_nil_r.
  - change (join_with separator (map (link cfg) (a :: b :: rest)))
      with (link cfg a :: separator
              :: join_with separator (map (link cfg) (b :: rest))).
    change (join_str (lit "; ") (map slug (a :: b :: rest)))
      with (slug a ++ lit "; " ++ join_str (lit "; ") (map slug (b :: rest))).
    cbn [flat_map]. rewrite IH. f_equal.
    simpl. by rewrite textContent_set.
Qed.

(** X11. The text of a description node is the slugs of its bucket, in
    the order of the bucket, joined by ["; "]: for no article the empty
    text, for one article its slug alone. *)
Theorem description_reads_as_joined_slugs cfg articles :
  textContent (description_node cfg articles)
  = join_str (lit "; ") (map slug articles).
Proof.
  change (textContent (description_node cfg articles))
    with (flat_map textContent (kids_of (description_node cfg articles))).
  rewrite description_node_kids. apply textContent_joined.
Qed.

(** ** The ends of the composer *)

(** X12. With an empty list of files nothing is requested and a warning
    is printed; the page is still built: header, a table whose category
    list has no entry, footer. *)
Theorem empty_file_list_renders_an_empty_list cfg net sched w content :
  postFiles cfg = [] → main w = Some content →
  let w' := buildAutoIndex cfg net sched w in
  requests w' = requests w ∧
  console w'
  = console w ++ [Warn (lit "No articles found in the posts/ directory.");
                  Log (lit "Knowledge base index built successfully!")] ∧
  main w' = Some (mkRegion [] [buildHeader cfg; createKnowledgeTable cfg ∅;
                               buildFooter cfg]) ∧
  kids_of (buildCategoryList cfg ∅) = [].
Proof.
  intros Hf Hmain w'. unfold w', buildAutoIndex, buildPostMap.
  rewrite Hmain, Hf. simpl. by rewrite <- app_assoc.
Qed.

Lemma empty_file_list_renders_an_empty_list_witness :
  let w' := buildAutoIndex site_empty net_both_x [] page_with_main in
  requests w' = requests page_with_main ∧
  console w'
  = console page_with_main
    ++ [Warn (lit "No articles found in the posts/ directory.");
        Log (lit "Knowledge base index built successfully!")] ∧
  main w' = Some (mkRegion [] [buildHeader site_empty;
                               createKnowledgeTable site_empty ∅;
                               buildFooter site_empty]) ∧
  kids_of (buildCategoryList site_empty ∅) = [].
Proof.
  apply (empty_file_list_renders_an_empty_list site_empty net_both_x []
                                               page_with_main (mkRegion [] []));
    reflexivity.
Defined.

(** X13. When [buildPostMap] returns, the main region is emptied of the
    loading text and holds, in this order, the header, the table rendered
    from the returned map, and the footer; the table has one row of three
    cells with the category list in the middle one; the last line printed
    reports the success. *)
Theorem returned_map_is_laid_out cfg net sched w content m :
  main w = Some content →
  (buildPostMap cfg net sched w).2 = Returned m →
  let w' := buildAutoIndex cfg net sched w in
  main w' = Some (mkRegion [] [buildHeader cfg; createKnowledgeTable cfg m;
                               buildFooter cfg]) ∧
  (∃ left right,
     kids_of (createKnowledgeTable cfg m)
     = [Elem "tr" [] [left; Elem "td" [("class"%string, lit "posts")]
                                  [buildCategoryList cfg m]; right]]) ∧
  last (console w') = Some (Log (lit "Knowledge base index built successfully!")).
Proof.
  intros Hmain Hm w'. split; [by eapply returned_map_is_rendered|].
  split; [by eexists _, _|].
  unfold w', buildAutoIndex. rewrite Hmain.
  rewrite (buildPostMap_result _ _ _ w (set_innerHTML loading_markup w)) in Hm.
  destruct (buildPostMap cfg net sched (set_innerHTML loading_markup w))
    as [w1 r] eqn:E.
  simpl in Hm. subst r. simpl. apply last_snoc.
Qed.

Lemma returned_map_is_laid_out_witness :
  let w' := buildAutoIndex site_ab net_both_x [1; 0]%nat page_with_main in
  main w' = Some (mkRegion [] [buildHeader site_ab;
                               createKnowledgeTable site_ab map_x;
                               buildFooter site_ab]) ∧
  (∃ left right,
     kids_of (createKnowledgeTable site_ab map_x)
     = [Elem "tr" [] [left; Elem "td" [("class"%string, lit "posts")]
                                  [buildCategoryList site_ab map_x]; right]]) ∧
  last (console w') = Some (Log (lit "Knowledge base index built successfully!")).
Proof.
  apply (returned_map_is_laid_out site_ab net_both_x [1; 0]%nat page_with_main
                                  (mkRegion [] []) map_x).
  - reflexivity.
  - vm_compute. reflexivity.
Defined.

(** ** The shape of the list *)

Lemma alternating_lookup {A B : Type} (f g : A → B) (l : list A) i x :
  l !! i = Some x →
  flat_map (λ y, [f y; g y]) l !! (2 * i)%nat = Some (f x) ∧
  flat_map (λ y, [f y; g y]) l !! (2 * i + 1)%nat = Some (g x).
Proof.
  revert i. induction l as [|y l IH]; intros i Hi; [done|].
  destruct i as [|i].
  - injection Hi as ->. by split.
  - simpl in Hi. destruct (IH i Hi) as [H1 H2].
    replace (2 * S i)%nat with (S (S (2 * i))) by lia.
    replace (S (S (2 * i)) + 1)%nat with (S (S (2 * i + 1))) by lia.
    by split.
Qed.

Lemma alternating_length {A B : Type} (f g : A → B) (l : list A) :
  length (flat_map (λ y, [f y; g y]) l) = (2 * length l)%nat.
Proof. induction l as [|y l IH]; simpl; [done|]. rewrite IH. lia. Qed.

(** X14. The rendered list holds two nodes for each category and no
    others: at the even places the term nodes, in sort order, and after
    each of them the description node of its bucket. *)
Theorem list_alternates_terms_and_descriptions (cfg : SiteConfig)
    (postMap : gmap jsstr (list ArticleRecord)) :
  let dl := buildCategoryList cfg postMap in
  length (kids_of dl) = (2 * size postMap)%nat ∧
  ∀ i k, sort (Object_keys postMap) !! i = Some k →
         kids_of dl !! (2 * i)%nat = Some (term_node k) ∧
         kids_of dl !! (2 * i + 1)%nat
         = Some (description_node cfg (articles_of postMap k)).
Proof.
  intros dl. unfold dl. rewrite buildCategoryList_kids. split.
  - rewrite alternating_length, (Permutation_length (sort_permutation _)).
    unfold Object_keys. rewrite length_fmap. by rewrite length_map_to_list.
  - intros i k Hi.
    by apply (alternating_lookup term_node
                (λ c, description_node cfg (articles_of postMap c))).
Qed.

Lemma list_alternates_terms_and_descriptions_witness :
  length (kids_of (buildCategoryList site_empty map_zoo)) = 6%nat ∧
  kids_of (buildCategoryList site_empty map_zoo) !! 2%nat
  = Some (term_node (lit "beta")) ∧
  kids_of (buildCategoryList site_empty map_zoo) !! 3%nat
  = Some (description_node site_empty [in_category "beta" "b"]).
Proof.
  destruct (list_alternates_terms_and_descriptions site_empty map_zoo)
    as [Hlen Hat].
  split; [exact Hlen|].
  apply (Hat 1%nat (lit "beta")). vm_compute. reflexivity.
Defined.

End AutoIndexExtra.

(* ===================================================================== *)
(** * More about [js/auto-toc.js]                                          *)
(* ===================================================================== *)

Module AutoTocExtra.
Import Js JsFacts JsExtra AutoToc AutoTocSpec.


(** ** [generateSlug] *)



Lemma kept_not_replaced c :
  is_word c || is_ws c || (c =? hyphen)%N = true →
  is_ws c || (c =? 95)%N = false →
  is_alnum c = true ∨ c = hyphen.
Proof.
  intros Hk Hr. apply orb_false_elim in Hr as [Hws Hu].
  rewrite Hws, orb_false_r in Hk. apply orb_prop in Hk as [Hw|Hh].
  - left. unfold is_alnum. by rewrite Hw, Hu.
  - right. by apply N.eqb_eq.
Qed.

Lemma collapse_runs_chars in_run s :
  Forall (λ c, is_word c || is_ws c || (c =? hyphen)%N = true) s →
  Forall (λ c, is_alnum c = true ∨ c = hyphen) (collapse_runs in_run s).
Proof.
  intros H. revert in_run. induction H as [|c s Hc _ IH]; intros in_run; simpl.
  - constructor.
  - destruct (is_ws c || (c =? 95)%N) eqn:E.
    + destruct in_run; [apply IH|]. constructor; [by right|apply IH].
    + constructor; [by apply kept_not_replaced|apply IH].
Qed.

Lemma drop_hyphens_split s :
  ∃ pre, s = pre ++ drop_hyphens s ∧ Forall (λ c, c = hyphen) pre.
Proof.
  induction s as [|c s (pre & Hs & Hpre)]; simpl.
  - exists []. by split.
  - destruct (c =? hyphen)%N eqn:E.
    + apply N.eqb_eq in E. exists (c :: pre).
      split; [by rewrite Hs at 1|by constructor].
    + exists []. by split.
Qed.

Lemma drop_hyphens_head s c r : drop_hyphens s = c :: r → c ≠ hyphen.
Proof.
  induction s as [|x s IH]; simpl; [done|].
  destruct (x =? hyphen)%N eqn:E; [done|].
  intros [= <- <-]. by apply N.eqb_neq.
Qed.

Lemma drop_hyphens_Forall (P : N → Prop) s :
  Forall P s → Forall P (drop_hyphens s).
Proof.
  destruct (drop_hyphens_split s) as (pre & Hs & _).
  intros H. rewrite Hs in H. by apply Forall_app in H as [_ ?].
Qed.


(** The two-sided removal of hyphens, as [replace(/^-+|-+$/g, '')]. *)
Lemma strip_hyphens_head s c r :
  rev (drop_hyphens (rev (drop_hyphens s))) = c :: r → c ≠ hyphen.
Proof.
  destruct (drop_hyphens_split (rev (drop_hyphens s))) as (pre & Hs & _).
  intros H. apply (f_equal (@rev N)) in Hs.
  rewrite rev_involutive, rev_app_distr, H in Hs.
  by apply (drop_hyphens_head s c (r ++ rev pre)).
Qed.

Lemma strip_hyphens_last s c :
  last (rev (drop_hyphens (rev (drop_hyphens s)))) = Some c → c ≠ hyphen.
Proof.
  destruct (drop_hyphens (rev (drop_hyphens s))) as [|c' u] eqn:E; [done|].
  simpl. rewrite last_snoc. intros [= <-]. by eapply drop_hyphens_head.
Qed.


Section Slug.
Variable toLowerCase : jsstr → jsstr.

(** X15. Whatever the text and the case folding of the engine, a slug is
    made of ASCII letters, digits and hyphens only, and neither begins nor
    ends with a hyphen. *)
Theorem slug_is_url_friendly text :
  let s := generateSlug toLowerCase text in
  Forall (λ c, is_alnum c = true ∨ c = hyphen) s ∧
  (∀ c r, s = c :: r → is_alnum c = true) ∧
  (∀ c, last s = Some c → is_alnum c = true).
Proof.
  intros s.
  assert (Forall (λ c, is_alnum c = true ∨ c = hyphen) s) as Hall.
  { unfold s, generateSlug. apply Forall_rev, drop_hyphens_Forall, Forall_rev,
      drop_hyphens_Forall, collapse_runs_chars.
    apply Forall_forall. intros c Hc. by apply list_elem_of_filter in Hc as [? _]. }
  split; [done|]. split.
  - intros c r Hs. rewrite Hs in Hall. apply Forall_cons in Hall as [[?|Hc] _]; [done|].
    exfalso. by apply (strip_hyphens_head _ _ _ Hs).
  - intros c Hl. assert (c ∈ s) as Hin.
    { destruct s as [|x s'] using rev_ind; [done|].
      rewrite last_snoc in Hl. injection Hl as ->. apply elem_of_app. right. by left. }
    rewrite Forall_forall in Hall. destruct (Hall c Hin) as [?|Hc]; [done|].
    exfalso. by apply (strip_hyphens_last _ _ Hl).
Qed.



(** ** [generateUniqueId] *)

Lemma generateUniqueId_loop_first d heading baseSlug fuel id counter id' :
  generateUniqueId_loop fuel d heading baseSlug id counter = Some id' →
  id' = id ∨
  (taken d heading id ∧
   ∃ k, (counter ≤ k)%N ∧ id' = candidate baseSlug k ∧
        ∀ j, (counter ≤ j < k)%N → taken d heading (candidate baseSlug j)).
Proof.
  revert id counter. induction fuel as [|fuel IH]; intros id counter; [done|].
  simpl. destruct (getElementById d id) as [other|] eqn:E; [|intros [= <-]; by left].
  destruct (other =? heading)%nat eqn:Eo; simpl; [intros [= <-]; by left|].
  apply Nat.eqb_neq in Eo. intros H. right. split; [by exists other|].
  destruct (IH _ _ H) as [->|(Ht & k & Hk & -> & Hj)].
  - exists counter. split; [lia|]. split; [done|]. intros j Hlt. lia.
  - exists k. split; [lia|]. split; [done|]. intros j Hlt.
    destruct (decide (j = counter)) as [->|Hne]; [done|]. apply Hj. lia.
Qed.


(** ** How a run can fail *)

Lemma body_is_element d n : body d = Some n → ∃ b t a ks, n = El b t a ks.
Proof.
  unfold body. intros H. apply find_some in H as [_ Ht].
  destruct n as [b t a ks|s]; [by eexists _, _, _, _|done].
Qed.

Lemma getOrCreateContainer_error d e :
  getOrCreateContainer d = inl e ↔
  getElementById d CONFIG_containerId = None ∧ body d = None ∧
  e = null_firstChild.
Proof.
  unfold getOrCreateContainer.
  destruct (getElementById d CONFIG_containerId) as [c|]; [by split; [|intros [? _]]|].
  unfold createElement. cbv beta iota zeta.
  change (body (mkDocument (readyState d) (listeners d) (root d) (detached d)
                           (S (fresh d)))) with (body d).
  destruct (body d) as [n|] eqn:Eb.
  - destruct (body_is_element d n Eb) as (b & t & a & ks & ->).
    split; [done|]. by intros (_ & ? & _).
  - split; [by intros [= <-]|]. by intros (_ & _ & ->).
Qed.




End Slug.

Lemma slug_is_url_friendly_witness :
  generateSlug ascii_lower (lit "  Hello,  World_x -- ") = lit "hello-world-x" ∧
  Forall (λ c, is_alnum c = true ∨ c = hyphen) (lit "hello-world-x").
Proof.
  destruct (slug_is_url_friendly ascii_lower (lit "  Hello,  World_x -- "))
    as [Hall _].
  split; [vm_compute; reflexivity|]. exact Hall.
Defined.


(** On the sample page the slug of the first heading is the id of a
    paragraph already: the heading gets the first free candidate. *)
Lemma first_free_on_the_sample :
  generateUniqueId (page complete chapters) 3 (lit "getting-started")
  = Some (lit "getting-started-1") ∧
  taken (page complete chapters) 3 (lit "getting-started").
Proof. split; [reflexivity|]. exists 4%nat. by split. Qed.


End AutoTocExtra.

(* ===================================================================== *)
(** * The tree under [js/auto-toc.js]                                      *)
(* ===================================================================== *)

Module AutoTocTree.
Import Js JsFacts JsExtra AutoToc AutoTocSpec.

(** ** Induction over a tree and its children *)

Lemma node_ind_kids (P : node → Prop) :
  (∀ s, P (Tx s)) →
  (∀ i t a ks, Forall P ks → P (El i t a ks)) →
  ∀ n, P n.
Proof.
  intros HT HE. fix IH 1. intros [i t a ks|s]; [|apply HT].
  apply HE. induction ks as [|k ks IHks]; constructor; [apply IH|apply IHks].
Qed.

Lemma find_app {A : Type} (P : A → bool) l1 l2 :
  find P (l1 ++ l2)
  = match find P l1 with Some x => Some x | None => find P l2 end.
Proof.
  induction l1 as [|x l1 IH]; simpl; [done|]. by destruct (P x).
Qed.

Lemma find_none_iff {A : Type} (P : A → bool) l :
  find P l = None ↔ Forall (λ x, P x = false) l.
Proof.
  induction l as [|x l IH]; simpl.
  - split; [constructor|done].
  - destruct (P x) eqn:E.
    + split; [done|]. inversion 1; congruence.
    + rewrite IH. split; [by constructor|by inversion 1].
Qed.

Lemma omap_flat_map {A B C : Type} (f : B → option C) (g : A → list B) l :
  omap f (flat_map g l) = flat_map (λ x, omap f (g x)) l.
Proof.
  induction l as [|x l IH]; [done|]. cbn [flat_map]. by rewrite omap_app, IH.
Qed.

Lemma flat_map_Forall_ext {A B : Type} (f g : A → list B) l :
  Forall (λ x, f x = g x) l → flat_map f l = flat_map g l.
Proof. induction 1 as [|x l Hx _ IH]; [done|]. simpl. by rewrite Hx, IH. Qed.

Lemma map_Forall_ext {A B : Type} (f g : A → B) l :
  Forall (λ x, f x = g x) l → map f l = map g l.
Proof. induction 1 as [|x l Hx _ IH]; [done|]. simpl. by rewrite Hx, IH. Qed.

Lemma ids_elements n : omap node_id (elements n) = ids n.
Proof.
  induction n as [s|i t a ks IH] using node_ind_kids; [done|].
  change (i :: omap node_id (flat_map elements ks) = i :: flat_map ids ks).
  f_equal. rewrite omap_flat_map. by apply flat_map_Forall_ext.
Qed.

Lemma elem_of_ids n e i :
  e ∈ elements n → node_id e = Some i → i ∈ ids n.
Proof.
  intros He Hi. rewrite <- ids_elements. apply list_elem_of_omap. eauto.
Qed.

Lemma find_node_in_ids x n y :
  find (is_node x) (elements n) = Some y → node_id y = Some x ∧ x ∈ ids n.
Proof.
  intros H. apply find_some in H as [Hin Hx].
  assert (node_id y = Some x) as Hy.
  { destruct y as [j t a ks|s]; [|done]. simpl in Hx.
    apply Nat.eqb_eq in Hx. by subst. }
  split; [done|]. eapply elem_of_ids; [|done]. by apply list_elem_of_In.
Qed.

Lemma find_node_absent x n :
  x ∉ ids n → find (is_node x) (elements n) = None.
Proof.
  intros Hx. destruct (find _ _) as [y|] eqn:E; [|done].
  by apply find_node_in_ids in E as [_ ?].
Qed.

Lemma find_node_present x n :
  x ∈ ids n → is_Some (find (is_node x) (elements n)).
Proof.
  intros Hx. destruct (find _ _) as [y|] eqn:E; [by eexists|].
  exfalso. rewrite <- ids_elements in Hx.
  apply list_elem_of_omap in Hx as (e & He & Hi).
  apply find_none with (x := e) in E; [|by apply list_elem_of_In].
  destruct e as [j t a ks|s]; [|done]. simpl in *.
  injection Hi as ->. by rewrite Nat.eqb_refl in E.
Qed.

(** ** An update that misses *)

Lemma update_absent target g n : target ∉ ids n → update target g n = n.
Proof.
  induction n as [s|i t a ks IH] using node_ind_kids; [done|].
  simpl. intros Hn. apply not_elem_of_cons in Hn as [Hne Hn].
  rewrite (proj2 (Nat.eqb_neq i target)) by done. f_equal.
  rewrite <- (map_id ks) at 2. apply map_Forall_ext.
  rewrite Forall_forall in IH. apply Forall_forall. intros k Hk.
  apply IH; [done|]. intros Hin. apply Hn.
  apply list_elem_of_In, in_flat_map. exists k.
  split; by apply list_elem_of_In.
Qed.

Lemma update_ext target g g' n :
  (∀ y, g y = g' y) → update target g n = update target g' n.
Proof.
  intros Hg. induction n as [s|i t a ks IH] using node_ind_kids; [done|].
  simpl. destruct (i =? target)%nat; [apply Hg|]. f_equal.
  by apply map_Forall_ext.
Qed.

Lemma set_attr_grow name v n : set_attr name v n = grow (set_assoc name v) [] [] n.
Proof. destruct n; [|done]. simpl. by rewrite app_nil_r. Qed.

Lemma push_kid_grow k n : push_kid k n = grow id [] [k] n.
Proof. by destruct n. Qed.

Lemma unshift_kid_grow k n : unshift_kid k n = grow id [k] [] n.
Proof. destruct n; [|done]. simpl. by rewrite app_nil_r. Qed.

(** ** Looking an element up after a change *)

Lemma sub_ids n e : e ∈ elements n → ∀ x, x ∈ ids e → x ∈ ids n.
Proof.
  induction n as [s|i t a ks IH] using node_ind_kids; [by intros ?%elem_of_nil|].
  cbn [elements ids]. intros [->|He]%elem_of_cons x Hx; [done|]. right.
  apply list_elem_of_In, in_flat_map in He as (k & Hk & He).
  apply list_elem_of_In. apply in_flat_map. exists k. split; [done|].
  apply list_elem_of_In. rewrite Forall_forall in IH.
  apply (IH k); [|by apply list_elem_of_In|done]. by apply list_elem_of_In.
Qed.

Lemma find_forest_map (P : node → bool) (U : node → node) ns :
  Forall (λ k, find P (elements (U k)) = U <$> find P (elements k)) ns →
  find P (flat_map elements (map U ns)) = U <$> find P (flat_map elements ns).
Proof.
  induction 1 as [|k ns Hk _ IH]; [done|].
  cbn [map flat_map]. rewrite !find_app, Hk, IH.
  by destruct (find P (elements k)).
Qed.

Lemma NoDup_forest_kid ns k :
  NoDup (flat_map ids ns) → k ∈ ns → NoDup (ids k).
Proof.
  induction ns as [|k' ns IH]; [by intros _ ?%elem_of_nil|].
  cbn [flat_map]. intros [H1 [_ H2]]%NoDup_app [->|Hk]%elem_of_cons; auto.
Qed.

Lemma find_node_El x i t a ks :
  find (is_node x) (elements (El i t a ks))
  = if (x =? i)%nat then Some (El i t a ks)
    else find (is_node x) (flat_map elements ks).
Proof. done. Qed.

Lemma find_forest_absent x l :
  x ∉ flat_map ids l → find (is_node x) (flat_map elements l) = None.
Proof.
  intros Hl. destruct (find _ _) as [y|] eqn:E; [|done]. exfalso.
  apply find_some in E as [Hin Hy].
  apply in_flat_map in Hin as (k & Hk & Hin). apply Hl.
  apply list_elem_of_In, in_flat_map. exists k. split; [done|].
  apply list_elem_of_In. apply (sub_ids k y); [by apply list_elem_of_In|].
  destruct y as [j ? ? ?|]; [|done]. simpl in Hy.
  apply Nat.eqb_eq in Hy as ->. by left.
Qed.

Lemma find_forest_ids (P : node → bool) l y :
  find P (flat_map elements l) = Some y → ∀ x, x ∈ ids y → x ∈ flat_map ids l.
Proof.
  intros E x Hx. apply find_some in E as [Hy _].
  apply in_flat_map in Hy as (k & Hk & Hy).
  apply list_elem_of_In, in_flat_map. exists k. split; [done|].
  apply list_elem_of_In. by apply (sub_ids k y); [apply list_elem_of_In|].
Qed.

Section Grow.
Variables (ga : list (string * jsstr) → list (string * jsstr)).
Variables (pre post : list node).

Lemma lookup_update_grow target x n :
  NoDup (ids n) → x ∉ flat_map ids (pre ++ post) →
  find (is_node x) (elements (update target (grow ga pre post) n))
  = update target (grow ga pre post) <$> find (is_node x) (elements n).
Proof.
  intros Hnd Hx. induction n as [s|i t a ks IH] using node_ind_kids; [done|].
  cbn [ids] in Hnd. apply NoDup_cons in Hnd as [Hi Hnd].
  rewrite flat_map_app, not_elem_of_app in Hx. destruct Hx as [Hpre Hpost].
  cbn [update]. rewrite find_node_El. destruct (i =? target)%nat eqn:Et.
  - apply Nat.eqb_eq in Et. subst target.
    change (grow ga pre post (El i t a ks))
      with (El i t (ga a) (pre ++ ks ++ post)).
    rewrite find_node_El. destruct (x =? i)%nat eqn:Ex.
    + simpl. by rewrite Nat.eqb_refl.
    + rewrite !flat_map_app, !find_app.
      rewrite (find_forest_absent x pre Hpre), (find_forest_absent x post Hpost).
      destruct (find (is_node x) (flat_map elements ks)) as [y|] eqn:E; [|done].
      simpl. f_equal. symmetry. apply update_absent. intros Hin. apply Hi.
      by eapply find_forest_ids.
  - rewrite find_node_El. destruct (x =? i)%nat eqn:Ex.
    + simpl. by rewrite Et.
    + apply find_forest_map. rewrite Forall_forall in IH.
      apply Forall_forall. intros k Hk. apply IH; [done|].
      by eapply NoDup_forest_kid.
Qed.

Lemma lookup_update_grow_forest target x ns :
  NoDup (flat_map ids ns) → x ∉ flat_map ids (pre ++ post) →
  find (is_node x)
       (flat_map elements (map (update target (grow ga pre post)) ns))
  = update target (grow ga pre post) <$> find (is_node x) (flat_map elements ns).
Proof.
  intros Hnd Hx. apply find_forest_map, Forall_forall. intros k Hk.
  apply lookup_update_grow; [by eapply NoDup_forest_kid|done].
Qed.

(** The identities after the change: those of before and those of the new
    children. *)
Lemma ids_update_grow target n :
  NoDup (ids n) → target ∈ ids n →
  ids (update target (grow ga pre post) n)
  ≡ₚ ids n ++ flat_map ids (pre ++ post).
Proof.
  intros Hnd Ht. induction n as [s|i t a ks IH] using node_ind_kids.
  { by apply elem_of_nil in Ht. }
  cbn [ids] in Hnd, Ht. apply NoDup_cons in Hnd as [Hi Hnd].
  cbn [update]. destruct (i =? target)%nat eqn:Et.
  - cbn [grow ids]. rewrite !flat_map_app. simpl. f_equiv.
    rewrite !app_assoc. apply Permutation_app_tail, Permutation_app_comm.
  - apply Nat.eqb_neq in Et. apply elem_of_cons in Ht as [->|Ht]; [done|].
    cbn [ids]. simpl. f_equiv. clear Hi.
    induction ks as [|k ks IHks]; [by apply elem_of_nil in Ht|].
    apply Forall_cons in IH as [Hk IH]. cbn [flat_map map] in *.
    apply NoDup_app in Hnd as (Hk1 & Hdisj & Hk2).
    apply elem_of_app in Ht as [Ht|Ht].
    + rewrite (Hk Hk1 Ht). rewrite <- !app_assoc. f_equiv.
      rewrite (map_Forall_ext (update target (grow ga pre post)) id).
      * rewrite map_id. apply Permutation_app_comm.
      * apply Forall_forall. intros k' Hk'. apply update_absent.
        intros Hin. apply (Hdisj _ Ht).
        apply list_elem_of_In, in_flat_map. exists k'.
        split; by apply list_elem_of_In.
    + rewrite (update_absent _ _ k).
      2:{ intros Hin. by apply (Hdisj _ Hin). }
      rewrite (IHks IH Hk2 Ht). by rewrite <- app_assoc.
Qed.

Lemma ids_update_grow_forest target ns :
  NoDup (flat_map ids ns) → target ∈ flat_map ids ns →
  flat_map ids (map (update target (grow ga pre post)) ns)
  ≡ₚ flat_map ids ns ++ flat_map ids (pre ++ post).
Proof.
  intros Hnd Ht.
  - induction ns as [|k ks IHks]; [by apply elem_of_nil in Ht|].
    cbn [flat_map map] in *.
    apply NoDup_app in Hnd as (Hk1 & Hdisj & Hk2).
    apply elem_of_app in Ht as [Ht|Ht].
    + rewrite (ids_update_grow target k Hk1 Ht). rewrite <- !app_assoc. f_equiv.
      rewrite (map_Forall_ext (update target (grow ga pre post)) id).
      * rewrite map_id. apply Permutation_app_comm.
      * apply Forall_forall. intros k' Hk'. apply update_absent.
        intros Hin. apply (Hdisj _ Ht).
        apply list_elem_of_In, in_flat_map. exists k'.
        split; by apply list_elem_of_In.
    + rewrite (update_absent _ _ k).
      2:{ intros Hin. by apply (Hdisj _ Hin). }
      rewrite (IHks Hk2 Ht). by rewrite <- app_assoc.
Qed.

(** *** The same for a document *)

Lemma deref_update_grow d target x :
  NoDup (all_ids d) → x ∉ flat_map ids (pre ++ post) →
  deref (update_doc target (grow ga pre post) d) x
  = update target (grow ga pre post) <$> deref d x.
Proof.
  intros Hnd Hx.
  apply (lookup_update_grow_forest target x (root d :: detached d) Hnd Hx).
Qed.

Lemma all_ids_update_grow d target :
  NoDup (all_ids d) → target ∈ all_ids d →
  all_ids (update_doc target (grow ga pre post) d)
  ≡ₚ all_ids d ++ flat_map ids (pre ++ post).
Proof.
  intros Hnd Ht.
  apply (ids_update_grow_forest target (root d :: detached d) Hnd Ht).
Qed.

Lemma update_doc_absent d target g :
  target ∉ all_ids d → update_doc target g d = d.
Proof.
  intros Hn. unfold update_doc, all_ids in *. cbn [flat_map] in Hn.
  apply not_elem_of_app in Hn as [Hr Hd].
  rewrite (update_absent _ _ (root d) Hr).
  rewrite (map_Forall_ext (update target g) id), map_id; [by destruct d|].
  apply Forall_forall. intros k Hk. apply update_absent. intros Hin. apply Hd.
  apply list_elem_of_In, in_flat_map. exists k. split; by apply list_elem_of_In.
Qed.

End Grow.

Lemma update_doc_ext target g g' d :
  (∀ y, g y = g' y) → update_doc target g d = update_doc target g' d.
Proof.
  intros Hg. unfold update_doc. rewrite (update_ext _ g g' (root d) Hg).
  f_equal. apply map_Forall_ext, Forall_forall. intros k _.
  by apply update_ext.
Qed.

(** ** Finding by a property of the element itself *)

Section Shallow.
Variable P : node → bool.
Hypothesis shallow : ∀ i t a ks ks', P (El i t a ks) = P (El i t a ks').

Lemma find_El i t a ks :
  find P (elements (El i t a ks))
  = if P (El i t a ks) then Some (El i t a ks)
    else find P (flat_map elements ks).
Proof. done. Qed.

Lemma find_is_element n y :
  find P (elements n) = Some y → ∃ i t a ks, y = El i t a ks ∧ i ∈ ids n.
Proof.
  intros H. apply find_some in H as [Hin _].
  assert (∀ n e, In e (elements n) → ∃ i t a ks, e = El i t a ks) as Hel.
  { clear. induction n as [s|i t a ks IH] using node_ind_kids; [done|].
    intros e [<-|He]; [by eexists _, _, _, _|].
    apply in_flat_map in He as (k & Hk & He).
    rewrite Forall_forall in IH. apply (IH k); [by apply list_elem_of_In|done]. }
  destruct (Hel _ _ Hin) as (i & t & a & ks & ->). exists i, t, a, ks.
  split; [done|]. apply (elem_of_ids n (El i t a ks)); [|done].
  by apply list_elem_of_In.
Qed.

(** The first element with the property is emptied: it is still the first
    with the property. *)
Lemma find_update_clear c n y :
  NoDup (ids n) → find P (elements n) = Some y → node_id y = Some c →
  find P (elements (update c clear_kids n)) = Some (clear_kids y).
Proof.
  intros Hnd Hy Hc. induction n as [s|i t a ks IH] using node_ind_kids; [done|].
  cbn [ids] in Hnd. apply NoDup_cons in Hnd as [Hi Hnd].
  rewrite find_El in Hy. cbn [update]. destruct (P (El i t a ks)) eqn:EP.
  - injection Hy as <-. injection Hc as <-. rewrite Nat.eqb_refl.
    cbn [clear_kids]. rewrite find_El. by rewrite (shallow i t a [] ks), EP.
  - assert (c ∈ flat_map ids ks) as Hin.
    { apply (find_forest_ids P ks y Hy).
      destruct y as [j ? ? ?|]; [|done]. injection Hc as ->. by left. }
    rewrite (proj2 (Nat.eqb_neq i c)) by (intros ->; done).
    rewrite find_El, (shallow i t a _ ks), EP. clear EP Hi.
    induction ks as [|k ks IHks]; [done|].
    apply Forall_cons in IH as [Hk IH]. cbn [flat_map map] in *.
    apply NoDup_app in Hnd as (Hk1 & Hdisj & Hk2).
    rewrite find_app in Hy. rewrite find_app.
    destruct (find P (elements k)) as [y'|] eqn:Ek.
    + injection Hy as ->. by rewrite (Hk Hk1 eq_refl).
    + assert (c ∈ flat_map ids ks) as Hin'.
      { apply (find_forest_ids P ks y Hy).
        destruct y as [j ? ? ?|]; [|done]. injection Hc as ->. by left. }
      rewrite (update_absent _ _ k), Ek.
      2:{ intros Hck. by apply (Hdisj _ Hck). }
      by apply IHks.
Qed.

(** No element has the property; a childless element that has it is put
    in front of the children of [b]: it is the first with the property. *)
Lemma find_update_unshift b n c t a :
  find P (elements n) = None → b ∈ ids n → P (El c t a []) = true →
  find P (elements (update b (unshift_kid (El c t a [])) n))
  = Some (El c t a []).
Proof.
  intros Hnone Hb Hdiv. induction n as [s|i tg ag ks IH] using node_ind_kids.
  { by apply elem_of_nil in Hb. }
  rewrite find_El in Hnone. destruct (P (El i tg ag ks)) eqn:EP; [done|].
  cbn [update]. destruct (i =? b)%nat eqn:Eb.
  - cbn [unshift_kid]. rewrite find_El, (shallow i tg ag _ ks), EP.
    cbn [flat_map]. rewrite find_app. by rewrite find_El, Hdiv.
  - apply Nat.eqb_neq in Eb. cbn [ids] in Hb.
    apply elem_of_cons in Hb as [->|Hb]; [done|].
    rewrite find_El, (shallow i tg ag _ ks), EP. clear EP.
    induction ks as [|k ks IHks]; [by apply elem_of_nil in Hb|].
    apply Forall_cons in IH as [Hk IH]. cbn [flat_map map] in *.
    rewrite find_app in Hnone. rewrite find_app.
    destruct (find P (elements k)) as [y'|] eqn:Ek; [done|].
    destruct (decide (b ∈ ids k)) as [Hbk|Hbk].
    + by rewrite (Hk eq_refl Hbk).
    + rewrite (update_absent _ _ k Hbk), Ek.
      apply elem_of_app in Hb as [?|Hb]; [done|]. by apply IHks.
Qed.

End Shallow.

(** ** Emptying an element *)

Lemma ids_update_clear c n y :
  NoDup (ids n) → find (is_node c) (elements n) = Some y →
  ids (update c clear_kids n) ++ flat_map ids (node_kids y) ≡ₚ ids n.
Proof.
  intros Hnd Hy. induction n as [s|i t a ks IH] using node_ind_kids; [done|].
  cbn [ids] in Hnd. apply NoDup_cons in Hnd as [Hi Hnd].
  rewrite find_node_El in Hy. cbn [update]. destruct (c =? i)%nat eqn:Ec.
  - apply Nat.eqb_eq in Ec as ->. injection Hy as <-.
    by rewrite Nat.eqb_refl.
  - rewrite Nat.eqb_sym, Ec. cbn [ids]. simpl. f_equiv. clear Hi Ec.
    induction ks as [|k ks IHks]; [done|].
    apply Forall_cons in IH as [Hk IH]. cbn [flat_map map] in *.
    apply NoDup_app in Hnd as (Hk1 & Hdisj & Hk2). rewrite find_app in Hy.
    destruct (find (is_node c) (elements k)) as [y'|] eqn:Ek.
    + injection Hy as ->.
      assert (c ∈ ids k) as Hck by by apply find_node_in_ids in Ek as [_ ?].
      rewrite (map_Forall_ext (update c clear_kids) id), map_id.
      * rewrite <- app_assoc.
        rewrite (Permutation_app_comm (flat_map ids ks)), app_assoc.
        by rewrite (Hk Hk1 eq_refl).
      * apply Forall_forall. intros k' Hk'. apply update_absent.
        intros Hin. apply (Hdisj _ Hck).
        apply list_elem_of_In, in_flat_map. exists k'.
        split; by apply list_elem_of_In.
    + assert (c ∉ ids k) as Hck.
      { intros Hin. apply find_node_present in Hin as [? Hin]. congruence. }
      rewrite (update_absent _ _ k Hck), <- app_assoc. f_equiv. by apply IHks.
Qed.

(** ** One object for one identity *)

Lemma find_unique_kids x e ns :
  Forall (λ k, NoDup (ids k) → In e (elements k) →
               find (is_node x) (elements k) = Some e) ns →
  NoDup (flat_map ids ns) → In e (flat_map elements ns) →
  node_id e = Some x →
  find (is_node x) (flat_map elements ns) = Some e.
Proof.
  intros IH Hnd Hin Hx. induction ns as [|k ks IHks]; [done|].
  apply Forall_cons in IH as [Hk IH]. cbn [flat_map] in *.
  apply NoDup_app in Hnd as (Hk1 & Hdisj & Hk2). rewrite find_app.
  apply in_app_or in Hin as [Hin|Hin].
  - by rewrite (Hk Hk1 Hin).
  - rewrite find_node_absent; [by apply IHks|].
    intros Hxk. apply (Hdisj _ Hxk).
    apply in_flat_map in Hin as (k' & Hk' & Hin).
    apply list_elem_of_In, in_flat_map. exists k'. split; [done|].
    apply list_elem_of_In. apply (elem_of_ids k' e); [by apply list_elem_of_In|done].
Qed.

Lemma find_unique x e n :
  NoDup (ids n) → In e (elements n) → node_id e = Some x →
  find (is_node x) (elements n) = Some e.
Proof.
  intros Hnd Hin Hx. induction n as [s|i t a ks IH] using node_ind_kids; [done|].
  cbn [ids] in Hnd. apply NoDup_cons in Hnd as [Hi Hnd].
  rewrite find_node_El. destruct Hin as [<-|Hin].
  - injection Hx as ->. by rewrite Nat.eqb_refl.
  - assert (x ∈ flat_map ids ks) as Hxk.
    { apply in_flat_map in Hin as (k' & Hk' & Hin).
      apply list_elem_of_In, in_flat_map. exists k'. split; [done|].
      apply list_elem_of_In.
      apply (elem_of_ids k' e); [by apply list_elem_of_In|done]. }
    rewrite (proj2 (Nat.eqb_neq x i)) by (intros ->; done).
    apply find_unique_kids; [|done..].
    apply Forall_forall. intros k Hk. rewrite Forall_forall in IH.
    intros H1 H2. by apply IH.
Qed.

Lemma deref_unique d x e :
  NoDup (all_ids d) →
  In e (flat_map elements (root d :: detached d)) → node_id e = Some x →
  deref d x = Some e.
Proof.
  intros Hnd Hin Hx. apply (find_unique_kids x e (root d :: detached d)); [|done..].
  apply Forall_forall. intros k _ H1 H2. by apply find_unique.
Qed.

Lemma deref_in_ids d x y :
  deref d x = Some y → node_id y = Some x ∧ x ∈ all_ids d.
Proof.
  unfold deref. intros H. apply find_some in H as [Hin Hx].
  assert (node_id y = Some x) as Hy.
  { destruct y as [j t a ks|s]; [|done]. simpl in Hx.
    apply Nat.eqb_eq in Hx. by subst. }
  split; [done|].
  change (In y (flat_map elements (root d :: detached d))) in Hin.
  apply in_flat_map in Hin as (k & Hk & Hin).
  apply list_elem_of_In, in_flat_map. exists k. split; [done|].
  apply list_elem_of_In. apply (elem_of_ids k y); [by apply list_elem_of_In|done].
Qed.

Lemma deref_present d x : x ∈ all_ids d → is_Some (deref d x).
Proof.
  intros Hx. apply list_elem_of_In, in_flat_map in Hx as (k & Hk & Hx).
  apply list_elem_of_In, find_node_present in Hx as [y Hy].
  destruct (deref d x) as [y'|] eqn:E; [by eexists|]. exfalso.
  unfold deref in E. apply find_some in Hy as [Hin Hy].
  eapply find_none in E; [by rewrite E in Hy|].
  change (In y (flat_map elements (root d :: detached d))).
  apply in_flat_map. eauto.
Qed.

(** ** [getOrCreateContainer] *)

Lemma has_id_shallow name i t a ks ks' :
  has_id name (El i t a ks) = has_id name (El i t a ks').
Proof. done. Qed.

Lemma is_node_shallow x i t a ks ks' :
  is_node x (El i t a ks) = is_node x (El i t a ks').
Proof. done. Qed.

(** The container that was found, after it was emptied. *)
Lemma clear_found d name y c :
  well_formed d → find (has_id name) (elements (root d)) = Some y →
  node_id y = Some c →
  getElementById (clear c d) name = Some c ∧
  (∃ t a, deref (clear c d) c = Some (El c t a []) ∧ assoc "id" a = name) ∧
  well_formed (clear c d).
Proof.
  intros [Hnd Hlt] Hy Hc.
  assert (NoDup (ids (root d))) as Hroot.
  { unfold all_ids in Hnd. cbn [flat_map] in Hnd.
    by apply NoDup_app in Hnd as [? _]. }
  assert (find (is_node c) (elements (root d)) = Some y) as Hyc.
  { apply find_unique; [done| |done]. by apply find_some in Hy as [? _]. }
  assert (deref d c = Some y) as Hd.
  { unfold deref. by rewrite find_app, Hyc. }
  assert (map (update c clear_kids) (detached d) = detached d) as Hdet.
  { rewrite (map_Forall_ext (update c clear_kids) id), map_id; [done|].
    apply Forall_forall. intros k Hk. apply update_absent. intros Hin.
    unfold all_ids in Hnd. cbn [flat_map] in Hnd.
    apply NoDup_app in Hnd as (_ & Hdisj & _).
    apply (Hdisj c); [by apply find_node_in_ids in Hyc as [_ ?]|].
    apply list_elem_of_In, in_flat_map. exists k.
    split; by apply list_elem_of_In. }
  destruct y as [c' t a ks|]; [|done]. injection Hc as ->.
  split; [|split].
  - unfold getElementById, clear. cbn [root update_doc].
    change (find (has_id name) (elements (update c clear_kids (root d)))
            ≫= node_id = Some c).
    by rewrite (find_update_clear (has_id name) (has_id_shallow name) c _ _
                  Hroot Hy eq_refl).
  - exists t, a. split.
    + unfold clear, deref. cbn [root detached update_doc]. rewrite find_app.
      by rewrite (find_update_clear (is_node c) (is_node_shallow c) c _ _
                    Hroot Hyc eq_refl).
    + apply find_some in Hy as [_ Hy]. by apply bool_decide_eq_true in Hy.
  - assert (all_ids (clear c d) ≡ₚ all_ids d) as Hperm.
    { unfold clear, all_ids. rewrite Hd. cbn [root detached update_doc flat_map].
      rewrite Hdet. cbn [from_option node_kids]. rewrite flat_map_app.
      rewrite (Permutation_app_comm (flat_map ids (detached d))), app_assoc.
      by rewrite (ids_update_clear c (root d) _ Hroot Hyc). }
    split; [by rewrite Hperm|]. by rewrite Hperm.
Qed.

Lemma update_fixed c g n :
  (∀ e, In e (elements n) → node_id e = Some c → g e = e) →
  update c g n = n.
Proof.
  induction n as [s|i t a ks IH] using node_ind_kids; [done|].
  intros Hg. cbn [update]. destruct (i =? c)%nat eqn:E.
  - apply Nat.eqb_eq in E as ->. apply Hg; [by left|done].
  - f_equal. rewrite <- (map_id ks) at 2. apply map_Forall_ext.
    rewrite Forall_forall in IH. apply Forall_forall. intros k Hk.
    apply IH; [done|]. intros e He Hc. apply Hg; [|done]. right.
    apply in_flat_map. exists k. split; [by apply list_elem_of_In|done].
Qed.

(** Emptying an element without children changes nothing. *)
Lemma clear_childless d c t a :
  NoDup (all_ids d) → deref d c = Some (El c t a []) → clear c d = d.
Proof.
  intros Hnd Hd.
  assert (∀ e, In e (flat_map elements (root d :: detached d)) →
               node_id e = Some c → clear_kids e = e) as Hfix.
  { intros e He Hc. pose proof (deref_unique d c e Hnd He Hc) as H.
    rewrite Hd in H. by injection H as <-. }
  unfold clear. rewrite Hd. cbn [from_option node_kids]. unfold update_doc.
  cbn [readyState listeners root detached fresh].
  rewrite (update_fixed c clear_kids (root d)).
  2:{ intros e He. apply Hfix. cbn [flat_map]. apply in_or_app. by left. }
  rewrite (map_Forall_ext (update c clear_kids) id), map_id, app_nil_r;
    [by destruct d|].
  apply Forall_forall. intros k Hk. apply update_fixed. intros e He.
  apply Hfix. cbn [flat_map]. apply in_or_app. right.
  apply in_flat_map. exists k. split; [by apply list_elem_of_In|done].
Qed.

Lemma body_in_root d n : body d = Some n → In n (elements (root d)).
Proof.
  unfold body. intros H. apply find_some in H as [Hin Ht].
  destruct n as [b t a ks|]; [|done].
  destruct (root d) as [i tr ar kr|]; [|done]. right.
  apply in_flat_map. exists (El b t a ks). split; [done|]. by left.
Qed.

Lemma getOrCreateContainer_cases d :
  getOrCreateContainer d
  = match getElementById d CONFIG_containerId with
    | Some c => inr (c, clear c d)
    | None =>
        match body d with
        | Some (El b _ _ _) =>
            inr (fresh d,
                 clear (fresh d)
                       (update_doc b (unshift_kid (container_div (fresh d)))
                                   (createElement d).2))
        | _ => inl null_firstChild
        end
    end.
Proof.
  unfold getOrCreateContainer.
  destruct (getElementById d CONFIG_containerId); [done|].
  unfold createElement. cbv beta iota zeta.
  change (body (mkDocument (readyState d) (listeners d) (root d) (detached d)
                           (S (fresh d)))) with (body d).
  by destruct (body d) as [[b t a ks|]|].
Qed.

Lemma getElementById_find d name :
  getElementById d name = find (has_id name) (elements (root d)) ≫= node_id.
Proof. done. Qed.

Lemma getElementById_None d name :
  getElementById d name = None → find (has_id name) (elements (root d)) = None.
Proof.
  rewrite getElementById_find.
  destruct (find _ _) as [y|] eqn:E; [|done].
  by destruct (find_is_element _ _ _ E) as (i & t & a & ks & -> & _).
Qed.

Lemma getElementById_Some d name c :
  getElementById d name = Some c →
  ∃ y, find (has_id name) (elements (root d)) = Some y ∧ node_id y = Some c.
Proof.
  rewrite getElementById_find.
  destruct (find _ _) as [y|] eqn:E; [|done]. simpl. by exists y.
Qed.

(** The new container, in front of the children of the body. *)
Lemma container_created d b tb ab ks :
  well_formed d → getElementById d CONFIG_containerId = None →
  body d = Some (El b tb ab ks) →
  let c := fresh d in
  let d1 := update_doc b (unshift_kid (container_div c)) (createElement d).2 in
  clear c d1 = d1 ∧
  getElementById d1 CONFIG_containerId = Some c ∧
  deref d1 c = Some (container_div c) ∧
  deref d1 b = Some (El b tb ab (container_div c :: ks)) ∧
  well_formed d1.
Proof.
  intros [Hnd Hlt] Hnone Hbody c d1.
  pose proof (body_in_root d _ Hbody) as Hbin.
  assert (b ∈ ids (root d)) as Hb.
  { apply (elem_of_ids _ (El b tb ab ks)); [by apply list_elem_of_In|done]. }
  assert (b ∈ all_ids d) as Hball.
  { unfold all_ids. cbn [flat_map]. apply elem_of_app. by left. }
  assert (c ∉ all_ids d) as Hc.
  { intros Hin. rewrite Forall_forall in Hlt. specialize (Hlt c Hin).
    unfold c in Hlt. lia. }
  assert (d1 = update_doc b (grow id [container_div c] []) (createElement d).2)
    as Hd1 by (apply update_doc_ext; intros y; apply unshift_kid_grow).
  assert (all_ids d1 ≡ₚ all_ids d ++ [c]) as Hperm.
  { rewrite Hd1. by rewrite (all_ids_update_grow id [container_div c] []). }
  assert (NoDup (all_ids d1)) as Hnd1.
  { rewrite Hperm. apply NoDup_app. split; [done|]. split; [|apply NoDup_singleton].
    intros x Hx ->%list_elem_of_singleton. done. }
  assert (find (has_id CONFIG_containerId) (elements (root d1))
          = Some (container_div c)) as Hfind.
  { apply (find_update_unshift _ (has_id_shallow _)); [|done..].
    by apply getElementById_None. }
  assert (deref d1 c = Some (container_div c)) as Hdc.
  { apply deref_unique; [done| |done]. apply find_some in Hfind as [Hin _].
    cbn [flat_map]. apply in_or_app. by left. }
  split; [by eapply clear_childless|]. split; [|split; [done|split]].
  - by rewrite getElementById_find, Hfind.
  - rewrite Hd1.
    rewrite (deref_update_grow id [container_div c] [] (createElement d).2 b b).
    + change (deref (createElement d).2 b) with (deref d b).
      rewrite (deref_unique d b (El b tb ab ks)); [|done| |done].
      * simpl. rewrite Nat.eqb_refl. simpl. by rewrite app_nil_r.
      * cbn [flat_map]. apply in_or_app. by left.
    + done.
    + simpl. intros [->|?%elem_of_nil]%elem_of_cons; done.
  - split; [done|]. rewrite Hperm.
    change (fresh d1) with (S (fresh d)). apply Forall_app. split.
    + eapply Forall_impl; [exact Hlt|]. intros x Hx. simpl in Hx. lia.
    + constructor; [unfold c; lia|constructor].
Qed.

(** ** What a change leaves alone *)

Lemma same_shell_refl y : same_shell y y.
Proof. by split. Qed.

Lemma same_shell_trans y1 y2 y3 :
  same_shell y1 y2 → same_shell y2 y3 → same_shell y1 y3.
Proof.
  intros (H1 & H2 & H3) (H4 & H5 & H6). repeat split; congruence.
Qed.

Lemma update_shell target g y :
  (∀ e, same_shell e (g e)) → same_shell y (update target g y).
Proof.
  intros Hg. destruct y as [i t a ks|s]; [|done]. cbn [update].
  destruct (i =? target)%nat; [apply Hg|done].
Qed.

Lemma clear_kids_shell e : same_shell e (clear_kids e).
Proof. by destruct e. Qed.

Lemma grow_id_shell pre post e : same_shell e (grow id pre post e).
Proof. by destruct e. Qed.

Lemma elements_update_clear c n e' :
  In e' (elements (update c clear_kids n)) →
  ∃ e, In e (elements n) ∧ e' = update c clear_kids e.
Proof.
  induction n as [s|i t a ks IH] using node_ind_kids; [done|].
  cbn [update]. destruct (i =? c)%nat eqn:E.
  - intros [<-|[]]. exists (El i t a ks). split; [by left|].
    cbn [update]. by rewrite E.
  - intros [<-|Hin].
    + exists (El i t a ks). split; [by left|]. cbn [update]. by rewrite E.
    + apply in_flat_map in Hin as (k' & Hk' & Hin).
      apply in_map_iff in Hk' as (k & <- & Hk).
      rewrite Forall_forall in IH.
      destruct (IH k (proj2 (list_elem_of_In _ _) Hk) Hin) as (e & He & ->).
      exists e. split; [|done]. right. apply in_flat_map. eauto.
Qed.

Lemma elements_trans n y e :
  In y (elements n) → In e (elements y) → In e (elements n).
Proof.
  induction n as [s|i t a ks IH] using node_ind_kids; [done|].
  intros [<-|Hin] He; [done|]. right.
  apply in_flat_map in Hin as (k & Hk & Hin). apply in_flat_map. exists k.
  split; [done|]. rewrite Forall_forall in IH.
  apply IH; [by apply list_elem_of_In|done..].
Qed.

Lemma kid_elements y k e :
  In k (node_kids y) → In e (elements k) → In e (elements y).
Proof.
  destruct y as [i t a ks|]; [|done]. simpl. intros Hk He. right.
  apply in_flat_map. eauto.
Qed.

(** Emptying an element of the tree leaves every object of the document
    within reach: as it was, or with the emptied element inside it. *)
Lemma clear_frame_cases d c yc x y :
  well_formed d → find (is_node c) (elements (root d)) = Some yc →
  deref d x = Some y →
  ∃ y', deref (clear c d) x = Some y' ∧
        (y' = update c clear_kids y ∨ y' = y).
Proof.
  intros [Hnd Hlt] Hyc Hy.
  assert (NoDup (ids (root d))) as Hroot.
  { unfold all_ids in Hnd. cbn [flat_map] in Hnd.
    by apply NoDup_app in Hnd as [? _]. }
  assert (deref d c = Some yc) as Hd by (unfold deref; by rewrite find_app, Hyc).
  assert (all_ids (clear c d) ≡ₚ all_ids d) as Hperm.
  { assert (map (update c clear_kids) (detached d) = detached d) as Hdet.
    { rewrite (map_Forall_ext (update c clear_kids) id), map_id; [done|].
      apply Forall_forall. intros k Hk. apply update_absent. intros Hin.
      unfold all_ids in Hnd. cbn [flat_map] in Hnd.
      apply NoDup_app in Hnd as (_ & Hdisj & _).
      apply (Hdisj c); [by apply find_node_in_ids in Hyc as [_ ?]|].
      apply list_elem_of_In, in_flat_map. exists k.
      split; by apply list_elem_of_In. }
    unfold clear, all_ids. rewrite Hd. cbn [root detached update_doc flat_map].
    rewrite Hdet, flat_map_app.
    rewrite (Permutation_app_comm (flat_map ids (detached d))), app_assoc.
    by rewrite (ids_update_clear c (root d) _ Hroot Hyc). }
  destruct (deref_in_ids _ _ _ Hy) as [Hyx Hx].
  destruct (deref_present (clear c d) x) as [y' Hy']; [by rewrite Hperm|].
  exists y'. split; [done|].
  destruct (deref_in_ids _ _ _ Hy') as [Hy'x _].
  unfold deref in Hy'. apply find_some in Hy' as [Hin _].
  unfold clear in Hin. rewrite Hd in Hin.
  cbn [root detached update_doc from_option] in Hin.
  assert (∀ e, In e (flat_map elements (root d :: detached d)) →
               node_id e = Some x → e = y) as Huniq.
  { intros e He Hex. pose proof (deref_unique d x e Hnd He Hex). congruence. }
  assert (∀ e, node_id (update c clear_kids e) = node_id e) as Hnid.
  { intros e. by destruct (update_shell c clear_kids e clear_kids_shell). }
  apply in_app_or in Hin as [Hin|Hin].
  - apply elements_update_clear in Hin as (e & He & ->).
    rewrite Hnid in Hy'x. left.
    by rewrite (Huniq e); [|cbn [flat_map]; apply in_or_app; by left|done].
  - rewrite flat_map_app in Hin. apply in_app_or in Hin as [Hin|Hin].
    + apply in_flat_map in Hin as (k' & Hk' & Hin).
      apply in_map_iff in Hk' as (k & <- & Hk).
      apply elements_update_clear in Hin as (e & He & ->).
      rewrite Hnid in Hy'x. left. rewrite (Huniq e); [done| |done].
      cbn [flat_map]. apply in_or_app. right. apply in_flat_map. eauto.
    + apply in_flat_map in Hin as (k & Hk & Hin). right.
      apply (Huniq y'); [|done].
      cbn [flat_map]. apply in_or_app. left.
      apply (elements_trans _ yc); [by apply find_some in Hyc as [? _]|].
      by eapply kid_elements.
Qed.

Lemma clear_frame d c yc x y :
  well_formed d → find (is_node c) (elements (root d)) = Some yc →
  deref d x = Some y →
  ∃ y', deref (clear c d) x = Some y' ∧ same_shell y y'.
Proof.
  intros Hwf Hyc Hy.
  destruct (clear_frame_cases d c yc x y Hwf Hyc Hy) as (y' & Hy' & [->| ->]);
    eexists; (split; [exact Hy'|]);
    [apply update_shell, clear_kids_shell|apply same_shell_refl].
Qed.

Lemma container_spec d c d' :
  well_formed d → getOrCreateContainer d = inr (c, d') →
  getElementById d' CONFIG_containerId = Some c ∧
  (∃ t a, deref d' c = Some (El c t a []) ∧
          assoc "id" a = CONFIG_containerId) ∧
  well_formed d' ∧
  (∀ x y, deref d x = Some y →
          ∃ y', deref d' x = Some y' ∧ same_shell y y') ∧
  (fresh d ≤ fresh d')%nat ∧
  match getElementById d CONFIG_containerId with
  | Some c0 => c = c0 ∧ d' = clear c d
  | None =>
      ∃ b tb ab ks, body d = Some (El b tb ab ks) ∧ c = fresh d ∧
                    deref d' b = Some (El b tb ab (container_div c :: ks))
  end.
Proof.
  intros Hwf. rewrite getOrCreateContainer_cases.
  destruct (getElementById d CONFIG_containerId) as [c0|] eqn:Eg.
  - intros [= <- <-].
    destruct (getElementById_Some _ _ _ Eg) as (y & Hy & Hc).
    destruct (clear_found d _ y c0 Hwf Hy Hc) as (H1 & H2 & H3).
    split; [done|]. split; [done|]. split; [done|]. split; [|by split].
    intros x yx Hx. apply (clear_frame d c0 y); [done| |done].
    destruct Hwf as [Hnd _]. apply find_unique; [|by apply find_some in Hy as [? _]|done].
    unfold all_ids in Hnd. cbn [flat_map] in Hnd.
    by apply NoDup_app in Hnd as [? _].
  - destruct (body d) as [[b tb ab ks|]|] eqn:Eb; [|done..].
    destruct (container_created d b tb ab ks Hwf Eg Eb)
      as (Hclear & Hget & Hdc & Hdb & Hwf1).
    rewrite Hclear. intros H.
    assert (c = fresh d) as -> by congruence.
    assert (d' = update_doc b (unshift_kid (container_div (fresh d)))
                            (createElement d).2) as -> by congruence.
    clear H. split; [done|]. split; [by eexists _, _|].
    split; [done|]. split; [|split].
    + intros x y Hx. destruct Hwf as [Hnd Hlt].
      rewrite (update_doc_ext b _ (grow id [container_div (fresh d)] [])).
      2:{ intros e. apply unshift_kid_grow. }
      rewrite (deref_update_grow id [container_div (fresh d)] []
                 (createElement d).2 b x).
      * change (deref (createElement d).2 x) with (deref d x). rewrite Hx.
        eexists. split; [done|]. apply update_shell. intros e.
        apply grow_id_shell.
      * done.
      * simpl. intros [->|?%elem_of_nil]%elem_of_cons; [|done].
        apply deref_in_ids in Hx as [_ Hx]. rewrite Forall_forall in Hlt.
        specialize (Hlt _ Hx). lia.
    + simpl. lia.
    + by exists b, tb, ab, ks.
Qed.

(** ** One turn of [headings.forEach] *)

Lemma kept_refl y : kept y y.
Proof. by split. Qed.

Lemma kept_trans y1 y2 y3 : kept y1 y2 → kept y2 y3 → kept y1 y3.
Proof.
  intros (H1 & H2 & H3) (H4 & H5 & H6). split; [congruence|].
  split; [congruence|]. intros Hne. rewrite H6; [by apply H3|].
  by rewrite H3.
Qed.

Lemma same_shell_kept y y' : same_shell y y' → kept y y'.
Proof. intros (H1 & H2 & H3). by split; [|split]. Qed.

Lemma assoc_set_assoc name v a : assoc name (set_assoc name v a) = v.
Proof.
  induction a as [|[k v0] a IH]; simpl.
  - by rewrite String.eqb_refl.
  - destruct (String.eqb k name) eqn:E; simpl; by rewrite E.
Qed.

Lemma well_formed_perm d d' extra :
  well_formed d → all_ids d' ≡ₚ all_ids d ++ extra →
  NoDup extra → Forall (λ i, fresh d ≤ i < fresh d')%nat extra →
  (fresh d ≤ fresh d')%nat → well_formed d'.
Proof.
  intros [Hnd Hlt] Hperm Hex Hbound Hle. split; rewrite Hperm.
  - apply NoDup_app. split; [done|]. split; [|done].
    intros x Hx Hx'. rewrite Forall_forall in Hlt, Hbound.
    specialize (Hlt x Hx). specialize (Hbound x Hx'). lia.
  - apply Forall_app. split.
    + eapply Forall_impl; [exact Hlt|]. intros x Hx. simpl in Hx. lia.
    + eapply Forall_impl; [exact Hbound|]. intros x Hx. simpl in Hx. lia.
Qed.

(** [el.appendChild(k)] for children made by [createElement] since. *)
Lemma appendChild_spec d d2 parent tp ap ks k :
  well_formed d → deref d parent = Some (El parent tp ap ks) →
  root d2 = root d → detached d2 = detached d → (fresh d ≤ fresh d2)%nat →
  NoDup (ids k) → Forall (λ i, fresh d ≤ i < fresh d2)%nat (ids k) →
  let d' := appendChild parent k d2 in
  well_formed d' ∧ fresh d' = fresh d2 ∧
  deref d' parent = Some (El parent tp ap (ks ++ [k])) ∧
  (∀ x y, deref d x = Some y →
          deref d' x = Some (update parent (push_kid k) y)).
Proof.
  intros Hwf Hp Hroot Hdet Hle Hk Hbound d'.
  assert (all_ids d2 = all_ids d) as Hids by (unfold all_ids; by rewrite Hroot, Hdet).
  assert (∀ x, deref d2 x = deref d x) as Hderef
    by (intros x; unfold deref; by rewrite Hroot, Hdet).
  assert (d' = update_doc parent (grow id [] [k]) d2) as Hd'
    by (apply update_doc_ext; intros y; apply push_kid_grow).
  destruct Hwf as [Hnd Hlt].
  assert (∀ x y, deref d x = Some y →
                 deref d' x = Some (update parent (push_kid k) y)) as Hframe.
  { intros x y Hx. rewrite Hd'.
    rewrite (deref_update_grow id [] [k] d2 parent x).
    - rewrite Hderef, Hx.
      change (Some (update parent (grow id [] [k]) y)
              = Some (update parent (push_kid k) y)).
      apply (f_equal Some), update_ext. intros e. symmetry. apply push_kid_grow.
    - by rewrite Hids.
    - simpl. rewrite app_nil_r. intros Hin.
      apply deref_in_ids in Hx as [_ Hx]. rewrite Forall_forall in Hlt, Hbound.
      specialize (Hlt _ Hx). specialize (Hbound _ Hin). lia. }
  split; [|split; [done|split; [|done]]].
  - apply (well_formed_perm d d' (ids k)); [done| |done..].
    rewrite Hd', <- Hids.
    rewrite (all_ids_update_grow id [] [k] d2 parent).
    + simpl. by rewrite app_nil_r.
    + by rewrite Hids.
    + rewrite Hids. by apply deref_in_ids in Hp as [_ ?].
  - rewrite (Hframe _ _ Hp). simpl. by rewrite Nat.eqb_refl.
Qed.

(** [heading.id = v]. *)
Lemma set_id_spec d h v :
  well_formed d →
  let d' := update_doc h (set_attr "id" v) d in
  well_formed d' ∧ fresh d' = fresh d ∧
  (∀ x y, deref d x = Some y →
          deref d' x = Some (update h (set_attr "id" v) y)).
Proof.
  intros Hwf d'.
  assert (d' = update_doc h (grow (set_assoc "id" v) [] []) d) as Hd'
    by (apply update_doc_ext; intros y; apply set_attr_grow).
  split; [|split; [done|]].
  - destruct (decide (h ∈ all_ids d)) as [Hh|Hh].
    + apply (well_formed_perm d d' []); [done| |constructor|constructor|done].
      rewrite Hd'. apply all_ids_update_grow; [apply Hwf|done].
    + unfold d'. by rewrite update_doc_absent.
  - intros x y Hx. rewrite Hd'.
    rewrite (deref_update_grow (set_assoc "id" v) [] [] d h x);
      [|apply Hwf|by intros ?%elem_of_nil].
    rewrite Hx.
    change (Some (update h (grow (set_assoc "id" v) [] []) y)
            = Some (update h (set_attr "id" v) y)).
    apply (f_equal Some), update_ext. intros e. symmetry. apply set_attr_grow.
Qed.

(** ** The steps of a run *)

Lemma falsy_str_iff s : truthy_str s = false ↔ s = [].
Proof. by destruct s. Qed.

Lemma truthy_str_iff s : truthy_str s = true ↔ s ≠ [].
Proof. by destruct s. Qed.

Lemma deref_El d x y : deref d x = Some y → ∃ t a ks, y = El x t a ks.
Proof.
  intros [Hid _]%deref_in_ids. destruct y as [i t a ks|]; [|done].
  simpl in Hid. simplify_eq. by exists t, a, ks.
Qed.

Lemma deref_lt d x y : well_formed d → deref d x = Some y → (x < fresh d)%nat.
Proof.
  intros [_ Hlt] [_ Hin]%deref_in_ids. rewrite Forall_forall in Hlt.
  by apply Hlt.
Qed.

(** ** Finding by id after a change *)

Lemma find_forest_map2 (P Q : node → bool) (U : node → node) ns :
  Forall (λ k, find P (elements (U k)) = U <$> find Q (elements k)) ns →
  find P (flat_map elements (map U ns)) = U <$> find Q (flat_map elements ns).
Proof.
  induction 1 as [|k ns Hk _ IH]; [done|].
  cbn [map flat_map]. rewrite !find_app, Hk, IH.
  by destruct (find Q (elements k)).
Qed.

Lemma find_ext_In {A : Type} (P Q : A → bool) l :
  (∀ x, In x l → P x = Q x) → find P l = find Q l.
Proof.
  induction l as [|x l IH]; [done|]. intros H. simpl.
  rewrite (H x) by by left. destruct (Q x); [done|].
  apply IH. intros y Hy. apply H. by right.
Qed.

Lemma find_none_Forall {A : Type} (P : A → bool) l :
  Forall (λ x, P x = false) l → find P l = None.
Proof. by apply find_none_iff. Qed.

Lemma node_id_update target g y :
  (∀ e, node_id (g e) = node_id e) → node_id (update target g y) = node_id y.
Proof.
  intros Hg. destruct y as [i t a ks|]; [|done]. simpl.
  destruct (i =? target)%nat; [apply Hg|done].
Qed.

Lemma node_id_grow ga pre post e : node_id (grow ga pre post e) = node_id e.
Proof. by destruct e. Qed.

Section FindGrow.
Variables (P Q : node → bool).
Variables (ga : list (string * jsstr) → list (string * jsstr)).
Variables (pre post : list node) (target : nat).
Hypothesis shallow : ∀ i t a ks ks', P (El i t a ks) = P (El i t a ks').
Hypothesis new_fail : Forall (λ e, P e = false) (flat_map elements (pre ++ post)).

Lemma find_update_grow n :
  NoDup (ids n) →
  (∀ e, In e (elements n) → node_id e ≠ Some target → P e = Q e) →
  (∀ t a ks, In (El target t a ks) (elements n) →
             P (El target t (ga a) ks) = Q (El target t a ks)) →
  find P (elements (update target (grow ga pre post) n))
  = update target (grow ga pre post) <$> find Q (elements n).
Proof.
  induction n as [s|i t a ks IH] using node_ind_kids; [done|].
  intros Hnd H1 H2. cbn [ids] in Hnd. apply NoDup_cons in Hnd as [Hi Hnd].
  cbn [update]. destruct (i =? target)%nat eqn:Et.
  - apply Nat.eqb_eq in Et. subst target.
    change (grow ga pre post (El i t a ks))
      with (El i t (ga a) (pre ++ ks ++ post)).
    cbn [elements find].
    rewrite (shallow i t (ga a) _ ks), (H2 t a ks) by by left.
    destruct (Q (El i t a ks)) eqn:EQ.
    + simpl. by rewrite Nat.eqb_refl.
    + rewrite flat_map_app in new_fail. apply Forall_app in new_fail as [Hpre Hpost].
      rewrite !flat_map_app, !find_app.
      rewrite (find_none_Forall P _ Hpre), (find_none_Forall P _ Hpost).
      rewrite (find_ext_In P Q (flat_map elements ks)).
      * destruct (find Q (flat_map elements ks)) as [y|] eqn:E; [|done].
        simpl. f_equal. symmetry. apply update_absent. intros Hin. apply Hi.
        by eapply find_forest_ids.
      * intros e He. apply H1; [by right|]. intros Hid. apply Hi.
        apply in_flat_map in He as (k & Hk & He).
        apply list_elem_of_In, in_flat_map. exists k. split; [done|].
        apply list_elem_of_In. apply (elem_of_ids k e); [|done].
        by apply list_elem_of_In.
  - apply Nat.eqb_neq in Et. cbn [elements find].
    rewrite (shallow i t a _ ks), (H1 (El i t a ks)); [|by left|simpl; congruence].
    destruct (Q (El i t a ks)) eqn:EQ.
    + simpl. by rewrite (proj2 (Nat.eqb_neq i target)).
    + apply find_forest_map2. rewrite Forall_forall in IH.
      apply Forall_forall. intros k Hk. apply IH; [done| | |].
      * by eapply NoDup_forest_kid.
      * intros e He. apply H1. right. apply in_flat_map. exists k.
        split; [by apply list_elem_of_In|done].
      * intros t' a' ks' He. apply H2. right. apply in_flat_map. exists k.
        split; [by apply list_elem_of_In|done].
Qed.

End FindGrow.

Lemma attached_before ga pre post target n x :
  NoDup (ids n) → x ∈ ids (update target (grow ga pre post) n) →
  x ∉ flat_map ids (pre ++ post) → x ∈ ids n.
Proof.
  intros Hnd Hx Hnew. destruct (decide (target ∈ ids n)) as [Ht|Ht].
  - rewrite (ids_update_grow ga pre post target n Hnd Ht) in Hx.
    by apply elem_of_app in Hx as [Hx|Hx].
  - by rewrite update_absent in Hx.
Qed.

Lemma getElementById_deref d name x :
  NoDup (all_ids d) → getElementById d name = Some x →
  ∃ y, deref d x = Some y ∧ attr "id" y = name ∧ x ∈ ids (root d).
Proof.
  intros Hnd (y & Hy & Hid)%getElementById_Some.
  apply find_some in Hy as [Hin Hy]. exists y. split.
  - apply deref_unique; [done| |done]. simpl. apply in_or_app. by left.
  - split; [by apply bool_decide_eq_true in Hy|].
    by eapply elem_of_ids; [apply list_elem_of_In|].
Qed.

Lemma NoDup_root d : NoDup (all_ids d) → NoDup (ids (root d)).
Proof. unfold all_ids. cbn [flat_map]. by intros [? _]%NoDup_app. Qed.

(** [heading.id = v] leaves every other id where it is found. *)
Lemma getElementById_set_id d heading h v name :
  well_formed d → deref d heading = Some h → attr "id" h = [] →
  name ≠ [] → name ≠ v →
  getElementById (update_doc heading (set_attr "id" v) d) name
  = getElementById d name.
Proof.
  intros [Hnd _] Hh Hid Hname Hv.
  rewrite (update_doc_ext _ _ (grow (set_assoc "id" v) [] []))
    by (intros y; apply set_attr_grow).
  rewrite !getElementById_find. cbn [update_doc root].
  rewrite (find_update_grow (has_id name) (has_id name)).
  - destruct (find _ _) as [y|]; [|done]. simpl.
    apply node_id_update. intros e. apply node_id_grow.
  - apply has_id_shallow.
  - constructor.
  - by apply NoDup_root.
  - done.
  - intros t a ks Hin.
    assert (h = El heading t a ks) as ->.
    { assert (deref d heading = Some (El heading t a ks)) as E.
      { apply deref_unique; [done| |done]. simpl. apply in_or_app. by left. }
      congruence. }
    unfold has_id. simpl in *. rewrite Hid.
    rewrite assoc_set_assoc.
    rewrite !bool_decide_eq_false_2; [done|congruence..].
Qed.

(** [heading.id = v] makes [v] the id of the heading, where no element had
    it. *)
Lemma getElementById_new_id d heading v :
  well_formed d → getElementById d v = None → heading ∈ ids (root d) →
  getElementById (update_doc heading (set_attr "id" v) d) v = Some heading.
Proof.
  intros [Hnd _] Hnone Hin.
  rewrite (update_doc_ext _ _ (grow (set_assoc "id" v) [] []))
    by (intros y; apply set_attr_grow).
  rewrite getElementById_find. cbn [update_doc root].
  apply getElementById_None in Hnone. apply find_none_iff in Hnone.
  rewrite Forall_forall in Hnone.
  rewrite (find_update_grow (has_id v) (is_node heading)).
  - destruct (find_node_present heading (root d) Hin) as [y Hy].
    rewrite Hy. simpl. rewrite node_id_update by (intros e; apply node_id_grow).
    by apply find_node_in_ids in Hy as [? _].
  - apply has_id_shallow.
  - constructor.
  - by apply NoDup_root.
  - intros e He Hne. rewrite (Hnone e) by by apply list_elem_of_In.
    destruct e as [i t a ks|]; [|done]. simpl in *. symmetry.
    apply Nat.eqb_neq. congruence.
  - intros t a ks _. unfold has_id. simpl. rewrite assoc_set_assoc.
    rewrite bool_decide_eq_true_2 by done. by rewrite Nat.eqb_refl.
Qed.

(** [parent.appendChild(k)] for a [k] without ids leaves every id where it
    is found. *)
Lemma getElementById_appendChild d parent k name :
  NoDup (all_ids d) →
  Forall (λ e, attr "id" e = []) (elements k) → name ≠ [] →
  getElementById (appendChild parent k d) name = getElementById d name.
Proof.
  intros Hnd Hk Hname. unfold appendChild.
  rewrite (update_doc_ext _ _ (grow id [] [k]))
    by (intros y; apply push_kid_grow).
  rewrite !getElementById_find. cbn [update_doc root].
  rewrite (find_update_grow (has_id name) (has_id name)).
  - destruct (find _ _) as [y|]; [|done]. simpl.
    apply node_id_update. intros e. apply node_id_grow.
  - apply has_id_shallow.
  - cbn [app flat_map]. rewrite app_nil_r.
    eapply Forall_impl; [exact Hk|]. intros e He. unfold has_id.
    apply bool_decide_eq_false_2. simpl in He. congruence.
  - by apply NoDup_root.
  - done.
  - done.
Qed.

(** ** What a run leaves exactly as it was *)

Lemma deref_ids d x y z : deref d x = Some y → z ∈ ids y → z ∈ all_ids d.
Proof.
  intros Hy Hz. unfold deref in Hy.
  change (find (is_node x) (flat_map elements (root d :: detached d)) = Some y)
    in Hy.
  by eapply find_forest_ids.
Qed.

(** An object that holds neither the container nor the body comes out of
    [getOrCreateContainer] as it went in. *)
Lemma container_frame_exact d c d1 x y :
  well_formed d → getOrCreateContainer d = inr (c, d1) →
  deref d x = Some y → c ∉ ids y →
  (∀ b t a ks, body d = Some (El b t a ks) → b ∉ ids y) →
  deref d1 x = Some y.
Proof.
  intros Hwf Hgc Hy Hc Hb. rewrite getOrCreateContainer_cases in Hgc.
  destruct (getElementById d CONFIG_containerId) as [c0|] eqn:Hget.
  - injection Hgc as <- <-.
    apply getElementById_Some in Hget as (yc & Hyc & Hid).
    assert (find (is_node c0) (elements (root d)) = Some yc) as Hfind.
    { apply find_unique; [apply NoDup_root, Hwf| |done].
      by apply find_some in Hyc as [? _]. }
    destruct (clear_frame_cases d c0 yc x y Hwf Hfind Hy) as (y' & Hy' & [->| ->]);
      [|done].
    by rewrite Hy', update_absent.
  - destruct (body d) as [[b tb ab ks|]|] eqn:Hbody; [|done..].
    injection Hgc as <- <-.
    destruct (container_created d b tb ab ks Hwf Hget Hbody) as (Hclear & _).
    cbv zeta in Hclear.
    change (deref (clear (fresh d)
                     (update_doc b (unshift_kid (container_div (fresh d)))
                                 (createElement d).2)) x = Some y).
    rewrite Hclear.
    rewrite (update_doc_ext _ _ (grow id [container_div (fresh d)] []))
      by (intros e; apply unshift_kid_grow).
    rewrite deref_update_grow.
    + change (deref (createElement d).2 x) with (deref d x). rewrite Hy.
      simpl. f_equal. rewrite <- (update_ext _ (unshift_kid (container_div (fresh d))))
        by (intros e; apply unshift_kid_grow).
      apply update_absent. by eapply Hb.
    + apply Hwf.
    + simpl. intros [->|?%elem_of_nil]%elem_of_cons; [|done].
      apply deref_lt in Hy; [lia|done].
Qed.

Lemma textContent_set_id heading v y :
  textContent (update heading (set_attr "id" v) y) = textContent y.
Proof.
  induction y as [s|i t a ks IH] using node_ind_kids; [done|].
  cbn [update]. destruct (i =? heading)%nat; [done|]. cbn [textContent].
  induction IH as [|k ks Hk _ IHks]; [done|]. cbn [map flat_map].
  by rewrite Hk, IHks.
Qed.

Lemma ids_set_id heading v y :
  ids (update heading (set_attr "id" v) y) = ids y.
Proof.
  induction y as [s|i t a ks IH] using node_ind_kids; [done|].
  cbn [update]. destruct (i =? heading)%nat; [done|]. cbn [ids]. f_equal.
  induction IH as [|k ks Hk _ IHks]; [done|]. cbn [map flat_map].
  by rewrite Hk, IHks.
Qed.

Lemma textContent_toc_item li a h :
  textContent (toc_item li a h) = trim (textContent h).
Proof.
  unfold toc_item. cbn [textContent flat_map].
  destruct (truthy_str (trim (textContent h))) eqn:E; simpl.
  - by rewrite !app_nil_r.
  - by apply falsy_str_iff in E as ->.
Qed.

(** ** [generateTOC], turn by turn *)

Section Run.
Variable toLowerCase : jsstr → jsstr.

Lemma generateUniqueId_nonempty d heading baseSlug v :
  baseSlug ≠ [] → generateUniqueId d heading baseSlug = Some v → v ≠ [].
Proof.
  intros Hb Hv. apply AutoTocExtra.generateUniqueId_loop_first in Hv as [->|(_ & k & _ & -> & _)].
  - done.
  - unfold candidate. by destruct baseSlug.
Qed.

Lemma toc_entry_assigns ul d heading h :
  deref d heading = Some h →
  ∃ d1, (attr "id" h ≠ [] ∧ d1 = d ∨
         attr "id" h = [] ∧
         ∃ v, v ≠ [] ∧
              (getElementById d v = None ∨ getElementById d v = Some heading) ∧
              d1 = update_doc heading (set_attr "id" v) d) ∧
    toc_entry toLowerCase ul d heading =
      match deref d1 heading with
      | None => Done d1
      | Some h1 =>
          Done (appendChild ul (toc_item (fresh d1) (S (fresh d1)) h1)
                  (createElement (createElement d1).2).2)
      end.
Proof.
  intros Hh. unfold toc_entry. rewrite Hh.
  destruct (truthy_str (attr "id" h)) eqn:Hid; cbn [negb].
  - exists d. split; [left; split; [by apply truthy_str_iff|done]|].
    rewrite Hh. done.
  - set (baseSlug := if truthy_str (generateSlug toLowerCase (textContent h))
                     then generateSlug toLowerCase (textContent h)
                     else lit "section").
    assert (baseSlug ≠ []) as Hb.
    { unfold baseSlug.
      destruct (truthy_str (generateSlug toLowerCase (textContent h))) eqn:E;
        [by apply truthy_str_iff|done]. }
    destruct (generateUniqueId_total d heading baseSlug) as [v Hv].
    rewrite Hv. exists (update_doc heading (set_attr "id" v) d).
    split; [|done]. right. split; [by apply falsy_str_iff|].
    exists v. split; [by eapply generateUniqueId_nonempty|].
    split; [by eapply generateUniqueId_free|done].
Qed.

Lemma set_id_kept heading v y :
  (node_id y = Some heading → attr "id" y = []) →
  kept y (update heading (set_attr "id" v) y).
Proof.
  intros Hy. destruct y as [i t a ks|]; [|apply kept_refl].
  simpl. destruct (i =? heading)%nat eqn:E.
  - apply Nat.eqb_eq in E as ->. split; [done|]. split; [done|].
    intros Hne. by destruct Hne; apply Hy.
  - by split.
Qed.

Lemma push_kid_shell ul k y : same_shell y (update ul (push_kid k) y).
Proof.
  apply update_shell. intros e. rewrite push_kid_grow. apply grow_id_shell.
Qed.

Lemma ids_toc_item li a h : ids (toc_item li a h) = [li; a].
Proof. unfold toc_item. simpl. by destruct (truthy_str _). Qed.

Lemma toc_item_no_id li a h :
  Forall (λ e, attr "id" e = []) (elements (toc_item li a h)).
Proof.
  unfold toc_item. cbn [elements flat_map].
  destruct (truthy_str _); repeat constructor.
Qed.

Lemma attached_appendChild d parent k x :
  NoDup (all_ids d) → x ∈ ids (root (appendChild parent k d)) →
  x ∉ ids k → x ∈ ids (root d).
Proof.
  intros Hnd Hx Hk. unfold appendChild in Hx. cbn [update_doc root] in Hx.
  rewrite (update_ext _ _ (grow id [] [k])) in Hx
    by (intros y; apply push_kid_grow).
  apply attached_before in Hx; [done|by apply NoDup_root|].
  cbn [app flat_map]. by rewrite app_nil_r.
Qed.

Lemma attached_set_id d heading v x :
  NoDup (all_ids d) →
  x ∈ ids (root (update_doc heading (set_attr "id" v) d)) → x ∈ ids (root d).
Proof.
  intros Hnd Hx. cbn [update_doc root] in Hx.
  rewrite (update_ext _ _ (grow (set_assoc "id" v) [] [])) in Hx
    by (intros y; apply set_attr_grow).
  apply attached_before in Hx; [done|by apply NoDup_root|].
  by intros ?%elem_of_nil.
Qed.

(** Lines 176-184: the entry is made and put at the end of the list. *)
Lemma append_item_spec d ul tu au ks h1 :
  well_formed d → deref d ul = Some (El ul tu au ks) →
  let item := toc_item (fresh d) (S (fresh d)) h1 in
  let d' := appendChild ul item (createElement (createElement d).2).2 in
  well_formed d' ∧ fresh d' = S (S (fresh d)) ∧
  (∀ x y, deref d x = Some y →
          deref d' x = Some (update ul (push_kid item) y)) ∧
  (∀ name, name ≠ [] → getElementById d' name = getElementById d name) ∧
  (∀ x, x ∈ ids (root d') → (x < fresh d)%nat → x ∈ ids (root d)).
Proof.
  intros Hwf Hul item d'.
  destruct (appendChild_spec d (createElement (createElement d).2).2
              ul tu au ks item) as (Hwf' & Hfresh' & _ & Hframe').
  - done.
  - done.
  - done.
  - done.
  - simpl. lia.
  - unfold item. rewrite ids_toc_item.
    apply NoDup_cons. split; [|apply NoDup_singleton].
    intros ?%list_elem_of_singleton. lia.
  - unfold item. rewrite ids_toc_item. simpl.
    constructor; [lia|constructor; [lia|constructor]].
  - split; [done|]. split; [done|]. split; [done|]. split.
    + intros name Hname. unfold d'.
      rewrite getElementById_appendChild;
        [done|apply Hwf|apply toc_item_no_id|done].
    + intros x Hx Hlt. apply attached_appendChild in Hx; [done|apply Hwf|].
      unfold item. rewrite ids_toc_item.
      intros [->|[->|?%elem_of_nil]%elem_of_cons]%elem_of_cons; [lia|lia|done].
Qed.

(** Lines 162-170, for a heading without an id. *)
Lemma assign_id_spec d heading h v :
  well_formed d → deref d heading = Some h → attr "id" h = [] → v ≠ [] →
  getElementById d v = None ∨ getElementById d v = Some heading →
  let d' := update_doc heading (set_attr "id" v) d in
  well_formed d' ∧ fresh d' = fresh d ∧
  (∀ x y, deref d x = Some y →
          deref d' x = Some (update heading (set_attr "id" v) y)) ∧
  (∀ name x, name ≠ [] → getElementById d name = Some x →
             getElementById d' name = Some x) ∧
  (heading ∈ ids (root d) → getElementById d' v = Some heading) ∧
  (∀ x, x ∈ ids (root d') → x ∈ ids (root d)).
Proof.
  intros Hwf Hh Hid Hv Hfree d'.
  assert (getElementById d v = None) as Hnone.
  { destruct Hfree as [?|Hfree]; [done|]. exfalso.
    apply getElementById_deref in Hfree as (y & Hy & Hidy & _); [|apply Hwf].
    congruence. }
  destruct (set_id_spec d heading v Hwf) as (Hwf' & Hfresh' & Hframe').
  split; [done|]. split; [done|]. split; [done|]. split; [|split].
  - intros name x Hname Hx. unfold d'.
    rewrite (getElementById_set_id d heading h v name); [done..|].
    intros ->. congruence.
  - intros Hin. by apply getElementById_new_id.
  - intros x Hx. eapply attached_set_id; [apply Hwf|exact Hx].
Qed.

Lemma toc_entry_spec d ul tu au ks heading h :
  well_formed d →
  deref d ul = Some (El ul tu au ks) →
  deref d heading = Some h →
  heading ∉ ids (El ul tu au ks) →
  ∃ d' g,
    toc_entry toLowerCase ul d heading = Done d' ∧
    (attr "id" h ≠ [] ∧ g = id ∨
     attr "id" h = [] ∧ ∃ v, g = update heading (set_attr "id" v)) ∧
    attr "id" (g h) ≠ [] ∧ node_tag (g h) = node_tag h ∧
    well_formed d' ∧ fresh d' = S (S (fresh d)) ∧
    (∀ x y, deref d x = Some y →
            deref d' x
            = Some (update ul
                      (push_kid (toc_item (fresh d) (S (fresh d)) (g h)))
                      (g y))) ∧
    (∀ name x, name ≠ [] → getElementById d name = Some x →
               getElementById d' name = Some x) ∧
    (attr "id" h = [] → heading ∈ ids (root d) →
     getElementById d' (attr "id" (g h)) = Some heading) ∧
    (∀ x, x ∈ ids (root d') → (x < fresh d)%nat → x ∈ ids (root d)).
Proof.
  intros Hwf Hul Hh Hout.
  destruct (toc_entry_assigns ul d heading h Hh) as (d1 & Hd1 & ->).
  destruct Hd1 as [[Hid ->]|(Hid & v & Hv & Hfree & ->)].
  - destruct (append_item_spec d ul tu au ks h Hwf Hul)
      as (Hwf' & Hfresh' & Hframe' & Hget' & Hatt').
    rewrite Hh. eexists _, id. split; [done|]. split; [by left|].
    split; [done|]. split; [done|]. split; [done|]. split; [done|].
    split; [done|]. split; [|split; [done|done]].
    intros name x Hname Hx. by rewrite Hget'.
  - destruct (assign_id_spec d heading h v Hwf Hh Hid Hv Hfree)
      as (Hwf1 & Hfresh1 & Hframe1 & Hget1 & Hnew1 & Hatt1).
    set (d1 := update_doc heading (set_attr "id" v) d) in *.
    set (g := update heading (set_attr "id" v)).
    assert (g h = set_attr "id" v h) as Hgh.
    { destruct (deref_El _ _ _ Hh) as (t & a & ks' & ->). unfold g.
      cbn [update]. by rewrite Nat.eqb_refl. }
    assert (attr "id" (g h) = v) as Hidg.
    { rewrite Hgh. destruct (deref_El _ _ _ Hh) as (t & a & ks' & ->).
      simpl. apply assoc_set_assoc. }
    assert (deref d1 ul = Some (El ul tu au ks)) as Hul1.
    { rewrite (Hframe1 _ _ Hul). f_equal. by apply update_absent. }
    destruct (append_item_spec d1 ul tu au ks (g h) Hwf1 Hul1)
      as (Hwf' & Hfresh' & Hframe' & Hget' & Hatt').
    rewrite (Hframe1 _ _ Hh). fold g. rewrite Hfresh1 in *.
    eexists _, g. split; [done|]. split; [right; split; [done|by exists v]|].
    split; [by rewrite Hidg|]. split.
    { rewrite Hgh. by destruct h. }
    split; [done|]. split; [done|]. split; [|split; [|split]].
    + intros x y Hx. by apply Hframe', Hframe1.
    + intros name x Hname Hx. rewrite Hget' by done. by apply Hget1.
    + intros _ Hin. rewrite Hidg, Hget' by done. by apply Hnew1.
    + intros x Hx Hlt. by apply Hatt1, Hatt'.
Qed.

Lemma deref_inside d x y e z :
  NoDup (all_ids d) → deref d x = Some y → In e (elements y) →
  node_id e = Some z → deref d z = Some e.
Proof.
  intros Hnd Hx He Hz. apply deref_unique; [done| |done].
  apply find_some in Hx as [Hy _].
  change (In y (flat_map elements (root d :: detached d))) in Hy.
  apply in_flat_map in Hy as (n & Hn & Hy). apply in_flat_map.
  exists n. split; [done|]. by eapply elements_trans.
Qed.

Lemma keeps_refl d : keeps d d.
Proof. intros x y Hx. exists y. split; [done|apply kept_refl]. Qed.

Lemma keeps_trans d1 d2 d3 : keeps d1 d2 → keeps d2 d3 → keeps d1 d3.
Proof.
  intros H1 H2 x y Hx. destruct (H1 _ _ Hx) as (y2 & Hy2 & K1).
  destruct (H2 _ _ Hy2) as (y3 & Hy3 & K2). exists y3.
  split; [done|by eapply kept_trans].
Qed.

Lemma ids_filled c tc ac t ul items :
  ids (El c tc ac [toc_title t; El ul "ul" [] items])
  = c :: t :: ul :: flat_map ids items.
Proof. simpl. by rewrite app_nil_r. Qed.

Lemma toc_entries_spec c tc ac t ul B headings : ∀ d items,
  well_formed d →
  deref d c = Some (El c tc ac [toc_title t; El ul "ul" [] items]) →
  assoc "id" ac ≠ [] → c ≠ ul → t ≠ ul →
  Forall (λ i, B ≤ i)%nat (t :: ul :: flat_map ids items) →
  (B ≤ fresh d)%nat →
  Forall (λ h, (h < B)%nat ∧ is_Some (deref d h)) headings →
  ∃ d' new,
    toc_entries toLowerCase ul d headings = Done d' ∧
    well_formed d' ∧
    deref d' c
    = Some (El c tc ac [toc_title t; El ul "ul" [] (items ++ new)]) ∧
    keeps d d' ∧
    Forall2 (entry_of d d' ul) headings new ∧
    (∀ name x, name ≠ [] → getElementById d name = Some x →
               getElementById d' name = Some x) ∧
    (∀ x y y', deref d x = Some y → deref d' x = Some y' →
               attr "id" y' = attr "id" y ∨ id_set d' headings x y y') ∧
    (∀ x, x ∈ ids (root d') → (x < fresh d)%nat → x ∈ ids (root d)) ∧
    (∀ x y, deref d x = Some y → ul ∉ ids y →
            ∃ y', deref d' x = Some y' ∧
                  textContent y' = textContent y ∧ ids y' = ids y).
Proof.
  induction headings as [|heading rest IH];
    intros d items Hwf Hc Hac Hcu Htu HB Hfr Hhs.
  - exists d, []. rewrite app_nil_r. split; [done|]. split; [done|].
    split; [done|]. split; [apply keeps_refl|]. split; [constructor|].
    split; [done|]. split; [|split; [done|]].
    + intros x y y' Hy Hy'. left. congruence.
    + intros x y Hy _. by exists y.
  - apply Forall_cons in Hhs as [[Hlt [h Hh]] Hrest].
    assert (deref d ul = Some (El ul "ul" [] items)) as Hul.
    { eapply deref_inside; [apply Hwf|exact Hc| |done]. simpl. auto. }
    assert (heading ∉ t :: ul :: flat_map ids items) as Hnew.
    { intros Hin. rewrite Forall_forall in HB. specialize (HB _ Hin). lia. }
    assert (heading ∉ ids (El ul "ul" [] items)) as Hout.
    { intros Hin. apply Hnew. by right. }
    destruct (toc_entry_spec d ul "ul" [] items heading h Hwf Hul Hh Hout)
      as (d1 & g & E & Hg & Hidne & Htag & Hwf1 & Hfresh1 & Hframe1
          & Hget1 & Hown1 & Hatt1).
    set (item := toc_item (fresh d) (S (fresh d)) (g h)) in *.
    assert (g (El c tc ac [toc_title t; El ul "ul" [] items])
            = El c tc ac [toc_title t; El ul "ul" [] items]) as Hgc.
    { destruct Hg as [[_ ->]|(Hid & v & ->)]; [done|].
      apply update_absent. rewrite ids_filled.
      intros [->|Hin]%elem_of_cons; [|done].
      rewrite Hc in Hh. injection Hh as <-. by apply Hac. }
    assert (∀ x y, deref d x = Some y → kept y (g y)) as Hkg.
    { intros x y Hx. destruct Hg as [[_ ->]|(Hid & v & ->)];
        [apply kept_refl|].
      apply set_id_kept. intros Hy. apply deref_in_ids in Hx as Hx'.
      destruct Hx' as [Hx' _]. rewrite Hx' in Hy. injection Hy as ->.
      rewrite Hh in Hx. by injection Hx as <-. }
    assert (∀ y, textContent (g y) = textContent y ∧ ids (g y) = ids y)
      as Hsame.
    { intros y. destruct Hg as [[_ ->]|(Hid & v & ->)]; [done|].
      split; [apply textContent_set_id|apply ids_set_id]. }
    assert (∀ x y, deref d x = Some y → ul ∉ ids y →
                   deref d1 x = Some (g y)) as Hexact.
    { intros x y Hy Hn. rewrite (Hframe1 _ _ Hy). f_equal.
      apply update_absent. by rewrite (proj2 (Hsame y)). }
    assert (keeps d d1) as Hk1.
    { intros x y Hx. eexists. split; [by apply Hframe1|].
      eapply kept_trans; [by eapply Hkg|].
      apply same_shell_kept, push_kid_shell. }
    assert (deref d1 c
            = Some (El c tc ac [toc_title t; El ul "ul" [] (items ++ [item])]))
      as Hc1.
    { rewrite (Hframe1 _ _ Hc), Hgc. cbn [update].
      rewrite (proj2 (Nat.eqb_neq c ul)) by done. cbn [map update toc_title].
      rewrite (proj2 (Nat.eqb_neq t ul)), Nat.eqb_refl by done. done. }
    destruct (IH d1 (items ++ [item]))
      as (d' & new & E' & Hwf' & Hc' & Hk' & Hall & Hget' & Hown' & Hatt'
          & Hsame');
      [done|done|done|done|done| | | |].
    + rewrite flat_map_app. cbn [flat_map]. unfold item.
      rewrite ids_toc_item, app_nil_r.
      rewrite !app_comm_cons. apply Forall_app. split; [done|].
      constructor; [lia|constructor; [lia|constructor]].
    + lia.
    + eapply Forall_impl; [exact Hrest|]. intros x [? [y Hy]].
      split; [done|]. destruct (Hk1 _ _ Hy) as (y' & Hy' & _). by exists y'.
    + exists d', (item :: new). split; [simpl; by rewrite E|].
      split; [done|]. split; [by rewrite Hc', <- app_assoc|].
      split; [by eapply keeps_trans|]. split; [|split; [|split; [|split]]].
      * constructor.
        -- destruct (Hk' _ _ (Hframe1 _ _ Hh)) as (hn & Hhn & K).
           destruct (push_kid_shell ul item (g h)) as (S1 & S2 & S3).
           destruct K as (K1 & K2 & K3).
           exists (fresh d), (S (fresh d)), (g h), hn.
           split; [done|]. split; [done|]. split; [congruence|].
           assert (attr "id" hn = attr "id" (g h)) as Heq.
           { rewrite K3; [done|]. by rewrite S3. }
           rewrite Heq. split; [done|]. split; [done|].
           intros h0 Hh0 _. rewrite Hh in Hh0. injection Hh0 as <-.
           apply Hsame.
        -- eapply Forall2_impl; [exact Hall|].
           intros h' item' (li & a & n & hn & -> & Hhn & T1 & T2 & T3 & T4).
           exists li, a, n, hn. split; [done|]. split; [done|].
           split; [done|]. split; [done|]. split; [done|].
           intros h0 Hh0 Hn0. rewrite (T4 (g h0)).
           ++ apply Hsame.
           ++ by apply Hexact.
           ++ by rewrite (proj2 (Hsame h0)).
      * intros name x Hname Hx. by apply Hget', Hget1.
      * intros x y y' Hy Hy'.
        assert (attr "id" (update ul (push_kid item) (g y)) = attr "id" (g y))
          as S3 by (by destruct (push_kid_shell ul item (g y)) as (_ & _ & ?)).
        destruct (Hown' _ _ _ (Hframe1 _ _ Hy) Hy')
          as [Heq|(Hin & He & Hne & Hres)].
        -- rewrite S3 in Heq.
           destruct Hg as [[_ ->]|(Hid & v & ->)]; [by left|].
           destruct (decide (x = heading)) as [->|Hne].
           ++ right. rewrite Hh in Hy. injection Hy as <-.
              split; [by left|]. split; [done|]. rewrite Heq.
              split; [done|]. intros Hin. apply Hget'; [done|].
              apply Hown1; [done|]. apply Hatt1; [|lia].
              apply Hatt'; [done|]. lia.
           ++ left. rewrite Heq.
              destruct (deref_El _ _ _ Hy) as (ty & ay & ky & ->).
              cbn [update]. by rewrite (proj2 (Nat.eqb_neq x heading)).
        -- right. split; [by right|]. split; [|done].
           rewrite S3 in He. destruct (Hkg _ _ Hy) as (_ & _ & K).
           destruct (decide (attr "id" y = [])) as [?|Hy0]; [done|].
           rewrite He in K. exfalso. apply Hy0. symmetry. by apply K.
      * intros x Hx Hlt'. apply Hatt1; [|done]. apply Hatt'; [done|]. lia.
      * intros x y Hy Hn.
        destruct (Hsame' x (g y)) as (y' & Hy' & T1 & T2).
        -- by apply Hexact.
        -- by rewrite (proj2 (Hsame y)).
        -- exists y'. split; [done|]. destruct (Hsame y) as [T3 T4].
           split; congruence.
Qed.

Lemma querySelectorAll_deref d sel h :
  well_formed d → h ∈ querySelectorAll d sel →
  ∃ n, deref d h = Some n ∧ node_tag n = sel ∧ (h < fresh d)%nat.
Proof.
  intros [Hnd Hlt] Hh. unfold querySelectorAll in Hh.
  apply list_elem_of_omap in Hh as (n & Hn & Hid).
  apply list_elem_of_filter in Hn as [Htag Hn].
  apply String.eqb_eq in Htag. apply list_elem_of_In in Hn.
  assert (deref d h = Some n) as Hd.
  { apply deref_unique; [done| |done]. simpl. apply in_or_app. by left. }
  exists n. split; [done|]. split; [done|].
  apply deref_in_ids in Hd as [_ Hd]. rewrite Forall_forall in Hlt.
  by apply Hlt.
Qed.

Lemma Forall2_impl_elem {A B : Type} (P Q : A → B → Prop) l k :
  Forall2 P l k → (∀ x y, x ∈ l → P x y → Q x y) → Forall2 Q l k.
Proof.
  induction 1 as [|x y l k Hxy _ IH]; intros HPQ; constructor.
  - apply HPQ; [by left|done].
  - apply IH. intros x' y' Hx'. apply HPQ. by right.
Qed.

(** A new container takes no id from the elements of the page. *)
Lemma getElementById_created d c d1 name :
  well_formed d → getElementById d CONFIG_containerId = None →
  getOrCreateContainer d = inr (c, d1) → name ≠ CONFIG_containerId →
  getElementById d1 name = getElementById d name.
Proof.
  intros Hwf Hget Hgc Hname. rewrite getOrCreateContainer_cases, Hget in Hgc.
  destruct (body d) as [[b tb ab ks|]|] eqn:Hbody; [|done..].
  injection Hgc as <- <-.
  destruct (container_created d b tb ab ks Hwf Hget Hbody) as (Hclear & _).
  cbv zeta in Hclear.
  change (getElementById
            (clear (fresh d)
               (update_doc b (unshift_kid (container_div (fresh d)))
                           (createElement d).2)) name = getElementById d name).
  rewrite Hclear.
  rewrite (update_doc_ext _ _ (grow id [container_div (fresh d)] []))
    by (intros e; apply unshift_kid_grow).
  rewrite !getElementById_find. cbn [update_doc root createElement snd].
  rewrite (find_update_grow (has_id name) (has_id name)).
  - destruct (find _ _) as [y|]; [|done]. simpl.
    apply node_id_update. intros e. apply node_id_grow.
  - apply has_id_shallow.
  - cbn [app flat_map container_div elements]. constructor; [|constructor].
    unfold has_id. apply bool_decide_eq_false_2. simpl. congruence.
  - apply NoDup_root, Hwf.
  - done.
  - done.
Qed.

Lemma generateTOC_spec d :
  well_formed d → readyState d ≠ loading →
  querySelectorAll d CONFIG_selectors ≠ [] →
  is_Some (getElementById d CONFIG_containerId) ∨ is_Some (body d) →
  ∃ d' c tc ac t ul items,
    generateTOC toLowerCase d = Done d' ∧
    well_formed d' ∧
    getElementById d' CONFIG_containerId = Some c ∧
    deref d' c = Some (El c tc ac [toc_title t; El ul "ul" [] items]) ∧
    assoc "id" ac = CONFIG_containerId ∧
    keeps d d' ∧
    Forall2 (listed d d' c) (querySelectorAll d CONFIG_selectors) items ∧
    (∀ x y y', deref d x = Some y → deref d' x = Some y' →
               attr "id" y' = attr "id" y ∨
               id_set d' (querySelectorAll d CONFIG_selectors) x y y') ∧
    (getElementById d CONFIG_containerId = None →
     ∀ name x, name ≠ [] → getElementById d name = Some x →
               getElementById d' name = Some x).
Proof.
  intros Hwf Hready Hheadings Hplace.
  destruct (getOrCreateContainer d) as [e|[c d1]] eqn:Hgc.
  { apply AutoTocExtra.getOrCreateContainer_error in Hgc as (Hnone & Hbody & _).
    rewrite Hnone, Hbody in Hplace.
    destruct Hplace as [[? ?]|[? ?]]; done. }
  destruct (container_spec d c d1 Hwf Hgc)
    as (Hget1 & (tc & ac & Hc1 & Hac) & Hwf1 & Hframe1 & Hfr1 & _).
  set (t := fresh d1). set (ul := S (fresh d1)).
  set (d3 := appendChild c (toc_title t) (createElement d1).2).
  set (d5 := appendChild c (El ul "ul" [] []) (createElement d3).2).
  assert (generateTOC toLowerCase d
          = toc_entries toLowerCase ul d5 (querySelectorAll d CONFIG_selectors))
    as ->.
  { unfold generateTOC. rewrite Hgc.
    destruct (querySelectorAll d CONFIG_selectors) eqn:E; [done|].
    by destruct (readyState d). }
  destruct (appendChild_spec d1 (createElement d1).2 c tc ac [] (toc_title t))
    as (Hwf3 & Hfresh3 & Hc3 & Hframe3);
    [done|done|done|done|simpl; lia|apply NoDup_singleton| |].
  { simpl. constructor; [unfold t; lia|constructor]. }
  fold d3 in Hwf3, Hfresh3, Hc3, Hframe3. simpl in Hfresh3, Hc3.
  destruct (appendChild_spec d3 (createElement d3).2 c tc ac [toc_title t]
                             (El ul "ul" [] []))
    as (Hwf5 & Hfresh5 & Hc5 & Hframe5);
    [done|done|done|done|simpl; lia|apply NoDup_singleton| |].
  { simpl. constructor; [unfold ul; lia|constructor]. }
  fold d5 in Hwf5, Hfresh5, Hc5, Hframe5. simpl in Hfresh5, Hc5.
  assert (∀ x y, deref d x = Some y →
                 ∃ y5, deref d5 x = Some y5 ∧ same_shell y y5) as Hs5.
  { intros x y Hx. destruct (Hframe1 _ _ Hx) as (y1 & Hy1 & Hs1).
    eexists. split; [by apply Hframe5, Hframe3|].
    eapply same_shell_trans; [exact Hs1|].
    eapply same_shell_trans; apply push_kid_shell. }
  assert (keeps d d5) as Hk5.
  { intros x y Hx. destruct (Hs5 _ _ Hx) as (y5 & Hy5 & Hs).
    exists y5. split; [done|by apply same_shell_kept]. }
  assert (∀ name, name ≠ [] →
                  getElementById d5 name = getElementById d1 name) as Hget5.
  { intros name Hname. unfold d5. rewrite getElementById_appendChild;
      [|apply Hwf3|by repeat constructor|done].
    change (getElementById d3 name = getElementById d1 name). unfold d3.
    rewrite getElementById_appendChild;
      [|apply Hwf1|by repeat constructor|done].
    done. }
  assert (∀ x y, deref d x = Some y → c ∉ ids y →
                 (∀ b t' a' ks, body d = Some (El b t' a' ks) → b ∉ ids y) →
                 deref d5 x = Some y ∧ ul ∉ ids y) as Hexact.
  { intros x y Hy Hcy Hby. split.
    - rewrite (Hframe5 x (update c (push_kid (toc_title t)) y)).
      + by rewrite (update_absent c _ y Hcy), (update_absent c _ y Hcy).
      + apply Hframe3.
        exact (container_frame_exact d c d1 x y Hwf Hgc Hy Hcy Hby).
    - intros Hin. apply (deref_ids d x y ul Hy) in Hin.
      destruct Hwf as [_ Hlt]. rewrite Forall_forall in Hlt.
      specialize (Hlt _ Hin). unfold ul in Hlt. lia. }
  destruct (toc_entries_spec c tc ac t ul (fresh d)
              (querySelectorAll d CONFIG_selectors) d5 [])
    as (d' & items & E & Hwf' & Hc' & Hk' & Hall & Hget' & Hown' & _ & _).
  - done.
  - done.
  - by rewrite Hac.
  - apply deref_lt in Hc1; [|done]. unfold ul. lia.
  - unfold t, ul. lia.
  - simpl. constructor; [unfold t; lia|constructor; [unfold ul; lia|constructor]].
  - unfold d5, d3. simpl. lia.
  - apply Forall_forall. intros h Hh.
    destruct (querySelectorAll_deref d _ h Hwf Hh) as (n & Hn & _ & Hlt).
    split; [done|]. destruct (Hk5 _ _ Hn) as (n' & Hn' & _). by exists n'.
  - assert (keeps d d') as Hk by by eapply keeps_trans.
    exists d', c, tc, ac, t, ul, items. split; [done|]. split; [done|].
    split; [apply Hget'; [done|]; by rewrite Hget5|].
    split; [done|]. split; [done|]. split; [done|]. split; [|split].
    + eapply Forall2_impl_elem; [exact Hall|].
      intros h item Hh (li & a & n & hn & -> & Hhn & T1 & T2 & T3 & T4).
      destruct (querySelectorAll_deref d _ h Hwf Hh) as (n0 & Hn0 & Htag & _).
      destruct (Hk _ _ Hn0) as (hn' & Hhn' & _ & K & _).
      assert (node_tag n = "h1"%string) as Hn1
        by (unfold CONFIG_selectors in Htag; congruence).
      exists li, a, hn, (let t := trim (textContent n) in
                         if truthy_str t then [Tx t] else []).
      split; [unfold toc_item; by rewrite Hn1, T2|].
      split; [done|]. split; [done|].
      intros h0 Hh0 Hc0 Hb0. destruct (Hexact _ _ Hh0 Hc0 Hb0) as [Hh5 Hul].
      by rewrite textContent_toc_item, (T4 h0 Hh5 Hul).
    + intros x y y' Hy Hy'. destruct (Hs5 _ _ Hy) as (y5 & Hy5 & _ & _ & Hs).
      destruct (Hown' _ _ _ Hy5 Hy') as [?|(I1 & I2 & I3 & I4)].
      * left. congruence.
      * right. split; [done|]. split; [congruence|done].
    + intros Hnone name x Hname Hx. apply Hget'; [done|].
      rewrite Hget5 by done.
      rewrite (getElementById_created d c d1 name Hwf Hnone Hgc); [done|].
      intros ->. congruence.
Qed.



(** X21. The run keeps every object of the document and its tag, and it
    changes no id but that of a heading that had none. The id such a heading
    gets is not empty, and while the heading is in the tree it is the
    element that [getElementById] finds under that id. The identities stay
    distinct. *)
Theorem ids_go_to_headings_without_one d :
  well_formed d → readyState d ≠ loading →
  querySelectorAll d CONFIG_selectors ≠ [] →
  is_Some (getElementById d CONFIG_containerId) ∨ is_Some (body d) →
  ∃ d',
    generateTOC toLowerCase d = Done d' ∧ well_formed d' ∧
    ∀ x y, deref d x = Some y →
           ∃ y', deref d' x = Some y' ∧ node_tag y' = node_tag y ∧
                 (attr "id" y' = attr "id" y ∨
                  id_set d' (querySelectorAll d CONFIG_selectors) x y y').
Proof.
  intros Hwf Hready Hheadings Hplace.
  destruct (generateTOC_spec d Hwf Hready Hheadings Hplace)
    as (d' & c & tc & ac & t & ul & items & H1 & H2 & _ & _ & _ & H6 & _ & H8 & _).
  exists d'. split; [done|]. split; [done|]. intros x y Hy.
  destruct (H6 _ _ Hy) as (y' & Hy' & _ & Htag & _). exists y'.
  split; [done|]. split; [done|]. by eapply H8.
Qed.

Lemma Forall2_elem_l {A B : Type} (P : A → B → Prop) l k x :
  Forall2 P l k → x ∈ l → ∃ y, P x y.
Proof.
  induction 1 as [|x' y l k Hxy _ IH]; [by intros ?%elem_of_nil|].
  intros [->|Hx]%elem_of_cons; [by exists y|by apply IH].
Qed.

(** X22. The ids that a run gives are pairwise different: two headings
    without an id that are in the tree after the run, and have the same id
    then, are one heading. *)
Theorem given_ids_are_distinct d :
  well_formed d → readyState d ≠ loading →
  querySelectorAll d CONFIG_selectors ≠ [] →
  is_Some (getElementById d CONFIG_containerId) ∨ is_Some (body d) →
  ∃ d',
    generateTOC toLowerCase d = Done d' ∧
    ∀ h1 h2 n1 n2 m1 m2,
      h1 ∈ querySelectorAll d CONFIG_selectors →
      h2 ∈ querySelectorAll d CONFIG_selectors →
      deref d h1 = Some n1 → deref d h2 = Some n2 →
      attr "id" n1 = [] → attr "id" n2 = [] →
      deref d' h1 = Some m1 → deref d' h2 = Some m2 →
      h1 ∈ ids (root d') → h2 ∈ ids (root d') →
      attr "id" m1 = attr "id" m2 → h1 = h2.
Proof.
  intros Hwf Hready Hheadings Hplace.
  destruct (generateTOC_spec d Hwf Hready Hheadings Hplace)
    as (d' & c & tc & ac & t & ul & items & H1 & _ & _ & _ & _ & _ & H7 & H8 & _).
  exists d'. split; [done|].
  assert (∀ h n m, h ∈ querySelectorAll d CONFIG_selectors →
                   deref d h = Some n → attr "id" n = [] →
                   deref d' h = Some m → h ∈ ids (root d') →
                   getElementById d' (attr "id" m) = Some h) as Hres.
  { intros h n m Hh Hn Hid Hm Hin.
    destruct (Forall2_elem_l _ _ _ h H7 Hh) as (item & li & a & hn & text & _ & Hhn & Hne & _).
    destruct (H8 _ _ _ Hn Hm) as [Heq|(_ & _ & _ & Hr)]; [|by apply Hr].
    exfalso. apply Hne. congruence. }
  intros h1 h2 n1 n2 m1 m2 Hh1 Hh2 Hn1 Hn2 Hi1 Hi2 Hm1 Hm2 Ha1 Ha2 Heq.
  pose proof (Hres _ _ _ Hh1 Hn1 Hi1 Hm1 Ha1) as R1.
  pose proof (Hres _ _ _ Hh2 Hn2 Hi2 Hm2 Ha2) as R2.
  rewrite Heq in R1. congruence.
Qed.

(** X23. On a page without a container of its own the run breaks no
    anchor: an id that led to an element leads to the same element
    afterwards. *)
Theorem anchors_keep_their_targets d :
  well_formed d → readyState d ≠ loading →
  querySelectorAll d CONFIG_selectors ≠ [] →
  getElementById d CONFIG_containerId = None → is_Some (body d) →
  ∃ d',
    generateTOC toLowerCase d = Done d' ∧
    ∀ name x, name ≠ [] → getElementById d name = Some x →
              getElementById d' name = Some x.
Proof.
  intros Hwf Hready Hheadings Hnone Hbody.
  destruct (generateTOC_spec d Hwf Hready Hheadings (or_intror Hbody))
    as (d' & c & tc & ac & t & ul & items & H1 & _ & _ & _ & _ & _ & _ & _ & H9).
  exists d'. split; [done|]. by apply H9.
Qed.


End Run.

Lemma page_well_formed state content :
  NoDup (0 :: 1 :: 2 :: flat_map ids content)%nat →
  Forall (λ i, i < 100)%nat (flat_map ids content) →
  well_formed (page state content).
Proof.
  intros Hnd Hlt. unfold well_formed, all_ids, page. simpl.
  rewrite !app_nil_r. split; [done|].
  repeat (constructor; [lia|]). done.
Qed.

Lemma chapters_well_formed : well_formed (page complete chapters).
Proof.
  apply page_well_formed; apply (bool_decide_unpack _); vm_compute; exact I.
Defined.



Lemma ids_go_to_headings_without_one_witness :
  ∃ d',
    generateTOC ascii_lower (page complete chapters) = Done d' ∧
    well_formed d' ∧
    ∀ x y, deref (page complete chapters) x = Some y →
           ∃ y', deref d' x = Some y' ∧ node_tag y' = node_tag y ∧
                 (attr "id" y' = attr "id" y ∨
                  id_set d' (querySelectorAll (page complete chapters)
                                              CONFIG_selectors) x y y').
Proof.
  apply (ids_go_to_headings_without_one ascii_lower (page complete chapters)).
  - exact chapters_well_formed.
  - done.
  - by vm_compute.
  - right. vm_compute. by eexists.
Defined.

Lemma given_ids_are_distinct_witness :
  ∃ d',
    generateTOC ascii_lower (page complete chapters) = Done d' ∧
    ∀ h1 h2 n1 n2 m1 m2,
      h1 ∈ querySelectorAll (page complete chapters) CONFIG_selectors →
      h2 ∈ querySelectorAll (page complete chapters) CONFIG_selectors →
      deref (page complete chapters) h1 = Some n1 →
      deref (page complete chapters) h2 = Some n2 →
      attr "id" n1 = [] → attr "id" n2 = [] →
      deref d' h1 = Some m1 → deref d' h2 = Some m2 →
      h1 ∈ ids (root d') → h2 ∈ ids (root d') →
      attr "id" m1 = attr "id" m2 → h1 = h2.
Proof.
  apply (given_ids_are_distinct ascii_lower (page complete chapters)).
  - exact chapters_well_formed.
  - done.
  - by vm_compute.
  - right. vm_compute. by eexists.
Defined.

Lemma anchors_keep_their_targets_witness :
  ∃ d',
    generateTOC ascii_lower (page complete chapters) = Done d' ∧
    ∀ name x, name ≠ [] →
              getElementById (page complete chapters) name = Some x →
              getElementById d' name = Some x.
Proof.
  apply (anchors_keep_their_targets ascii_lower (page complete chapters)).
  - exact chapters_well_formed.
  - done.
  - by vm_compute.
  - by vm_compute.
  - vm_compute. by eexists.
Defined.


End AutoTocTree.
